(** * npg_irods.utilities: check, repair, copy and safe removal of iRODS items

    A shallow embedding of [src/npg_irods/utilities.py].  The iRODS zone that
    the [partisan] client talks to is an explicit catalogue threaded through
    a state-and-exception monad; every call made to the client, every log
    record and every line printed to the writer is appended to a trace, so
    that statements about "what was called, in which order" can be made. *)

From Stdlib Require Import List String Ascii Bool Arith ZArith Lia.
From Stdlib Require Import Permutation Sorting.Sorted.
From Stdlib Require Import Structures.OrdersEx DecimalString.
Import ListNotations.
Open Scope string_scope.
Open Scope list_scope.


(* ================================================================== *)
(** ** Paths *)

(** A [pathlib.PurePath] is its tuple of parts; an absolute path has its
    root as its first part: [PurePath("/a/b").parts == ("/","a","b")]. *)
Definition PurePath := list string.

(** Text is held as the bytes of its UTF-8 encoding.  [str.strip()] removes
    the characters for which [str.isspace()] holds.  In ASCII they are the
    tab to the carriage return (9 to 13), the four separators (28 to 31) and
    the space (32). *)
Definition is_space (c : ascii) : bool :=
  let n := nat_of_ascii c in
  (Nat.leb 9 n && Nat.leb n 13) || (Nat.leb 28 n && Nat.leb n 32).

(** Beyond ASCII they are U+0085 and U+00A0, of two bytes each, *)
Definition is_space2 (a b : ascii) : bool :=
  let a := nat_of_ascii a in
  let b := nat_of_ascii b in
  Nat.eqb a 194 && (Nat.eqb b 133 || Nat.eqb b 160).

(** and U+1680, U+2000 to U+200A, U+2028, U+2029, U+202F, U+205F and U+3000,
    of three bytes each. *)
Definition is_space3 (a b c : ascii) : bool :=
  let a := nat_of_ascii a in
  let b := nat_of_ascii b in
  let c := nat_of_ascii c in
  (Nat.eqb a 225 && Nat.eqb b 154 && Nat.eqb c 128)
  || (Nat.eqb a 226 && Nat.eqb b 128
      && ((Nat.leb 128 c && Nat.leb c 138)
          || Nat.eqb c 168 || Nat.eqb c 169 || Nat.eqb c 175))
  || (Nat.eqb a 226 && Nat.eqb b 129 && Nat.eqb c 159)
  || (Nat.eqb a 227 && Nat.eqb b 128 && Nat.eqb c 128).

(** [str.lstrip()] *)
Fixpoint lstrip (s : string) : string :=
  match s with
  | EmptyString => EmptyString
  | String a s1 =>
      if is_space a then lstrip s1
      else
        match s1 with
        | EmptyString => s
        | String b s2 =>
            if is_space2 a b then lstrip s2
            else
              match s2 with
              | EmptyString => s
              | String c s3 => if is_space3 a b c then lstrip s3 else s
              end
        end
  end.

(** [lstrip] of the text read from its end: the bytes of a character come
    last byte first. *)
Fixpoint lstrip_reversed (s : string) : string :=
  match s with
  | EmptyString => EmptyString
  | String c s1 =>
      if is_space c then lstrip_reversed s1
      else
        match s1 with
        | EmptyString => s
        | String b s2 =>
            if is_space2 b c then lstrip_reversed s2
            else
              match s2 with
              | EmptyString => s
              | String a s3 => if is_space3 a b c then lstrip_reversed s3 else s
              end
        end
  end.

Definition reversed (s : string) : string :=
  string_of_list_ascii (rev (list_ascii_of_string s)).

(** [str.rstrip()] *)
Definition rstrip (s : string) : string := reversed (lstrip_reversed (reversed s)).

(** [str.strip()] *)
Definition strip (s : string) : string := rstrip (lstrip s).

(** [s.split("/")] *)
Fixpoint split_slash (s : string) : list string :=
  match s with
  | EmptyString => [EmptyString]
  | String c s' =>
      if Ascii.eqb c "/"%char then EmptyString :: split_slash s'
      else match split_slash s' with
           | [] => [String c EmptyString]
           | w :: ws => String c w :: ws
           end
  end.

(** The root of [PurePath(s)]: none for a relative path, ["//"] when [s]
    starts with exactly two slashes, which POSIX sets apart, and ["/"]
    otherwise. *)
Definition root_of (s : string) : option string :=
  match s with
  | String a rest =>
      if Ascii.eqb a "/"%char then
        match rest with
        | String b rest' =>
            if Ascii.eqb b "/"%char then
              match rest' with
              | String c _ => if Ascii.eqb c "/"%char then Some "/" else Some "//"
              | EmptyString => Some "//"
              end
            else Some "/"
        | EmptyString => Some "/"
        end
      else None
  | EmptyString => None
  end.

Definition is_root (part : string) : bool :=
  String.eqb part "/" || String.eqb part "//".

(** [PurePath(s)]: empty and ["."] components are dropped. *)
Definition parse_path (s : string) : PurePath :=
  let comps :=
    filter (fun w => negb (String.eqb w "") && negb (String.eqb w "."))
           (split_slash s) in
  match root_of s with
  | Some root => root :: comps
  | None => comps
  end.

Fixpoint join_slash (l : list string) : string :=
  match l with
  | [] => ""
  | [w] => w
  | w :: l' => (w ++ "/" ++ join_slash l')%string
  end.

(** [str(path)] *)
Definition path_str (p : PurePath) : string :=
  match p with
  | [] => "."
  | r :: l => if is_root r then (r ++ join_slash l)%string else join_slash p
  end.

(** [path.name]: the final component, empty for a root and for [.] *)
Definition path_name (p : PurePath) : string :=
  match rev p with
  | [] => ""
  | n :: rest =>
      match rest with
      | [] => if is_root n then "" else n
      | _ => n
      end
  end.

(** [path.parent] *)
Definition path_parent (p : PurePath) : PurePath :=
  match p with
  | [r] => if is_root r then p else []
  | _ => removelast p
  end.

(** [PurePath(p, name)] for a [name] that is one component. *)
Definition path_join (p : PurePath) (name : string) : PurePath :=
  if String.eqb name "" then p else p ++ [name].

Fixpoint path_eqb (p q : PurePath) : bool :=
  match p, q with
  | [], [] => true
  | a :: p', b :: q' => String.eqb a b && path_eqb p' q'
  | _, _ => false
  end.

(** [p < q] on [PurePath]: the parts are compared as Python compares lists. *)
Fixpoint path_ltb (p q : PurePath) : bool :=
  match p, q with
  | [], [] => false
  | [], _ :: _ => true
  | _ :: _, [] => false
  | a :: p', b :: q' =>
      match String.compare a b with
      | Lt => true
      | Gt => false
      | Eq => path_ltb p' q'
      end
  end.

(** [anc] is a proper ancestor of [p]: its parts are a strict prefix. *)
Fixpoint is_beneath (anc p : PurePath) : bool :=
  match anc, p with
  | [], _ :: _ => true
  | a :: anc', b :: p' => String.eqb a b && is_beneath anc' p'
  | _, [] => false
  end.

(* ================================================================== *)
(** ** Items, replicas, metadata *)

Record AVU := mkAVU
  { attribute : string; value : string; units : option string }.

Record AC := mkAC { user : string; zone : string; perm : string }.

Record Replica := mkReplica
  { resource : string;
    number : nat;
    created : nat;
    checksum : option string;
    valid : bool }.

(** The handles of [partisan.irods].  A [DataObject] keeps the path of its
    collection in [path] and its own name in [name]; a [Collection] keeps
    its full path. *)
Inductive RodsItem : Type :=
| Collection (path : PurePath)
| DataObject (path : PurePath) (name : string).

(** [DataObject(p)] *)
Definition new_DataObject (p : PurePath) : RodsItem :=
  DataObject (path_parent p) (path_name p).

(** The remote path that a handle denotes. *)
Definition item_path (it : RodsItem) : PurePath :=
  match it with
  | Collection p => p
  | DataObject p n => path_join p n
  end.

(** [item.path] *)
Definition dot_path (it : RodsItem) : PurePath :=
  match it with
  | Collection p => p
  | DataObject p _ => p
  end.

(** [str(item)] *)
Definition item_str (it : RodsItem) : string := path_str (item_path it).

Definition is_DataObject (it : RodsItem) : bool :=
  match it with DataObject _ _ => true | Collection _ => false end.

(** [rods_type]: the kind of thing found at a remote path. *)
Inductive rods_type := TCollection | TDataObject.

Record object_state := mkObject
  { obj_checksum : option string;
    obj_replicas : list Replica;
    obj_metadata : list AVU;
    obj_permissions : list AC }.

Record collection_state := mkColl
  { coll_metadata : list AVU;
    coll_permissions : list AC }.

Inductive entry :=
| EObject (o : object_state)
| ECollection (c : collection_state).

(** The iRODS catalogue: remote path to what is stored there, in the order
    in which the server lists it. *)
Definition catalogue := list (PurePath * entry).

Fixpoint lookup (p : PurePath) (cat : catalogue) : option entry :=
  match cat with
  | [] => None
  | (q, e) :: cat' => if path_eqb p q then Some e else lookup p cat'
  end.

Fixpoint replace_entry (p : PurePath) (e : entry) (cat : catalogue) : catalogue :=
  match cat with
  | [] => []
  | (q, e') :: cat' =>
      if path_eqb p q then (q, e) :: cat' else (q, e') :: replace_entry p e cat'
  end.

(* ================================================================== *)
(** ** Exceptions, events and the monad *)

Definition opt_eqb (a b : option string) : bool :=
  match a, b with
  | None, None => true
  | Some x, Some y => String.eqb x y
  | _, _ => false
  end.

(** The [expected=] and [observed=] arguments of [ChecksumError]. *)
Inductive checksum_info :=
| NoInfo
| OneChecksum (c : option string)
| ManyChecksums (cs : list (option string)).

Inductive exn :=
| RodsError (message : string) (code : Z)
| ChecksumError (message : string) (path : RodsItem)
                (expected observed : checksum_info)
| ValueError (message : string)
| RecursionError
| OtherException (message : string).

(** A failure of the remote system when a path is accessed (permission
    denied, connection lost, ...). *)
Inductive fault :=
| RodsFault (message : string) (code : Z)
| OtherFault (message : string).

Definition exn_of_fault (f : fault) : exn :=
  match f with
  | RodsFault m c => RodsError m c
  | OtherFault m => OtherException m
  end.

Inductive api :=
| ApiMakeRodsItem
| ApiRodsType
| ApiExists
| ApiChecksum
| ApiReplicas
| ApiMetadata
| ApiPermissions
| ApiContents (recurse : bool)
| ApiAddMetadata (avus : list AVU)
| ApiSupersedeMetadata (avus : list AVU)
| ApiAddPermissions (acl : list AC)
| ApiTrimReplicas (min_replicas : nat) (trim_valid trim_invalid : bool)
| ApiCreate (exist_ok : bool).

Inductive log_level := Debug | Info | Warn | Error.

Inductive log_field :=
| FBool (b : bool)
| FNat (n : nat)
| FInt (z : Z)
| FStr (s : string)
| FItem (it : RodsItem)
| FChecksum (c : option string)
| FStrs (l : list string)
| FInfo (i : checksum_info).

(** One argument of [print(..., file=writer)]; [PQuoted it] is the text
    [shlex.quote(str(it))]. *)
Inductive print_arg :=
| PStr (s : string)
| PQuoted (it : RodsItem).

Inductive event :=
| Api (it : RodsItem) (op : api)
| Subprocess (cmd : list string)
| Log (level : log_level) (message : string) (fields : list (string * log_field))
| Print (args : list print_arg).

Record world := mkWorld
  { irods : catalogue;
    faults : list (PurePath * fault);
    trace : list event }.

Inductive result (A : Type) :=
| Ok (a : A)
| Raise (e : exn).
Arguments Ok {A} a.
Arguments Raise {A} e.

Definition M (A : Type) := world -> result A * world.

Definition ret {A} (a : A) : M A := fun w => (Ok a, w).

Definition raise {A} (e : exn) : M A := fun w => (Raise e, w).

Definition bind {A B} (m : M A) (k : A -> M B) : M B :=
  fun w =>
    match m w with
    | (Ok a, w') => k a w'
    | (Raise e, w') => (Raise e, w')
    end.

(** [try: m  except Exception as e: h e] *)
Definition try_except {A} (m : M A) (h : exn -> M A) : M A :=
  fun w =>
    match m w with
    | (Ok a, w') => (Ok a, w')
    | (Raise e, w') => h e w'
    end.

Notation "x <- m ;; k" := (bind m (fun x => k))
  (at level 61, m at next level, right associativity).
Notation "m ;;; k" := (bind m (fun _ => k))
  (at level 61, right associativity).
Notation "' pat <- m ;; k" :=
  (bind m (fun x => match x with pat => k end))
  (at level 61, pat pattern, m at next level, right associativity).

Definition emit (e : event) : M unit :=
  fun w => (Ok tt, mkWorld (irods w) (faults w) (trace w ++ [e])).

Definition get_irods : M catalogue := fun w => (Ok (irods w), w).

Definition put_irods (cat : catalogue) : M unit :=
  fun w => (Ok tt, mkWorld cat (faults w) (trace w)).

Definition when (b : bool) (m : M unit) : M unit := if b then m else ret tt.

(** [for x in l: f x] *)
Fixpoint for_each {A} (l : list A) (f : A -> M unit) : M unit :=
  match l with
  | [] => ret tt
  | x :: l' => f x ;;; for_each l' f
  end.

(** [ThreadPool(num_threads).starmap(fn, enumerate(reader))] with one
    thread, which is the default: the items are run one after the other and
    the results come back in input order.  An exception that leaves [fn] is
    raised by [starmap] in the caller; what the pool does with the items
    that are left then is not modelled. *)
Fixpoint starmap {A B} (fn : nat -> A -> M B) (i : nat) (l : list A) : M (list B) :=
  match l with
  | [] => ret []
  | x :: l' =>
      r <- fn i x ;;
      rs <- starmap fn (S i) l' ;;
      ret (r :: rs)
  end.

Definition log (lv : log_level) (msg : string) (fields : list (string * log_field))
  : M unit := emit (Log lv msg fields).

(* ================================================================== *)
(** ** The [partisan] client, as far as [utilities.py] uses it

    Every method records its call, then asks the server.  A path listed in
    [faults] makes any access to it fail with that fault; a path absent
    from the catalogue fails with iRODS' [USER_FILE_DOES_NOT_EXIST]. *)

Definition USER_FILE_DOES_NOT_EXIST : Z := (-310000)%Z.
Definition CATALOG_ALREADY_HAS_ITEM_BY_THAT_NAME : Z := (-809000)%Z.
Definition CAT_UNKNOWN_COLLECTION : Z := (-814000)%Z.
Definition CAT_NOT_A_DATAOBJ : Z := (-816000)%Z.

Fixpoint fault_at (p : PurePath) (fs : list (PurePath * fault)) : option fault :=
  match fs with
  | [] => None
  | (q, f) :: fs' => if path_eqb p q then Some f else fault_at p fs'
  end.

(** What the server holds at [p], or the fault that accessing [p] meets. *)
Definition stat (p : PurePath) : M (option entry) :=
  fun w =>
    match fault_at p (faults w) with
    | Some f => (Raise (exn_of_fault f), w)
    | None => (Ok (lookup p (irods w)), w)
    end.

Definition no_such_path (it : RodsItem) : exn :=
  RodsError ("Path does not exist: " ++ item_str it)%string USER_FILE_DOES_NOT_EXIST.

Definition get_entry (it : RodsItem) : M entry :=
  e <- stat (item_path it) ;;
  match e with
  | Some x => ret x
  | None => raise (no_such_path it)
  end.

Definition get_object (it : RodsItem) : M object_state :=
  e <- get_entry it ;;
  match e with
  | EObject o => ret o
  | ECollection _ =>
      raise (RodsError ("Not a data object: " ++ item_str it)%string CAT_NOT_A_DATAOBJ)
  end.

Definition get_collection (it : RodsItem) : M collection_state :=
  e <- get_entry it ;;
  match e with
  | ECollection c => ret c
  | EObject _ =>
      raise (RodsError ("Not a collection: " ++ item_str it)%string CAT_UNKNOWN_COLLECTION)
  end.

Definition set_entry (it : RodsItem) (e : entry) : M unit :=
  cat <- get_irods ;; put_irods (replace_entry (item_path it) e cat).

Definition type_of_entry (e : entry) : rods_type :=
  match e with EObject _ => TDataObject | ECollection _ => TCollection end.

(** [item.rods_type]: [None] when nothing is stored at the path. *)
Definition get_rods_type (it : RodsItem) : M (option rods_type) :=
  emit (Api it ApiRodsType) ;;;
  e <- stat (item_path it) ;;
  ret (option_map type_of_entry e).

(** [item.exists()] *)
Definition exists_ (it : RodsItem) : M bool :=
  emit (Api it ApiExists) ;;;
  e <- stat (item_path it) ;;
  ret (match e with Some _ => true | None => false end).

(** [obj.checksum()] *)
Definition get_checksum (it : RodsItem) : M (option string) :=
  emit (Api it ApiChecksum) ;;;
  o <- get_object it ;;
  ret (obj_checksum o).

(** [obj.replicas()] *)
Definition replicas (it : RodsItem) : M (list Replica) :=
  emit (Api it ApiReplicas) ;;;
  o <- get_object it ;;
  ret (obj_replicas o).

Definition entry_metadata (e : entry) : list AVU :=
  match e with EObject o => obj_metadata o | ECollection c => coll_metadata c end.

Definition entry_permissions (e : entry) : list AC :=
  match e with EObject o => obj_permissions o | ECollection c => coll_permissions c end.

Definition with_metadata (e : entry) (m : list AVU) : entry :=
  match e with
  | EObject o => EObject (mkObject (obj_checksum o) (obj_replicas o) m (obj_permissions o))
  | ECollection c => ECollection (mkColl m (coll_permissions c))
  end.

Definition with_permissions (e : entry) (a : list AC) : entry :=
  match e with
  | EObject o => EObject (mkObject (obj_checksum o) (obj_replicas o) (obj_metadata o) a)
  | ECollection c => ECollection (mkColl (coll_metadata c) a)
  end.

(** [item.metadata()] *)
Definition metadata (it : RodsItem) : M (list AVU) :=
  emit (Api it ApiMetadata) ;;;
  e <- get_entry it ;;
  ret (entry_metadata e).

(** [item.permissions()] *)
Definition permissions (it : RodsItem) : M (list AC) :=
  emit (Api it ApiPermissions) ;;;
  e <- get_entry it ;;
  ret (entry_permissions e).

Definition avu_eqb (a b : AVU) : bool :=
  String.eqb (attribute a) (attribute b)
  && String.eqb (value a) (value b)
  && opt_eqb (units a) (units b).

Definition ac_eqb (a b : AC) : bool :=
  String.eqb (user a) (user b) && String.eqb (zone a) (zone b)
  && String.eqb (perm a) (perm b).

(** The elements of [new] that [old] lacks, each once, in order. *)
Fixpoint missing_from {A} (eqb : A -> A -> bool) (old new : list A) : list A :=
  match new with
  | [] => []
  | x :: new' =>
      if existsb (eqb x) old then missing_from eqb old new'
      else x :: missing_from eqb (old ++ [x]) new'
  end.

(** [item.add_metadata] (variadic): adds the AVUs that are not there yet and
    returns how many were added; nothing is removed. *)
Definition add_metadata (it : RodsItem) (avus : list AVU) : M nat :=
  emit (Api it (ApiAddMetadata avus)) ;;;
  e <- get_entry it ;;
  let added := missing_from avu_eqb (entry_metadata e) avus in
  set_entry it (with_metadata e (entry_metadata e ++ added)) ;;;
  ret (List.length added).

(** [item.supersede_metadata] (variadic): AVUs that share an attribute with one
    of [avus] without being one of them are removed, then the missing ones
    of [avus] are added.  Returns the numbers removed and added. *)
Definition supersede_metadata (it : RodsItem) (avus : list AVU) : M (nat * nat) :=
  emit (Api it (ApiSupersedeMetadata avus)) ;;;
  e <- get_entry it ;;
  let stale a :=
    existsb (fun b => String.eqb (attribute a) (attribute b)) avus
    && negb (existsb (avu_eqb a) avus) in
  let kept := filter (fun a => negb (stale a)) (entry_metadata e) in
  let added := missing_from avu_eqb kept avus in
  set_entry it (with_metadata e (kept ++ added)) ;;;
  ret (List.length (filter stale (entry_metadata e)), List.length added).

(** [item.add_permissions] (variadic) *)
Definition add_permissions (it : RodsItem) (acl : list AC) : M nat :=
  emit (Api it (ApiAddPermissions acl)) ;;;
  e <- get_entry it ;;
  let added := missing_from ac_eqb (entry_permissions e) acl in
  set_entry it (with_permissions e (entry_permissions e ++ added)) ;;;
  ret (List.length added).

(** The replicas left by a trim that keeps the first [keep] valid ones. *)
Fixpoint trim_list (keep : nat) (trim_valid trim_invalid : bool) (rs : list Replica)
  : list Replica :=
  match rs with
  | [] => []
  | r :: rs' =>
      if valid r then
        if trim_valid then
          match keep with
          | O => trim_list O trim_valid trim_invalid rs'
          | S k => r :: trim_list k trim_valid trim_invalid rs'
          end
        else r :: trim_list keep trim_valid trim_invalid rs'
      else if trim_invalid then trim_list keep trim_valid trim_invalid rs'
           else r :: trim_list keep trim_valid trim_invalid rs'
  end.

(** [obj.trim_replicas(min_replicas=2, valid=False, invalid=True)]: valid
    replicas beyond the first [min_replicas] are trimmed when [valid] is set,
    invalid ones when [invalid] is set.  Returns the numbers of valid and of
    invalid replicas trimmed. *)
Definition trim_replicas (it : RodsItem) (min_replicas : nat) (trim_valid trim_invalid : bool)
  : M (nat * nat) :=
  emit (Api it (ApiTrimReplicas min_replicas trim_valid trim_invalid)) ;;;
  o <- get_object it ;;
  let vr := filter valid (obj_replicas o) in
  let ir := filter (fun r => negb (valid r)) (obj_replicas o) in
  let tv := if trim_valid then skipn min_replicas vr else [] in
  let ti := if trim_invalid then ir else [] in
  set_entry it (EObject (mkObject (obj_checksum o)
                           (trim_list min_replicas trim_valid trim_invalid (obj_replicas o))
                           (obj_metadata o) (obj_permissions o))) ;;;
  ret (List.length tv, List.length ti).

(** [coll.create(parents=False, exist_ok=...)] *)
Definition create (it : RodsItem) (exist_ok : bool) : M unit :=
  emit (Api it (ApiCreate exist_ok)) ;;;
  e <- stat (item_path it) ;;
  match e with
  | Some _ =>
      if exist_ok then ret tt
      else raise (RodsError ("Path already exists: " ++ item_str it)%string
                            CATALOG_ALREADY_HAS_ITEM_BY_THAT_NAME)
  | None =>
      parent <- stat (path_parent (item_path it)) ;;
      match parent with
      | Some (ECollection _) =>
          cat <- get_irods ;;
          put_irods (cat ++ [(item_path it, ECollection (mkColl [] []))])
      | _ => raise (RodsError ("No parent collection for: " ++ item_str it)%string
                              CAT_UNKNOWN_COLLECTION)
      end
  end.

Definition item_of_entry (pe : PurePath * entry) : RodsItem :=
  match snd pe with
  | EObject _ => new_DataObject (fst pe)
  | ECollection _ => Collection (fst pe)
  end.

Definition is_child (parent p : PurePath) : bool :=
  is_beneath parent p && Nat.eqb (List.length p) (S (List.length parent)).

(** [coll.contents()]: the items directly in the collection. *)
Definition contents (it : RodsItem) : M (list RodsItem) :=
  emit (Api it (ApiContents false)) ;;;
  _ <- get_collection it ;;
  cat <- get_irods ;;
  ret (map item_of_entry (filter (fun pe => is_child (item_path it) (fst pe)) cat)).

(** [coll.iter_contents(recurse=True)]: every item beneath the collection. *)
Definition iter_contents (it : RodsItem) (recurse : bool) : M (list RodsItem) :=
  emit (Api it (ApiContents recurse)) ;;;
  _ <- get_collection it ;;
  cat <- get_irods ;;
  let inside pe :=
    if recurse then is_beneath (item_path it) (fst pe)
    else is_child (item_path it) (fst pe) in
  ret (map item_of_entry (filter inside cat)).

(** [make_rods_item(path)]: a handle of the kind found at [path]. *)
Definition make_rods_item (p : PurePath) : M RodsItem :=
  emit (Api (Collection p) ApiMakeRodsItem) ;;;
  e <- stat p ;;
  match e with
  | Some (EObject _) => ret (new_DataObject p)
  | Some (ECollection _) => ret (Collection p)
  | None => raise (no_such_path (Collection p))
  end.

(** [Collection.__lt__], as [list.sort] uses it: by path. *)
Definition item_ltb (a b : RodsItem) : bool := path_ltb (item_path a) (item_path b).

(** [l.sort(reverse=True)]: descending, equal elements keep their order. *)
Fixpoint insert_reverse {A} (ltb : A -> A -> bool) (x : A) (l : list A) : list A :=
  match l with
  | [] => [x]
  | y :: l' => if ltb x y then y :: insert_reverse ltb x l' else x :: l
  end.

Definition sort_reverse {A} (ltb : A -> A -> bool) (l : list A) : list A :=
  fold_right (insert_reverse ltb) [] l.

(** [l.sort()]: ascending, equal elements keep their order. *)
Fixpoint insert_sorted {A} (ltb : A -> A -> bool) (x : A) (l : list A) : list A :=
  match l with
  | [] => [x]
  | y :: l' => if ltb y x then y :: insert_sorted ltb x l' else x :: l
  end.

Definition sort {A} (ltb : A -> A -> bool) (l : list A) : list A :=
  fold_right (insert_sorted ltb) [] l.

(* ================================================================== *)
(** ** What [utilities.py] imports from outside this file

    [DataFile.MD5.value], the [icp] executable and the common-metadata
    policy of [npg_irods.metadata.common] are parameters.  [icp] maps its
    argument vector and the catalogue to an exit status, the text of its
    standard error and the catalogue it leaves behind. *)

Class Environment := mkEnvironment
  { MD5 : string;
    icp : list string -> catalogue -> Z * string * catalogue;
    requires_creation_metadata : RodsItem -> M bool;
    has_creation_metadata : RodsItem -> M bool;
    requires_type_metadata : RodsItem -> M bool;
    has_type_metadata : RodsItem -> M bool;
    has_common_metadata : RodsItem -> M bool;
    ensure_common_metadata : RodsItem -> option string -> M bool }.

(** [subprocess.run(cmd, capture_output=True)]: exit status and stderr. *)
Definition subprocess_run `{Environment} (cmd : list string) : M (Z * string) :=
  emit (Subprocess cmd) ;;;
  cat <- get_irods ;;
  let '(rc, err, cat') := icp cmd cat in
  put_irods cat' ;;;
  ret (rc, err).

(* ------------------------------------------------------------------ *)
(** *** The checksum and replica predicates of [npg_irods.metadata.common] *)

Definition nonempty_checksum (r : Replica) : bool :=
  match checksum r with
  | Some c => negb (String.eqb c "")
  | None => false
  end.

Definition all_equal (l : list (option string)) : bool :=
  match l with
  | [] => true
  | c :: l' => forallb (opt_eqb c) l'
  end.

Definition valid_replicas (rs : list Replica) : list Replica := filter valid rs.

Definition invalid_replicas (rs : list Replica) : list Replica :=
  filter (fun r => negb (valid r)) rs.

Definition complete_checksums (rs : list Replica) : bool :=
  forallb nonempty_checksum (valid_replicas rs).

Definition matching_checksums (rs : list Replica) : bool :=
  all_equal (map checksum (valid_replicas rs)).

(** The checksum that the valid replicas agree on, if they do and have one. *)
Definition agreed_checksum (rs : list Replica) : option string :=
  match valid_replicas rs with
  | r :: _ =>
      if matching_checksums rs && nonempty_checksum r then checksum r else None
  | [] => None
  end.

Definition checksum_avus (md5 : string) (avus : list AVU) : list AVU :=
  filter (fun a => String.eqb (attribute a) md5) avus.

Definition matching_checksum_metadata (md5 : string)
  (rs : list Replica) (avus : list AVU) : bool :=
  matching_checksums rs &&
  match agreed_checksum rs, checksum_avus md5 avus with
  | Some c, [a] => String.eqb (value a) c
  | _, _ => false
  end.

(** Modelled from the spec: [has_complete_checksums] of
    [npg_irods/metadata/common.py], "true iff every valid replica has a
    non-empty checksum". *)
Definition has_complete_checksums (obj : RodsItem) : M bool :=
  rs <- replicas obj ;; ret (complete_checksums rs).

(** Modelled from the spec: [has_matching_checksums] of
    [npg_irods/metadata/common.py], "true iff all valid replicas' checksums
    are equal (vacuously true for 0 or 1 valid replica)". *)
Definition has_matching_checksums (obj : RodsItem) : M bool :=
  rs <- replicas obj ;; ret (matching_checksums rs).

(** Modelled from the spec: [has_matching_checksum_metadata] of
    [npg_irods/metadata/common.py], "true iff exactly one checksum AVU exists
    and its value equals the replica-agreed checksum (requires
    hasMatchingChecksums first)". *)
Definition has_matching_checksum_metadata `{Environment} (obj : RodsItem) : M bool :=
  rs <- replicas obj ;;
  avus <- metadata obj ;;
  ret (matching_checksum_metadata MD5 rs avus).

(** Modelled from the spec: [has_checksum_metadata] of
    [npg_irods/metadata/common.py], which the spec describes in the same
    sentence as [has_matching_checksum_metadata]. *)
Definition has_checksum_metadata `{Environment} (obj : RodsItem) : M bool :=
  rs <- replicas obj ;;
  avus <- metadata obj ;;
  ret (matching_checksum_metadata MD5 rs avus).

(** Modelled from the spec: [has_complete_replicas] of
    [npg_irods/metadata/common.py], "true iff the number of valid replicas
    equals the expected count n". *)
Definition has_complete_replicas (obj : RodsItem) (num_replicas : nat) : M bool :=
  rs <- replicas obj ;;
  ret (Nat.eqb (List.length (valid_replicas rs)) num_replicas).

(** Modelled from the spec: [trimmable_replicas] of
    [npg_irods/metadata/common.py], "returns the partition
    (valid-excess-to-trim, invalid-to-trim)". *)
Definition trimmable_replicas (obj : RodsItem) (num_replicas : nat)
  : M (list Replica * list Replica) :=
  rs <- replicas obj ;;
  ret (skipn num_replicas (valid_replicas rs), invalid_replicas rs).

Definition nonempty {A} (l : list A) : bool :=
  match l with [] => false | _ :: _ => true end.

(** Modelled from the spec: [has_trimmable_replicas] of
    [npg_irods/metadata/common.py], "true iff there exist invalid replicas
    (always trimmable) or more valid replicas than n (excess trimmable)". *)
Definition has_trimmable_replicas (obj : RodsItem) (num_replicas : nat) : M bool :=
  rs <- replicas obj ;;
  ret (nonempty (invalid_replicas rs)
       || Nat.ltb num_replicas (List.length (valid_replicas rs))).

(** Modelled from the spec: [ensure_matching_checksum_metadata] of
    [npg_irods/metadata/common.py]: nothing to do when the metadata already
    match; otherwise "this requires hasMatchingChecksums (replicas must
    already agree) - if they do, the checksum AVU set is replaced with
    exactly one AVU equal to the agreed value; if replicas disagree, or some
    valid replica lacks a checksum, repair is refused", the refusal being the
    [ChecksumError] that is "raised when a copy or repair operation detects
    inconsistent checksums".  Returns whether a repair was made. *)
Definition ensure_matching_checksum_metadata `{Environment} (obj : RodsItem) : M bool :=
  ok <- has_matching_checksum_metadata obj ;;
  if ok then ret false
  else
    rs <- replicas obj ;;
    if matching_checksums rs && complete_checksums rs then
      match agreed_checksum rs with
      | Some c =>
          supersede_metadata obj [mkAVU MD5 c None] ;;;
          ret true
      | None =>
          raise (ChecksumError "There is no valid replica to take a checksum from" obj
                   NoInfo (ManyChecksums (map checksum rs)))
      end
    else
      raise (ChecksumError "The checksums of the valid replicas do not agree" obj
               NoInfo (ManyChecksums (map checksum rs))).

(* ================================================================== *)
(** ** [shlex.quote] *)

Definition sq : string := "'".
Definition dq : string := String (ascii_of_nat 34) EmptyString.

Definition is_safe_char (c : ascii) : bool :=
  let n := nat_of_ascii c in
  (Nat.leb 48 n && Nat.leb n 57) || (Nat.leb 65 n && Nat.leb n 90)
  || (Nat.leb 97 n && Nat.leb n 122)
  || existsb (Nat.eqb n) [95; 64; 37; 43; 61; 58; 44; 46; 47; 45].

Fixpoint all_safe (s : string) : bool :=
  match s with
  | EmptyString => true
  | String c s' => is_safe_char c && all_safe s'
  end.

Fixpoint escape_quotes (s : string) : string :=
  match s with
  | EmptyString => EmptyString
  | String c s' =>
      if Ascii.eqb c "'"%char
      then (sq ++ dq ++ sq ++ dq ++ sq ++ escape_quotes s')%string
      else String c (escape_quotes s')
  end.

(** [shlex.quote(s)] *)
Definition shlex_quote (s : string) : string :=
  match s with
  | EmptyString => (sq ++ sq)%string
  | _ => if all_safe s then s else (sq ++ escape_quotes s ++ sq)%string
  end.

(* ================================================================== *)
(** ** [utilities.py]

    [num_threads] and [num_clients] size the thread pool and the client
    pool; the embedding runs the items of a reader one after the other and so
    has no use for them. *)

Section Utilities.

Context `{Environment}.

(** [_print(path, writer)] for a writer that takes every line, as [log]
    above is the logger that takes every record.  With them the statements
    that follow an assignment to [success] in a [try] suite cannot raise, and
    neither can an [except] clause; [Fallible] below has [check_checksums]
    and [repair_checksums] for a writer and a logger that may raise. *)
Definition _print (p : string) : M unit := emit (Print [PStr p]).

(** The three [except] clauses of the per-item functions: [RodsError],
    [ChecksumError], then [Exception]. *)
Definition log_exception (with_item : bool) (i : nat) (e : exn) : M unit :=
  let item := if with_item then [("item", FNat i)] else [] in
  match e with
  | RodsError m c => log Error m [("item", FNat i); ("code", FInt c)]
  | ChecksumError m _ ex ob =>
      log Error m [("item", FNat i); ("expected", FInfo ex); ("observed", FInfo ob)]
  | ValueError m => log Error m item
  | RecursionError => log Error "maximum recursion depth exceeded" item
  | OtherException m => log Error m item
  end.

(** [check_replicas], [repair_replicas] and the common-metadata functions
    have no clause for [ChecksumError]: it falls to [except Exception]. *)
Definition log_exception_no_checksum (i : nat) (e : exn) : M unit :=
  match e with
  | RodsError m c => log Error m [("item", FNat i); ("code", FInt c)]
  | ChecksumError m _ _ _ => log Error m [("item", FNat i)]
  | ValueError m => log Error m [("item", FNat i)]
  | RecursionError => log Error "maximum recursion depth exceeded" [("item", FNat i)]
  | OtherException m => log Error m [("item", FNat i)]
  end.

(* ------------------------------------------------------------------ *)
(** *** [check_checksums] *)

(** The [try] suite of [fn]; its value is [success] at the end of it. *)
Definition check_checksums_try (print_pass print_fail : bool) (i : nat) (p : string)
  : M bool :=
  let obj := new_DataObject (parse_path p) in
  ok <- has_matching_checksum_metadata obj ;;
  if ok then
    log Info "Checksums correct" [("item", FNat i); ("path", FItem obj)] ;;;
    when print_pass (_print p) ;;;
    ret true
  else
    avus <- metadata obj ;;
    let checksums :=
      sort String.ltb
           (map value (filter (fun avu => String.eqb (attribute avu) MD5) avus)) in
    c <- get_checksum obj ;;
    log Warn "Checksum metadata do not match"
        [("item", FNat i); ("path", FItem obj);
         ("checksum", FChecksum c); ("metadata", FStrs checksums)] ;;;
    when print_fail (_print p) ;;;
    ret false.

Definition check_checksums_fn (print_pass print_fail : bool) (i : nat) (path : string)
  : M bool :=
  let p := strip path in
  try_except (check_checksums_try print_pass print_fail i p)
    (fun e =>
       log_exception false i e ;;;
       when print_fail (_print p) ;;;
       ret false).

Definition count_true (l : list bool) : nat := count_occ bool_dec l true.

Definition check_checksums (reader : list string) (print_pass print_fail : bool)
  : M (nat * nat * nat) :=
  results <- starmap (check_checksums_fn print_pass print_fail) 0 reader ;;
  let num_succeeded := count_true results in
  ret (List.length results, num_succeeded, List.length results - num_succeeded).

(* ------------------------------------------------------------------ *)
(** *** [repair_checksums] *)

Definition repair_checksums_try (print_repair : bool) (i : nat) (p : string)
  : M (bool * bool) :=
  let obj := new_DataObject (parse_path p) in
  ok <- has_matching_checksum_metadata obj ;;
  if ok then
    log Info "Checksum metadata matches" [("item", FNat i); ("path", FItem obj)] ;;;
    ret (true, false)
  else
    cc <- has_complete_checksums obj ;;
    mc <- has_matching_checksums obj ;;
    cm <- has_checksum_metadata obj ;;
    log Info "Checksum metadata incomplete; repairing"
        [("item", FNat i); ("path", FItem obj);
         ("has_compl_checksums", FBool cc);
         ("has_match_checksums", FBool mc);
         ("has_checksum_meta", FBool cm)] ;;;
    repaired <- ensure_matching_checksum_metadata obj ;;
    if repaired then
      when print_repair (_print p) ;;;
      ret (true, true)
    else ret (false, false).

Definition repair_checksums_fn (print_repair print_fail : bool) (i : nat) (path : string)
  : M (bool * bool) :=
  let p := strip path in
  try_except (repair_checksums_try print_repair i p)
    (fun e =>
       log_exception true i e ;;;
       when print_fail (_print p) ;;;
       ret (false, false)).

(** [results, repaired = zip( *pairs )]: with no pair at all there is nothing
    to unpack into the two names. *)
Definition unzip_results (pairs : list (bool * bool)) : M (list bool * list bool) :=
  match pairs with
  | [] => raise (ValueError "not enough values to unpack (expected 2, got 0)")
  | _ :: _ => ret (map fst pairs, map snd pairs)
  end.

Definition repair_checksums (reader : list string) (print_repair print_fail : bool)
  : M (nat * nat * nat) :=
  pairs <- starmap (repair_checksums_fn print_repair print_fail) 0 reader ;;
  '(results, repaired) <- unzip_results pairs ;;
  let num_succeeded := count_true results in
  ret (List.length results, count_true repaired, List.length results - num_succeeded).

(* ------------------------------------------------------------------ *)
(** *** [check_replicas] *)

Definition check_replicas_try (num_replicas : nat) (print_pass print_fail : bool)
  (i : nat) (p : string) : M bool :=
  let obj := new_DataObject (parse_path p) in
  comp <- has_complete_replicas obj num_replicas ;;
  trim <- has_trimmable_replicas obj num_replicas ;;
  if comp && negb trim then
    log Info "Replicas are complete" [("item", FNat i); ("path", FItem obj)] ;;;
    when print_pass (_print p) ;;;
    ret true
  else
    rs1 <- replicas obj ;;
    let nv := List.length (filter valid rs1) in
    rs2 <- replicas obj ;;
    let ni := List.length (filter (fun r => negb (valid r)) rs2) in
    cc <- has_complete_checksums obj ;;
    mc <- has_matching_checksums obj ;;
    log Warn "Replicas are incomplete"
        [("item", FNat i); ("path", FItem obj);
         ("num_valid", FNat nv); ("num_invalid", FNat ni);
         ("has_compl_replicas", FBool comp);
         ("has_trim_replicates", FBool trim);
         ("has_compl_checksums", FBool cc);
         ("has_match_checksums", FBool mc)] ;;;
    when print_fail (_print p) ;;;
    ret false.

Definition check_replicas_fn (num_replicas : nat) (print_pass print_fail : bool)
  (i : nat) (path : string) : M bool :=
  let p := strip path in
  try_except (check_replicas_try num_replicas print_pass print_fail i p)
    (fun e =>
       log_exception_no_checksum i e ;;;
       when print_fail (_print p) ;;;
       ret false).

Definition check_replicas (reader : list string) (num_replicas : nat)
  (print_pass print_fail : bool) : M (nat * nat * nat) :=
  results <- starmap (check_replicas_fn num_replicas print_pass print_fail) 0 reader ;;
  let num_succeeded := count_true results in
  ret (List.length results, num_succeeded, List.length results - num_succeeded).

(* ------------------------------------------------------------------ *)
(** *** [repair_replicas] *)

(** The handler of [fn], leaving [success] and [repair] as they stand. *)
Definition repair_replicas_except (print_fail : bool) (i : nat) (p : string)
  (success_repair : bool * bool) (e : exn) : M (bool * bool) :=
  log_exception_no_checksum i e ;;;
  when print_fail (_print p) ;;;
  ret success_repair.

(** The [try] suite of [fn].  [obj.trim_replicas] is called without
    [min_replicas], which is then its default, 2.  In the [else] branch
    [success] is set before the arguments of [log.info] are evaluated, so
    an exception there reaches the handler with [success] already true. *)
Definition repair_replicas_try (num_replicas : nat) (print_repair print_fail : bool)
  (i : nat) (p : string) : M (bool * bool) :=
  let obj := new_DataObject (parse_path p) in
  comp <- has_complete_replicas obj num_replicas ;;
  trim <- has_trimmable_replicas obj num_replicas ;;
  if trim then
    ' (valid, invalid) <- trimmable_replicas obj num_replicas ;;
    (if nonempty valid then
       ' (nv, ni) <- trim_replicas obj 2 true false ;;
       log Info "Trimmed valid replicas"
           [("item", FNat i); ("path", FItem obj);
            ("has_compl_replicas", FBool comp); ("num_trimmed", FNat nv)]
     else ret tt) ;;;
    (if nonempty invalid then
       ' (nv, ni) <- trim_replicas obj 2 false true ;;
       log Info "Trimmed invalid replicas"
           [("item", FNat i); ("path", FItem obj);
            ("has_compl_replicas", FBool comp); ("num_trimmed", FNat ni)]
     else ret tt) ;;;
    when print_repair (_print p) ;;;
    ret (true, true)
  else
    try_except
      (cc <- has_complete_checksums obj ;;
       mc <- has_matching_checksums obj ;;
       cm <- has_checksum_metadata obj ;;
       log Info "No replicas to trim"
           [("item", FNat i); ("path", FItem obj);
            ("has_compl_checksums", FBool cc);
            ("has_match_checksums", FBool mc);
            ("has_checksum_meta", FBool cm);
            ("has_compl_replicas", FBool comp);
            ("has_trim_replicas", FBool trim)] ;;;
       ret (true, false))
      (repair_replicas_except print_fail i p (true, false)).

Definition repair_replicas_fn (num_replicas : nat) (print_repair print_fail : bool)
  (i : nat) (path : string) : M (bool * bool) :=
  let p := strip path in
  try_except (repair_replicas_try num_replicas print_repair print_fail i p)
    (repair_replicas_except print_fail i p (false, false)).

Definition repair_replicas (reader : list string) (num_replicas : nat)
  (print_repair print_fail : bool) : M (nat * nat * nat) :=
  pairs <- starmap (repair_replicas_fn num_replicas print_repair print_fail) 0 reader ;;
  ' (results, repaired) <- unzip_results pairs ;;
  let num_succeeded := count_true results in
  ret (List.length results, count_true repaired, List.length results - num_succeeded).

(* ------------------------------------------------------------------ *)
(** *** [check_common_metadata] *)

(** The [try] suite of [fn]: [success = True] is its last statement, after
    the [if]/[else]. *)
Definition check_common_metadata_try (print_pass print_fail : bool) (i : nat) (p : string)
  : M bool :=
  let obj := new_DataObject (parse_path p) in
  ok <- has_common_metadata obj ;;
  (if ok then
     log Info "Common metadata complete" [("item", FNat i); ("path", FItem obj)] ;;;
     when print_pass (_print p)
   else
     req_checksum <- requires_creation_metadata obj ;;
     has_checksum <- has_checksum_metadata obj ;;
     req_creation <- requires_creation_metadata obj ;;
     has_creation <- has_creation_metadata obj ;;
     req_type <- requires_type_metadata obj ;;
     has_type <- has_type_metadata obj ;;
     log Warn "Common metadata incomplete"
         [("item", FNat i); ("path", FItem obj);
          ("req_checksum_meta", FBool req_checksum);
          ("has_checksum_meta", FBool has_checksum);
          ("req_creation_meta", FBool req_creation);
          ("has_creation_meta", FBool has_creation);
          ("req_type_meta", FBool req_type);
          ("has_type_meta", FBool has_type)] ;;;
     when print_fail (_print p)) ;;;
  ret true.

Definition check_common_metadata_fn (print_pass print_fail : bool) (i : nat)
  (path : string) : M bool :=
  let p := strip path in
  try_except (check_common_metadata_try print_pass print_fail i p)
    (fun e =>
       log_exception_no_checksum i e ;;;
       when print_fail (_print p) ;;;
       ret false).

Definition check_common_metadata (reader : list string) (print_pass print_fail : bool)
  : M bool :=
  succeeded <- starmap (check_common_metadata_fn print_pass print_fail) 0 reader ;;
  ret (forallb (fun b => b) succeeded).

(* ------------------------------------------------------------------ *)
(** *** [repair_common_metadata] *)

(** The [try] suite of [fn]: [success = True] is the last statement of the
    suite of [if not has_common_metadata(obj)]. *)
Definition repair_common_metadata_try (creator : option string) (print_repair : bool)
  (i : nat) (p : string) : M bool :=
  let obj := new_DataObject (parse_path p) in
  ok <- has_common_metadata obj ;;
  if negb ok then
    req_checksum <- requires_creation_metadata obj ;;
    has_checksum <- has_checksum_metadata obj ;;
    req_creation <- requires_creation_metadata obj ;;
    has_creation <- has_creation_metadata obj ;;
    req_type <- requires_type_metadata obj ;;
    has_type <- has_type_metadata obj ;;
    log Info "Common metadata incomplete; repairing"
        [("item", FNat i); ("path", FItem obj);
         ("req_checksum", FBool req_checksum);
         ("has_checksum", FBool has_checksum);
         ("req_creation", FBool req_creation);
         ("has_creation", FBool has_creation);
         ("req_type", FBool req_type);
         ("has_type", FBool has_type)] ;;;
    repaired <- ensure_common_metadata obj creator ;;
    when (repaired && print_repair) (_print p) ;;;
    ret true
  else ret false.

Definition repair_common_metadata_fn (creator : option string)
  (print_repair print_fail : bool) (i : nat) (path : string) : M bool :=
  let p := strip path in
  try_except (repair_common_metadata_try creator print_repair i p)
    (fun e =>
       log_exception_no_checksum i e ;;;
       when print_fail (_print p) ;;;
       ret false).

Definition repair_common_metadata (reader : list string) (creator : option string)
  (print_repair print_fail : bool) : M bool :=
  succeeded <- starmap (repair_common_metadata_fn creator print_repair print_fail) 0 reader ;;
  ret (forallb (fun b => b) succeeded).

(* ------------------------------------------------------------------ *)
(** *** [_icp] *)

Definition _icp (src dest : string) (force verify_checksum : bool) : M unit :=
  let cmd :=
    ["icp"] ++ (if force then ["-f"] else [])
            ++ (if verify_checksum then ["-K"] else [])
            ++ [src] ++ [dest] in
  log Debug "Running command" [("cmd", FStrs cmd)] ;;;
  log Info "Copying data object"
      [("src", FStr src); ("dest", FStr dest); ("force", FBool force)] ;;;
  ' (returncode, stderr) <- subprocess_run cmd ;;
  if Z.eqb returncode 0 then ret tt
  else raise (RodsError (strip stderr) 0).

(* ------------------------------------------------------------------ *)
(** *** [copy] *)

Definition nat_str (n : nat) : string := NilEmpty.string_of_uint (Nat.to_uint n).

Definition _cp_avu_acl (acl avu : bool) (s d : RodsItem) : M unit :=
  (if avu then
     avus <- metadata s ;;
     n <- add_metadata d avus ;;
     log Info ("Added " ++ nat_str n ++ " AVUs")%string [("path", FItem d)]
   else ret tt) ;;;
  (if acl then
     acs <- permissions s ;;
     n <- add_permissions d acs ;;
     log Info ("Added " ++ nat_str n ++ " permissions")%string [("path", FItem d)]
   else ret tt).

Definition _maybe_copy_obj (exist_ok : bool) (s d : RodsItem) : M nat :=
  present <- (if exist_ok then exists_ d else ret false) ;;
  if present then
    cs <- get_checksum s ;;
    cd <- get_checksum d ;;
    (if negb (opt_eqb cs cd) then
       observed <- get_checksum d ;;
       expected <- get_checksum s ;;
       raise (ChecksumError
                "A data object with a different checksum exists at the destination"
                d (OneChecksum expected) (OneChecksum observed))
     else ret tt) ;;;
    ms <- has_matching_checksums s ;;
    (if negb ms then
       rs <- replicas s ;;
       raise (ChecksumError
                "The source data object does not have matching checksums"
                s NoInfo (ManyChecksums (map checksum rs)))
     else ret tt) ;;;
    md <- has_matching_checksums d ;;
    (if negb md then
       rs <- replicas d ;;
       raise (ChecksumError
                "The destination data object does not have matching checksums"
                d NoInfo (ManyChecksums (map checksum rs)))
     else ret tt) ;;;
    c <- get_checksum d ;;
    log Info "Skipping copy of data object, destination object exists"
        [("src", FItem s); ("dest", FItem d); ("checksum", FChecksum c)] ;;;
    ret 0
  else
    log Info "Copying data object" [("src", FItem s); ("dest", FItem d)] ;;;
    _icp (item_str s) (item_str d) false true ;;;
    ret 1.

(** [coll] is the variable of the enclosing [copy] that the body of
    [_maybe_copy_coll] refers to; at its one call site it is [d]. *)
Definition _maybe_copy_coll (exist_ok : bool) (coll s d : RodsItem) : M nat :=
  present <- (if exist_ok then exists_ d else ret false) ;;
  if present then
    log Info "Skipping copy of collection, destination collection exists"
        [("src", FItem s); ("dest", FItem d)] ;;;
    ret 0
  else
    log Info "Copying collection" [("src", FItem s); ("dest", FItem d)] ;;;
    create coll exist_ok ;;;
    ret 1.

(** [item.name] *)
Definition item_name (it : RodsItem) : string :=
  match it with
  | DataObject _ n => n
  | Collection p => path_name p
  end.

Definition type_str (t : option rods_type) : string :=
  match t with
  | Some TCollection => "<class 'partisan.irods.Collection'>"
  | Some TDataObject => "<class 'partisan.irods.DataObject'>"
  | None => "None"
  end.

Definition resolve (x : PurePath + RodsItem) : M RodsItem :=
  match x with
  | inl p => make_rods_item p
  | inr it => ret it
  end.

(** The [for item in src.contents()] loop of [copy], [rec] being the
    recursive call. *)
Fixpoint copy_contents (rec : RodsItem -> M (nat * nat)) (items : list RodsItem)
  (num_processed num_copied : nat) : M (nat * nat) :=
  match items with
  | [] => ret (num_processed, num_copied)
  | item :: rest =>
      ' (np, nc) <- rec item ;;
      copy_contents rec rest (num_processed + np) (num_copied + nc)
  end.

(** [copy]; [depth] is the number of nested calls that the interpreter still
    allows, beyond which it raises [RecursionError]. *)
Fixpoint copy (depth : nat) (src dest : PurePath + RodsItem)
  (acl avu exist_ok recurse : bool) : M (nat * nat) :=
  match depth with
  | O => raise RecursionError
  | S depth' =>
      src <- resolve src ;;
      dest <- resolve dest ;;
      st <- get_rods_type src ;;
      dt <- get_rods_type dest ;;
      match st, dt with
      | Some TCollection, Some TDataObject =>
          raise (ValueError ("Cannot copy a collection " ++ item_str src
                             ++ " into a data object " ++ item_str dest)%string)
      | Some TCollection, _ =>
          let coll := Collection (path_join (dot_path dest) (path_name (dot_path src))) in
          nc <- _maybe_copy_coll exist_ok coll src coll ;;
          _cp_avu_acl acl avu src coll ;;;
          if recurse then
            items <- contents src ;;
            copy_contents
              (fun item =>
                 copy depth' (inr item) (inr (Collection (dot_path coll)))
                      acl avu exist_ok true)
              items 1 nc
          else ret (1, nc)
      | Some TDataObject, Some TCollection =>
          let obj := new_DataObject (path_join (dot_path dest) (item_name src)) in
          nc <- _maybe_copy_obj exist_ok src obj ;;
          _cp_avu_acl acl avu src obj ;;;
          ret (1, nc)
      | Some TDataObject, _ =>
          nc <- _maybe_copy_obj exist_ok src dest ;;
          _cp_avu_acl acl avu src dest ;;;
          ret (1, nc)
      | None, _ =>
          st' <- get_rods_type src ;;
          dt' <- get_rods_type dest ;;
          raise (ValueError ("Invalid iRODS path type combination src: "
                             ++ item_str src ++ ": src type: " ++ type_str st'
                             ++ ", dest: " ++ item_str dest
                             ++ ", dest type: " ++ type_str dt')%string)
      end
  end.

(* ------------------------------------------------------------------ *)
(** *** [write_safe_remove_commands] *)

Definition _log_print (cmd : string) (path : RodsItem) : M unit :=
  let quoted_path := shlex_quote (item_str path) in
  log Info (cmd ++ " " ++ quoted_path)%string [] ;;;
  emit (Print [PStr cmd; PQuoted path]).

(** The [for item in target.iter_contents(recurse=True)] loop; its value is
    the list [collections] at the end. *)
Fixpoint remove_contents (items : list RodsItem) (collections : list RodsItem)
  : M (list RodsItem) :=
  match items with
  | [] => ret collections
  | item :: rest =>
      if is_DataObject item then
        _log_print "irm" item ;;; remove_contents rest collections
      else remove_contents rest (collections ++ [item])
  end.

Definition write_safe_remove_commands (target : PurePath + RodsItem) : M unit :=
  target <- resolve target ;;
  if is_DataObject target then _log_print "irm" target
  else
    items <- iter_contents target true ;;
    collections <- remove_contents items [] ;;
    for_each (sort_reverse item_ltb collections) (_log_print "irmdir") ;;;
    _log_print "irmdir" target.

End Utilities.

(* ------------------------------------------------------------------ *)
(** *** What the writer holds *)

Definition print_arg_str (a : print_arg) : string :=
  match a with
  | PStr s => s
  | PQuoted it => shlex_quote (item_str it)
  end.

Fixpoint join_space (l : list string) : string :=
  match l with
  | [] => ""
  | [w] => w
  | w :: l' => (w ++ " " ++ join_space l')%string
  end.

(** The arguments of each [print] to the writer, in order. *)
Fixpoint printed (t : list event) : list (list print_arg) :=
  match t with
  | [] => []
  | Print args :: t' => args :: printed t'
  | _ :: t' => printed t'
  end.

(** The lines of text in the writer. *)
Definition written (t : list event) : list string :=
  map (fun args => join_space (map print_arg_str args)) (printed t).

(** The calls made to the client, in order. *)
Fixpoint api_calls (t : list event) : list (RodsItem * api) :=
  match t with
  | [] => []
  | Api it op :: t' => (it, op) :: api_calls t'
  | _ :: t' => api_calls t'
  end.

(** The external commands run, in order. *)
Fixpoint commands_run (t : list event) : list (list string) :=
  match t with
  | [] => []
  | Subprocess cmd :: t' => cmd :: commands_run t'
  | _ :: t' => commands_run t'
  end.

(* ================================================================== *)
(** ** A reference environment

    One instance of [Environment], on which the definitions above can be
    run: the checksum attribute is [md5]; [icp] refuses to overwrite without
    [-f]; every data object requires checksum, creation and type metadata. *)

Definition reference_icp (cmd : list string) (cat : catalogue) : Z * string * catalogue :=
  let force := existsb (String.eqb "-f") cmd in
  match rev cmd with
  | dest :: src :: _ =>
      match lookup (parse_path src) cat with
      | Some (EObject o) =>
          match lookup (parse_path dest) cat with
          | Some _ =>
              if force
              then (0%Z, "",
                    replace_entry (parse_path dest)
                      (EObject (mkObject (obj_checksum o)
                                  [mkReplica "resc0" 0 0 (obj_checksum o) true]
                                  [] []))
                      cat)
              else (3%Z, ("remote addresses: 127.0.0.1 ERROR: icp: "
                          ++ dest ++ " OVERWRITE_WITHOUT_FORCE_FLAG ")%string, cat)
          | None =>
              (0%Z, "",
               cat ++ [(parse_path dest,
                        EObject (mkObject (obj_checksum o)
                                   [mkReplica "resc0" 0 0 (obj_checksum o) true]
                                   [] []))])
          end
      | _ => (3%Z, ("ERROR: icp: " ++ src ++ " does not exist ")%string, cat)
      end
  | _ => (1%Z, "Usage: icp [-fK] srcDataObj destDataObj", cat)
  end.

Definition has_attribute (a : string) (obj : RodsItem) : M bool :=
  avus <- metadata obj ;;
  ret (existsb (fun x => String.eqb (attribute x) a) avus).

(** Modelled from the spec: [has_common_metadata] of
    [npg_irods/metadata/common.py], the "conjunction of checksum-, creation-,
    and type-metadata presence checks", under the policy that requires all
    three of every data object. *)
Definition reference_has_common_metadata (obj : RodsItem) : M bool :=
  rs <- replicas obj ;;
  avus <- metadata obj ;;
  has_creation <- has_attribute "dcterms:created" obj ;;
  has_type <- has_attribute "type" obj ;;
  ret (matching_checksum_metadata "md5" rs avus && has_creation && has_type).

Fixpoint extension (s : string) : string :=
  match s with
  | EmptyString => EmptyString
  | String c s' =>
      if existsb (Ascii.eqb "."%char) (list_ascii_of_string s') then extension s'
      else if Ascii.eqb c "."%char then s' else EmptyString
  end.

Definition earliest_created (rs : list Replica) : nat :=
  match valid_replicas rs with
  | [] => 0
  | r :: rs' => fold_right (fun x m => Nat.min (created x) m) (created r) rs'
  end.

(** Modelled from the spec: [ensure_common_metadata] of
    [npg_irods/metadata/common.py]: the creator defaults to a placeholder,
    "creation-time metadata is derived from the storage system's own record
    of an Object's earliest valid replica creation time; type metadata is
    derived from the item's path"; the result tells whether anything was
    written. *)
Definition reference_ensure_common_metadata (obj : RodsItem) (creator : option string)
  : M bool :=
  rs <- replicas obj ;;
  avus <- metadata obj ;;
  let lacks a := negb (existsb (fun x => String.eqb (attribute x) a) avus) in
  let who := match creator with Some c => c | None => "unknown" end in
  let wanted :=
    (match agreed_checksum rs with
     | Some c => if lacks "md5" then [mkAVU "md5" c None] else []
     | None => []
     end)
    ++ (if lacks "dcterms:created"
        then [mkAVU "dcterms:created" (nat_str (earliest_created rs)) None] else [])
    ++ (if lacks "dcterms:creator" then [mkAVU "dcterms:creator" who None] else [])
    ++ (if lacks "type" then [mkAVU "type" (extension (item_name obj)) None] else []) in
  n <- add_metadata obj wanted ;;
  ret (Nat.ltb 0 n).

Definition reference : Environment :=
  {| MD5 := "md5";
     icp := reference_icp;
     requires_creation_metadata := fun _ => ret true;
     has_creation_metadata := has_attribute "dcterms:created";
     requires_type_metadata := fun _ => ret true;
     has_type_metadata := has_attribute "type";
     has_common_metadata := reference_has_common_metadata;
     ensure_common_metadata := reference_ensure_common_metadata |}.

(* ------------------------------------------------------------------ *)
(** *** Sample zones *)

Definition rep (n : nat) (c : string) (v : bool) : Replica :=
  mkReplica ("resc" ++ nat_str n)%string n 17 (Some c) v.

Definition good_object (c : string) : entry :=
  EObject (mkObject (Some c) [rep 0 c true; rep 1 c true]
             [mkAVU "md5" c None; mkAVU "dcterms:created" "17" None;
              mkAVU "dcterms:creator" "npg" None; mkAVU "type" "cram" None]
             [mkAC "npg" "seq" "own"]).

Definition empty_coll : entry := ECollection (mkColl [] []).

Definition start (cat : catalogue) : world := mkWorld cat [] [].

(** [root/ { a (object), b/ { c (object) } }] *)
Definition tree_zone : catalogue :=
  [ (["/"], empty_coll);
    (["/"; "root"], empty_coll);
    (["/"; "root"; "b"], empty_coll);
    (["/"; "root"; "a"], good_object "aaa");
    (["/"; "root"; "b"; "c"], good_object "ccc") ].

(* ================================================================== *)
(** ** Vocabulary of the statements *)

(** [w] with the events [es] appended to its trace. *)
Definition add_events (es : list event) (w : world) : world :=
  mkWorld (irods w) (faults w) (trace w ++ es).

(** The writer line that removes one item. *)
Definition irm (it : RodsItem) : list print_arg := [PStr "irm"; PQuoted it].
Definition irmdir (it : RodsItem) : list print_arg := [PStr "irmdir"; PQuoted it].

(** The removal command due for the catalogue entry at [p]. *)
Definition removal_of (pe : PurePath * entry) : list print_arg :=
  match snd pe with
  | EObject _ => irm (new_DataObject (fst pe))
  | ECollection _ => irmdir (Collection (fst pe))
  end.

(** What the client learns when it asks for the item [it]: its entry, or
    the exception that the request ends in. *)
Definition entry_view (it : RodsItem) (w : world) : result entry :=
  match fault_at (item_path it) (faults w) with
  | Some f => Raise (exn_of_fault f)
  | None =>
      match lookup (item_path it) (irods w) with
      | Some e => Ok e
      | None => Raise (no_such_path it)
      end
  end.

Definition object_view (it : RodsItem) (w : world) : result object_state :=
  match entry_view it w with
  | Ok (EObject o) => Ok o
  | Ok (ECollection _) =>
      Raise (RodsError ("Not a data object: " ++ item_str it)%string CAT_NOT_A_DATAOBJ)
  | Raise e => Raise e
  end.

Definition result_map {A B} (f : A -> B) (r : result A) : result B :=
  match r with
  | Ok a => Ok (f a)
  | Raise e => Raise e
  end.

(** A computation ran to its end without raising. *)
Definition is_ok {A} (r : result A) : bool :=
  match r with Ok _ => true | Raise _ => false end.

(** The handle that the per-item functions make of a line of the reader. *)
Definition object_of_line (line : string) : RodsItem :=
  new_DataObject (parse_path (strip line)).

(** The calls that change something on the server. *)
Definition is_mutation (c : RodsItem * api) : bool :=
  match snd c with
  | ApiAddMetadata _ | ApiSupersedeMetadata _ | ApiAddPermissions _
  | ApiTrimReplicas _ _ _ | ApiCreate _ => true
  | _ => false
  end.

(** No element is smaller than one that follows it. *)
Definition descending {A} (ltb : A -> A -> bool) : list A -> Prop :=
  StronglySorted (fun a b => ltb a b = false).

(** The two events of one [_log_print]. *)
Definition command_events (cmd : string) (it : RodsItem) : list event :=
  [Log Info (cmd ++ " " ++ shlex_quote (item_str it))%string [];
   Print [PStr cmd; PQuoted it]].

(** The items that [iter_contents(recurse=True)] yields below [root]. *)
Definition items_beneath (root : PurePath) (cat : catalogue) : list RodsItem :=
  map item_of_entry (filter (fun pe => is_beneath root (fst pe)) cat).

Definition objects_beneath (root : PurePath) (cat : catalogue) : list RodsItem :=
  filter is_DataObject (items_beneath root cat).

Definition collections_beneath (root : PurePath) (cat : catalogue) : list RodsItem :=
  filter (fun it => negb (is_DataObject it)) (items_beneath root cat).

(** The commands written for the contents of [root], before its own. *)
Definition contents_plan (root : PurePath) (cat : catalogue) : list (list print_arg) :=
  map irm (objects_beneath root cat)
  ++ map irmdir (sort_reverse item_ltb (collections_beneath root cat)).

(** The predicate [m] holds in [w]: it returns [True] without raising. *)
Definition holds (m : M bool) (w : world) : bool :=
  match fst (m w) with
  | Ok true => true
  | _ => false
  end.

(** [w] with the entry at [p] replaced by [e]. *)
Definition put_entry (p : PurePath) (e : entry) (w : world) : world :=
  mkWorld (replace_entry p e (irods w)) (faults w) (trace w).

(** No call in the events [es] changes anything on the server. *)
Definition read_only (es : list event) : Prop :=
  Forall (fun c => is_mutation c = false) (api_calls es).

(** What [repair_checksums.fn] returns for a data object in the state [o]:
    the pair [(success, repair)]. *)
Definition repair_checksums_verdict (md5 : string) (o : object_state) : bool * bool :=
  let rs := obj_replicas o in
  if matching_checksum_metadata md5 rs (obj_metadata o) then (true, false)
  else if matching_checksums rs && complete_checksums rs then
    match agreed_checksum rs with
    | Some _ => (true, true)
    | None => (false, false)
    end
  else (false, false).

(** A zone of data objects in the states the reconcilers meet. *)
Definition object_with (rs : list Replica) (avus : list AVU) : entry :=
  EObject (mkObject (match rs with r :: _ => checksum r | [] => None end)
             rs avus [mkAC "npg" "seq" "own"]).

Definition common_avus : list AVU :=
  [mkAVU "dcterms:created" "17" None; mkAVU "dcterms:creator" "npg" None;
   mkAVU "type" "cram" None].

Definition repair_zone : catalogue :=
  [ (["/"], empty_coll);
    (["/"; "zone"], empty_coll);
    (["/"; "zone"; "good"], good_object "abc");
    (["/"; "zone"; "no_avu"],
       object_with [rep 0 "abc" true; rep 1 "abc" true] common_avus);
    (["/"; "zone"; "diverged"],
       object_with [rep 0 "abc" true; rep 1 "xyz" true]
                   (mkAVU "md5" "abc" None :: common_avus));
    (["/"; "zone"; "unchecked"],
       object_with [rep 0 "abc" true; mkReplica "resc1" 1 17 None true]
                   (mkAVU "md5" "abc" None :: common_avus));
    (["/"; "zone"; "spare"],
       object_with [rep 0 "abc" true; rep 1 "abc" false; rep 2 "abc" true;
                    rep 3 "abc" true]
                   (mkAVU "md5" "abc" None :: common_avus));
    (["/"; "zone"; "untyped"],
       object_with [rep 0 "abc" true; rep 1 "abc" true]
                   [mkAVU "md5" "abc" None; mkAVU "dcterms:created" "17" None;
                    mkAVU "dcterms:creator" "npg" None]) ].

(** [/zone/two] has two valid replicas and [/zone/four] has four. *)
Definition replica_zone : catalogue :=
  [ (["/"], empty_coll);
    (["/"; "zone"], empty_coll);
    (["/"; "zone"; "two"],
       object_with [rep 0 "abc" true; rep 1 "abc" true]
                   (mkAVU "md5" "abc" None :: common_avus));
    (["/"; "zone"; "four"],
       object_with [rep 0 "abc" true; rep 1 "abc" true; rep 2 "abc" true;
                    rep 3 "abc" true]
                   (mkAVU "md5" "abc" None :: common_avus)) ].

(** The state of a data object after [trim_replicas]. *)
Definition trimmed (min_replicas : nat) (trim_valid trim_invalid : bool)
  (o : object_state) : object_state :=
  mkObject (obj_checksum o)
    (trim_list min_replicas trim_valid trim_invalid (obj_replicas o))
    (obj_metadata o) (obj_permissions o).

(** The data object that [copy] writes to when the source is a data object:
    the destination itself, or the object of the source's name inside it
    when the destination is a collection. *)
Definition copy_target (s d : RodsItem) (dest_type : option rods_type) : RodsItem :=
  match dest_type with
  | Some TCollection => new_DataObject (path_join (dot_path d) (item_name s))
  | _ => d
  end.

(** The argument vector of [_icp(src, dest, force=False, verify_checksum=True)]. *)
Definition icp_command (s d : RodsItem) : list string :=
  ["icp"; "-K"; item_str s; item_str d].

Definition is_checksum_error {A} (r : result A) : bool :=
  match r with
  | Raise (ChecksumError _ _ _ _) => true
  | _ => false
  end.

(** [w] with the catalogue [cat]. *)
Definition set_irods (cat : catalogue) (w : world) : world :=
  mkWorld cat (faults w) (trace w).

(** [tree_zone] after [/root/a] has been copied to [/root/d]. *)
Definition after_first_copy : world :=
  snd (@copy reference 1 (inl ["/"; "root"; "a"]) (inr (DataObject ["/"; "root"] "d"))
         false false true false (start tree_zone)).

(** The command that [write_safe_remove_commands] writes for an item of the
    listing. *)
Definition command_of (it : RodsItem) : list print_arg :=
  if is_DataObject it then irm it else irmdir it.

(* ------------------------------------------------------------------ *)
(** *** [write_safe_remove_script] *)

(** What [write_safe_remove_script] leaves at [path]: the lines printed to
    the file, which [open(path, "w")] starts empty, and the mode that
    [os.chmod] gave it, if [os.chmod] was reached. *)
Record script_file := mkScript
  { script_lines : list (list print_arg);
    script_mode : option nat }.

(** The suite of the [with] statement up to [os.chmod]; [version] stands for
    the value of [npg_irods.version.version()], and the file is the writer. *)
Definition write_safe_remove_script_body (version : string)
  (root : PurePath + RodsItem) (stop_on_error verbose : bool) : M unit :=
  emit (Print [PStr "#!/bin/bash"]) ;;;
  emit (Print [PStr ("# Generated by npg-irods " ++ version)%string]) ;;;
  when stop_on_error (emit (Print [PStr "set -e"])) ;;;
  when verbose (emit (Print [PStr "set -x"])) ;;;
  write_safe_remove_commands root.

(** [0o755] *)
Definition mode_755 : nat := 7 * 64 + 5 * 8 + 5.

Definition write_safe_remove_script (version : string)
  (root : PurePath + RodsItem) (stop_on_error verbose : bool) (w : world)
  : result unit * world * script_file :=
  let '(r, w') := write_safe_remove_script_body version root stop_on_error verbose w in
  (r, w',
   mkScript (skipn (List.length (printed (trace w))) (printed (trace w')))
            (match r with Ok _ => Some mode_755 | Raise _ => None end)).

(** The lines that head the script. *)
Definition script_header (version : string) (stop_on_error verbose : bool)
  : list (list print_arg) :=
  [[PStr "#!/bin/bash"]; [PStr ("# Generated by npg-irods " ++ version)%string]]
  ++ (if stop_on_error then [[PStr "set -e"]] else [])
  ++ (if verbose then [[PStr "set -x"]] else []).

(** The collection that [copy] makes or finds for a source collection [s]
    under the destination [d]. *)
Definition copy_collection_target (s d : RodsItem) : RodsItem :=
  Collection (path_join (dot_path d) (path_name (dot_path s))).

(** Every value that [m] returns satisfies [P]. *)
Definition returns {A} (P : A -> Prop) (m : M A) : Prop :=
  forall w a w', m w = (Ok a, w') -> P a.

(** A pair [(success, repair)] in which a repair comes with a success. *)
Definition repair_is_success (r : bool * bool) : Prop :=
  snd r = true -> fst r = true.

(* ================================================================== *)
(** ** A writer and a log that may raise

    Above, [_print] and [log] append to the trace and return: the writer
    takes every line and the logger every record.  The source hands a line
    to the [writer] it was given and a record to the [structlog] logger, and
    either may raise: a closed file raises [ValueError] at every line.  The
    statements of a [try] suite that follow an assignment to [success], and
    the [except] clauses themselves, are where that shows. *)

(** What the two sinks do with what they are given: [None] when they take
    it, the exception that they raise otherwise. *)
Record Sinks := mkSinks
  { writer_raises : string -> option exn;
    log_raises : log_level -> string -> list (string * log_field) -> option exn }.

(** An open file and a working logger. *)
Definition console : Sinks := mkSinks (fun _ => None) (fun _ _ _ => None).

(** A writer that was closed before the run. *)
Definition closed_writer : Sinks :=
  mkSinks (fun _ => Some (ValueError "I/O operation on closed file."))
          (fun _ _ _ => None).

Definition takes_everything (out : Sinks) : Prop :=
  (forall p, writer_raises out p = None)
  /\ (forall lv msg fields, log_raises out lv msg fields = None).

(** A [try] suite that assigns to local variables: it is left with the
    values that the variables have then and, when an exception ended it,
    with that exception. *)
Definition Suite (V : Type) := world -> (V * option exn) * world.

(** The end of the suite, the variables being [v]. *)
Definition leave {V} (v : V) : Suite V := fun w => ((v, None), w).

(** The statements [m], run while the variables are [v], then the rest [k]
    of the suite; an exception raised by [m] ends the suite there. *)
Definition stmt {V A} (v : V) (m : M A) (k : A -> Suite V) : Suite V :=
  fun w =>
    match m w with
    | (Ok a, w') => k a w'
    | (Raise e, w') => ((v, Some e), w')
    end.

(** [try: suite  except Exception as e: handler]  then [return] of the
    variables.  What the handler raises is not caught. *)
Definition try_suite {V} (suite : Suite V) (handler : exn -> M unit) : M V :=
  fun w =>
    match suite w with
    | ((v, None), w') => (Ok v, w')
    | ((v, Some e), w') => (handler e ;;; ret v) w'
    end.

Module Fallible.
Section Checksums.

Context `{Environment}.
Variable out : Sinks.

(** [_print(path, writer)] *)
Definition _print (p : string) : M unit :=
  match writer_raises out p with
  | None => emit (Print [PStr p])
  | Some e => raise e
  end.

Definition log (lv : log_level) (msg : string) (fields : list (string * log_field))
  : M unit :=
  match log_raises out lv msg fields with
  | None => emit (Log lv msg fields)
  | Some e => raise e
  end.

(** The [log.error] call of the three [except] clauses: [RodsError],
    [ChecksumError], then [Exception]. *)
Definition log_exception (with_item : bool) (i : nat) (e : exn) : M unit :=
  let item := if with_item then [("item", FNat i)] else [] in
  match e with
  | RodsError m c => log Error m [("item", FNat i); ("code", FInt c)]
  | ChecksumError m _ ex ob =>
      log Error m [("item", FNat i); ("expected", FInfo ex); ("observed", FInfo ob)]
  | ValueError m => log Error m item
  | RecursionError => log Error "maximum recursion depth exceeded" item
  | OtherException m => log Error m item
  end.

(* ------------------------------------------------------------------ *)
(** *** [check_checksums] *)

(** The [try] suite of [fn]; its variable is [success], False when the suite
    is entered and set to True before the pass is logged and printed. *)
Definition check_checksums_try (print_pass print_fail : bool) (i : nat) (p : string)
  : Suite bool :=
  let obj := new_DataObject (parse_path p) in
  stmt false (has_matching_checksum_metadata obj) (fun ok =>
  if ok then
    stmt true
      (log Info "Checksums correct" [("item", FNat i); ("path", FItem obj)] ;;;
       when print_pass (_print p))
      (fun _ => leave true)
  else
    stmt false
      (avus <- metadata obj ;;
       let checksums :=
         sort String.ltb
              (map value (filter (fun avu => String.eqb (attribute avu) MD5) avus)) in
       c <- get_checksum obj ;;
       log Warn "Checksum metadata do not match"
           [("item", FNat i); ("path", FItem obj);
            ("checksum", FChecksum c); ("metadata", FStrs checksums)] ;;;
       when print_fail (_print p))
      (fun _ => leave false)).

(** Each [except] clause of [fn]: the exception is logged and the path is
    printed if [print_fail] is set. *)
Definition check_checksums_except (print_fail : bool) (i : nat) (p : string) (e : exn)
  : M unit :=
  log_exception false i e ;;;
  when print_fail (_print p).

Definition check_checksums_fn (print_pass print_fail : bool) (i : nat) (path : string)
  : M bool :=
  let p := strip path in
  try_suite (check_checksums_try print_pass print_fail i p)
            (check_checksums_except print_fail i p).

Definition check_checksums (reader : list string) (print_pass print_fail : bool)
  : M (nat * nat * nat) :=
  results <- starmap (check_checksums_fn print_pass print_fail) 0 reader ;;
  let num_succeeded := count_true results in
  ret (List.length results, num_succeeded, List.length results - num_succeeded).

(* ------------------------------------------------------------------ *)
(** *** [repair_checksums] *)

(** The [try] suite of [fn]; its variables are [(success, repair)]. *)
Definition repair_checksums_try (print_repair : bool) (i : nat) (p : string)
  : Suite (bool * bool) :=
  let obj := new_DataObject (parse_path p) in
  stmt (false, false) (has_matching_checksum_metadata obj) (fun ok =>
  if ok then
    stmt (true, false)
      (log Info "Checksum metadata matches" [("item", FNat i); ("path", FItem obj)])
      (fun _ => leave (true, false))
  else
    stmt (false, false)
      (cc <- has_complete_checksums obj ;;
       mc <- has_matching_checksums obj ;;
       cm <- has_checksum_metadata obj ;;
       log Info "Checksum metadata incomplete; repairing"
           [("item", FNat i); ("path", FItem obj);
            ("has_compl_checksums", FBool cc);
            ("has_match_checksums", FBool mc);
            ("has_checksum_meta", FBool cm)] ;;;
       ensure_matching_checksum_metadata obj)
      (fun repaired =>
         if repaired then
           stmt (true, true) (when print_repair (_print p))
                (fun _ => leave (true, true))
         else leave (false, false))).

Definition repair_checksums_except (print_fail : bool) (i : nat) (p : string) (e : exn)
  : M unit :=
  log_exception true i e ;;;
  when print_fail (_print p).

Definition repair_checksums_fn (print_repair print_fail : bool) (i : nat) (path : string)
  : M (bool * bool) :=
  let p := strip path in
  try_suite (repair_checksums_try print_repair i p)
            (repair_checksums_except print_fail i p).

Definition repair_checksums (reader : list string) (print_repair print_fail : bool)
  : M (nat * nat * nat) :=
  pairs <- starmap (repair_checksums_fn print_repair print_fail) 0 reader ;;
  ' (results, repaired) <- unzip_results pairs ;;
  let num_succeeded := count_true results in
  ret (List.length results, count_true repaired, List.length results - num_succeeded).

End Checksums.
End Fallible.


(* ================================================================== *)
(** * Properties *)

(* ================================================================== *)
(** ** Order of paths *)

Lemma string_compare_refl (s : string) : String.compare s s = Eq.
Proof.
  induction s as [|a s IH]; simpl; trivial.
  unfold Ascii.compare. now rewrite N.compare_refl.
Qed.

Lemma ascii_compare_trans (a b c : ascii) :
  Ascii.compare a b = Lt -> Ascii.compare b c = Lt -> Ascii.compare a c = Lt.
Proof.
  unfold Ascii.compare. rewrite !N.compare_lt_iff. lia.
Qed.

Lemma ascii_compare_eq_l (a b c : ascii) :
  Ascii.compare a b = Eq -> Ascii.compare a c = Ascii.compare b c.
Proof.
  intros E. apply Ascii.compare_eq_iff in E. now subst.
Qed.

Lemma string_compare_trans (a b c : string) :
  String.compare a b = Lt -> String.compare b c = Lt -> String.compare a c = Lt.
Proof.
  revert b c. induction a as [|x a IH]; intros [|y b] [|z c]; simpl; try congruence.
  destruct (Ascii.compare x y) eqn:Exy; try discriminate.
  - rewrite (ascii_compare_eq_l x y z Exy).
    destruct (Ascii.compare y z); try congruence. apply IH.
  - intros _. destruct (Ascii.compare y z) eqn:Eyz; try discriminate.
    + apply Ascii.compare_eq_iff in Eyz. subst. now rewrite Exy.
    + intros _. now rewrite (ascii_compare_trans _ _ _ Exy Eyz).
Qed.

Lemma string_compare_gt_lt (a b : string) :
  String.compare a b = Gt <-> String.compare b a = Lt.
Proof.
  rewrite (String.compare_antisym b a).
  destruct (String.compare a b); simpl; split; congruence.
Qed.

Lemma path_ltb_irrefl (p : PurePath) : path_ltb p p = false.
Proof.
  induction p as [|a p IH]; simpl; trivial. now rewrite string_compare_refl.
Qed.

Lemma path_ltb_asym (p q : PurePath) : path_ltb p q = true -> path_ltb q p = false.
Proof.
  revert q. induction p as [|a p IH]; intros [|b q]; simpl; try congruence.
  rewrite (String.compare_antisym b a).
  destruct (String.compare a b); simpl; try congruence. apply IH.
Qed.

(** [>=] on paths is transitive. *)
Lemma path_ltb_negtrans (p q r : PurePath) :
  path_ltb p q = false -> path_ltb q r = false -> path_ltb p r = false.
Proof.
  revert q r. induction p as [|a p IH]; intros [|b q] [|c r]; simpl; try congruence.
  destruct (String.compare a b) eqn:Eab; try discriminate.
  - apply String.compare_eq_iff in Eab. subst b.
    destruct (String.compare a c); try congruence. apply IH.
  - intros _. destruct (String.compare b c) eqn:Ebc; try discriminate.
    + apply String.compare_eq_iff in Ebc. subst c. now rewrite Eab.
    + intros _. apply string_compare_gt_lt in Eab, Ebc.
      pose proof (string_compare_trans _ _ _ Ebc Eab) as E.
      apply string_compare_gt_lt in E. now rewrite E.
Qed.

Lemma is_beneath_ltb (anc p : PurePath) : is_beneath anc p = true -> path_ltb anc p = true.
Proof.
  revert p. induction anc as [|a anc IH]; intros [|b p]; simpl; try congruence.
  intros E. apply andb_prop in E as [E1 E2]. apply String.eqb_eq in E1. subst.
  rewrite string_compare_refl. now apply IH.
Qed.

Lemma is_beneath_irrefl (p : PurePath) : is_beneath p p = false.
Proof.
  destruct (is_beneath p p) eqn:E; trivial.
  apply is_beneath_ltb in E. now rewrite path_ltb_irrefl in E.
Qed.

Lemma is_beneath_trans (p q r : PurePath) :
  is_beneath p q = true -> is_beneath q r = true -> is_beneath p r = true.
Proof.
  revert q r. induction p as [|a p IH]; intros [|b q] [|c r]; simpl; try congruence.
  intros E1 E2. apply andb_prop in E1 as [E1 E1'], E2 as [E2 E2'].
  apply String.eqb_eq in E1, E2. subst. rewrite String.eqb_refl. simpl. eauto.
Qed.

Lemma path_eqb_eq (p q : PurePath) : path_eqb p q = true <-> p = q.
Proof.
  revert q. induction p as [|a p IH]; intros [|b q]; simpl; split; try congruence.
  - intros E. apply andb_prop in E as [E1 E2]. apply String.eqb_eq in E1.
    apply IH in E2. congruence.
  - intros E. injection E as -> ->. rewrite String.eqb_refl. now apply IH.
Qed.

(* ================================================================== *)
(** ** [list.sort(reverse=True)] *)

Section SortReverse.

Variable A : Type.
Variable ltb : A -> A -> bool.
Hypothesis ltb_asym : forall a b, ltb a b = true -> ltb b a = false.
Hypothesis ltb_negtrans :
  forall a b c, ltb a b = false -> ltb b c = false -> ltb a c = false.

Lemma insert_reverse_In (x y : A) (l : list A) :
  In y (insert_reverse ltb x l) <-> y = x \/ In y l.
Proof.
  induction l as [|z l IH]; simpl.
  - intuition.
  - destruct (ltb x z); simpl; rewrite ?IH; intuition.
Qed.

Lemma sort_reverse_In (y : A) (l : list A) : In y (sort_reverse ltb l) <-> In y l.
Proof.
  induction l as [|x l IH]; simpl; [tauto|].
  rewrite insert_reverse_In, IH. intuition.
Qed.

Lemma insert_reverse_descending (x : A) (l : list A) :
  descending ltb l -> descending ltb (insert_reverse ltb x l).
Proof.
  induction 1 as [|z l Hl IH Hz]; simpl.
  - repeat constructor.
  - destruct (ltb x z) eqn:E.
    + constructor; trivial.
      apply Forall_forall. intros y Hy. apply insert_reverse_In in Hy as [->|Hy].
      * now apply ltb_asym.
      * rewrite Forall_forall in Hz. now apply Hz.
    + constructor; [now constructor|].
      constructor; trivial.
      apply Forall_forall. intros y Hy. rewrite Forall_forall in Hz.
      eapply ltb_negtrans; eauto.
Qed.

Lemma sort_reverse_descending (l : list A) : descending ltb (sort_reverse ltb l).
Proof.
  induction l as [|x l IH]; simpl.
  - constructor.
  - now apply insert_reverse_descending.
Qed.

Lemma insert_reverse_Permutation (x : A) (l : list A) :
  Permutation (x :: l) (insert_reverse ltb x l).
Proof.
  induction l as [|z l IH]; simpl; trivial.
  destruct (ltb x z); trivial.
  rewrite perm_swap. now constructor.
Qed.

Lemma sort_reverse_Permutation (l : list A) : Permutation l (sort_reverse ltb l).
Proof.
  induction l as [|x l IH]; simpl; trivial.
  rewrite <- insert_reverse_Permutation. now constructor.
Qed.

(** In a descending ltb list a smaller element never comes first. *)
Lemma descending_positions (l : list A) (i j : nat) (a b : A) :
  descending ltb l -> nth_error l i = Some a -> nth_error l j = Some b ->
  ltb a b = true -> j < i.
Proof.
  intros Hl. revert i j. induction Hl as [|z l Hl IH Hz]; intros i j Hi Hj Hab.
  - now destruct i.
  - destruct i as [|i], j as [|j]; simpl in *.
    + injection Hi as ->. injection Hj as ->.
      pose proof (ltb_asym _ _ Hab). congruence.
    + injection Hi as ->. apply nth_error_In in Hj.
      rewrite Forall_forall in Hz. rewrite (Hz _ Hj) in Hab. discriminate.
    + lia.
    + apply -> Nat.succ_lt_mono. eauto.
Qed.

End SortReverse.

(* ================================================================== *)
(** ** Running the monad *)

Lemma add_events_nil (w : world) : add_events [] w = w.
Proof. destruct w. unfold add_events. simpl. now rewrite app_nil_r. Qed.

Lemma add_events_app (es1 es2 : list event) (w : world) :
  add_events es2 (add_events es1 w) = add_events (es1 ++ es2) w.
Proof. unfold add_events. simpl. now rewrite app_assoc. Qed.

Lemma emit_run (e : event) (w : world) : emit e w = (Ok tt, add_events [e] w).
Proof. reflexivity. Qed.

Lemma stat_add_events (p : PurePath) (es : list event) (w : world) :
  stat p (add_events es w) =
  (fst (stat p w), add_events es (snd (stat p w))).
Proof.
  unfold stat. simpl. now destruct (fault_at p (faults w)).
Qed.

Lemma stat_found (p : PurePath) (w : world) :
  fault_at p (faults w) = None -> stat p w = (Ok (lookup p (irods w)), w).
Proof. unfold stat. now intros ->. Qed.

Lemma printed_app (t1 t2 : list event) : printed (t1 ++ t2) = printed t1 ++ printed t2.
Proof.
  induction t1 as [|e t1 IH]; simpl; trivial.
  destruct e; simpl; now rewrite ?IH.
Qed.

Lemma _log_print_run (cmd : string) (it : RodsItem) (w : world) :
  _log_print cmd it w = (Ok tt, add_events (command_events cmd it) w).
Proof.
  unfold _log_print, log, bind. rewrite !emit_run. now rewrite add_events_app.
Qed.

Lemma for_each_log_print_run (cmd : string) (l : list RodsItem) (w : world) :
  for_each l (_log_print cmd) w
  = (Ok tt, add_events (flat_map (command_events cmd) l) w).
Proof.
  revert w. induction l as [|it l IH]; intros w; simpl.
  - now rewrite add_events_nil.
  - unfold bind. rewrite _log_print_run, IH. now rewrite add_events_app.
Qed.

Lemma printed_commands (cmd : string) (l : list RodsItem) :
  printed (flat_map (command_events cmd) l)
  = map (fun it => [PStr cmd; PQuoted it]) l.
Proof.
  induction l as [|it l IH]; simpl; trivial. now rewrite IH.
Qed.

Lemma remove_contents_run (items acc : list RodsItem) (w : world) :
  remove_contents items acc w
  = (Ok (acc ++ filter (fun it => negb (is_DataObject it)) items),
     add_events (flat_map (command_events "irm") (filter is_DataObject items)) w).
Proof.
  revert acc w. induction items as [|it items IH]; intros acc w; simpl.
  - now rewrite app_nil_r, add_events_nil.
  - destruct (is_DataObject it); simpl.
    + unfold bind. rewrite _log_print_run, IH.
      now rewrite add_events_app.
    + rewrite IH. now rewrite <- app_assoc.
Qed.

Lemma resolve_collection (target : PurePath + RodsItem) (root : PurePath)
  (c : collection_state) (w : world) :
  target = inl root \/ target = inr (Collection root) ->
  fault_at root (faults w) = None ->
  lookup root (irods w) = Some (ECollection c) ->
  exists es, resolve target w = (Ok (Collection root), add_events es w)
             /\ printed es = [].
Proof.
  intros [-> | ->] Hf Hl; simpl.
  - exists [Api (Collection root) ApiMakeRodsItem].
    unfold make_rods_item, bind. rewrite emit_run, stat_add_events, stat_found by trivial.
    simpl. now rewrite Hl.
  - exists []. now rewrite add_events_nil.
Qed.

Lemma iter_contents_run (root : PurePath) (c : collection_state) (w : world) :
  fault_at root (faults w) = None ->
  lookup root (irods w) = Some (ECollection c) ->
  iter_contents (Collection root) true w
  = (Ok (items_beneath root (irods w)),
     add_events [Api (Collection root) (ApiContents true)] w).
Proof.
  intros Hf Hl.
  unfold iter_contents, get_collection, get_entry, bind.
  rewrite emit_run, stat_add_events, stat_found by trivial.
  simpl. now rewrite Hl.
Qed.

Lemma write_safe_remove_commands_run (target : PurePath + RodsItem)
  (root : PurePath) (c : collection_state) (w : world) :
  target = inl root \/ target = inr (Collection root) ->
  fault_at root (faults w) = None ->
  lookup root (irods w) = Some (ECollection c) ->
  exists w',
    write_safe_remove_commands target w = (Ok tt, w')
    /\ irods w' = irods w
    /\ printed (trace w')
       = printed (trace w) ++ contents_plan root (irods w) ++ [irmdir (Collection root)].
Proof.
  intros Ht Hf Hl.
  destruct (resolve_collection target root c w Ht Hf Hl) as (es & Hr & Hes).
  unfold write_safe_remove_commands, bind. rewrite Hr. simpl.
  rewrite (iter_contents_run root c) by trivial. simpl.
  rewrite remove_contents_run. simpl.
  rewrite for_each_log_print_run, _log_print_run.
  eexists. split; [reflexivity|]. split; [reflexivity|].
  simpl. rewrite !printed_app, Hes, !printed_commands. simpl.
  unfold contents_plan, objects_beneath, collections_beneath.
  now rewrite <- !app_assoc.
Qed.

Lemma descending_snoc {A} (ltb : A -> A -> bool) (l : list A) (x : A) :
  descending ltb l -> Forall (fun a => ltb a x = false) l ->
  descending ltb (l ++ [x]).
Proof.
  induction 1 as [|z l Hl IH Hz]; intros Hx; simpl.
  - repeat constructor.
  - inversion Hx; subst. constructor; [now apply IH|].
    apply Forall_app. split; trivial. now constructor.
Qed.

Lemma item_ltb_asym (a b : RodsItem) : item_ltb a b = true -> item_ltb b a = false.
Proof. apply path_ltb_asym. Qed.

Lemma item_ltb_negtrans (a b c : RodsItem) :
  item_ltb a b = false -> item_ltb b c = false -> item_ltb a c = false.
Proof. apply path_ltb_negtrans. Qed.

Lemma In_items_beneath (root : PurePath) (cat : catalogue) (it : RodsItem) :
  In it (items_beneath root cat) <->
  exists pe, In pe cat /\ is_beneath root (fst pe) = true /\ it = item_of_entry pe.
Proof.
  unfold items_beneath. rewrite in_map_iff. split.
  - intros (pe & <- & Hpe). apply filter_In in Hpe. now exists pe.
  - intros (pe & Hin & Hb & ->). exists pe. split; trivial. now apply filter_In.
Qed.

Lemma In_collections_beneath (root : PurePath) (cat : catalogue) (it : RodsItem) :
  In it (collections_beneath root cat) <->
  exists p c, In (p, ECollection c) cat /\ is_beneath root p = true /\ it = Collection p.
Proof.
  unfold collections_beneath. rewrite filter_In, In_items_beneath. split.
  - intros (((p, e) & Hin & Hb & ->) & Hk). unfold item_of_entry in *. simpl in *.
    destruct e as [o|c]; [discriminate|]. now exists p, c.
  - intros (p & c & Hin & Hb & ->). split; trivial. now exists (p, ECollection c).
Qed.

Lemma In_objects_beneath (root : PurePath) (cat : catalogue) (it : RodsItem) :
  In it (objects_beneath root cat) <->
  exists p o, In (p, EObject o) cat /\ is_beneath root p = true /\ it = new_DataObject p.
Proof.
  unfold objects_beneath. rewrite filter_In, In_items_beneath. split.
  - intros (((p, e) & Hin & Hb & ->) & Hk). unfold item_of_entry in *. simpl in *.
    destruct e as [o|c]; [|discriminate]. now exists p, o.
  - intros (p & o & Hin & Hb & ->). split; trivial. now exists (p, EObject o).
Qed.

(** The collections of the plan, the root's line included, come in
    descending order of path. *)
Lemma plan_collections_descending (root : PurePath) (cat : catalogue) :
  descending item_ltb
    (sort_reverse item_ltb (collections_beneath root cat) ++ [Collection root]).
Proof.
  apply descending_snoc.
  - apply sort_reverse_descending; [apply item_ltb_asym | apply item_ltb_negtrans].
  - apply Forall_forall. intros it Hit. apply sort_reverse_In in Hit.
    apply In_collections_beneath in Hit as (p & c & _ & Hb & ->).
    apply item_ltb_asym. unfold item_ltb. simpl. now apply is_beneath_ltb.
Qed.

Lemma nth_error_map_irm_irmdir (l : list RodsItem) (i : nat) (it : RodsItem) :
  nth_error (map irm l) i <> Some (irmdir it).
Proof.
  rewrite nth_error_map. destruct (nth_error l i); simpl; [|discriminate].
  unfold irm, irmdir. congruence.
Qed.

Lemma nth_error_map_irmdir (l : list RodsItem) (i : nat) (it : RodsItem) :
  nth_error (map irmdir l) i = Some (irmdir it) -> nth_error l i = Some it.
Proof.
  rewrite nth_error_map. destruct (nth_error l i); simpl; [|discriminate].
  unfold irmdir. congruence.
Qed.

Lemma nth_error_map_irmdir_irm (l : list RodsItem) (i : nat) (it : RodsItem) :
  nth_error (map irmdir l) i <> Some (irm it).
Proof.
  rewrite nth_error_map. destruct (nth_error l i); simpl; [|discriminate].
  unfold irm, irmdir. congruence.
Qed.

(** Where a command can stand in a plan of [irm] lines followed by [irmdir]
    lines in descending order of path. *)
Lemma plan_positions (objs colls : list RodsItem) (i j : nat)
  (pc px : PurePath) (e : entry) :
  descending item_ltb colls ->
  nth_error (map irm objs ++ map irmdir colls) i = Some (irmdir (Collection pc)) ->
  nth_error (map irm objs ++ map irmdir colls) j = Some (removal_of (px, e)) ->
  is_beneath pc px = true ->
  j < i.
Proof.
  intros Hd Hi Hj Hb.
  destruct (Nat.lt_ge_cases i (List.length (map irm objs))) as [Hlt|Hge].
  { rewrite nth_error_app1 in Hi by trivial. now apply nth_error_map_irm_irmdir in Hi. }
  rewrite nth_error_app2 in Hi by trivial.
  apply nth_error_map_irmdir in Hi.
  destruct (Nat.lt_ge_cases j (List.length (map irm objs))) as [Hlt'|Hge']; [lia|].
  rewrite nth_error_app2 in Hj by trivial.
  destruct e as [o|c]; unfold removal_of in Hj; simpl in Hj.
  - now apply nth_error_map_irmdir_irm in Hj.
  - apply nth_error_map_irmdir in Hj.
    assert (j - List.length (map irm objs) < i - List.length (map irm objs)); [|lia].
    eapply (descending_positions _ item_ltb item_ltb_asym); eauto.
    unfold item_ltb. simpl. now apply is_beneath_ltb.
Qed.

(** C1. For a target that is a collection, [write_safe_remove_commands]
    writes an [irm] line for every data object and an [irmdir] line for every
    collection beneath the target and nothing else, the target's own [irmdir]
    is the last line, and the [irmdir] of a collection stands strictly after
    the line of every item whose path lies beneath that collection. *)
Theorem write_safe_remove_commands_children_first
  (target : PurePath + RodsItem) (root : PurePath) (c : collection_state) (w : world) :
  target = inl root \/ target = inr (Collection root) ->
  fault_at root (faults w) = None ->
  lookup root (irods w) = Some (ECollection c) ->
  exists w' plan,
    write_safe_remove_commands target w = (Ok tt, w')
    /\ printed (trace w') = printed (trace w) ++ plan
    /\ (forall p e, In (p, e) (irods w) -> is_beneath root p = true ->
        In (removal_of (p, e)) plan)
    /\ (exists before, plan = before ++ [irmdir (Collection root)]
        /\ forall line, In line before ->
           exists p e, In (p, e) (irods w) /\ is_beneath root p = true
                       /\ line = removal_of (p, e))
    /\ (forall i j pc px e,
        nth_error plan i = Some (irmdir (Collection pc)) ->
        nth_error plan j = Some (removal_of (px, e)) ->
        is_beneath pc px = true ->
        j < i).
Proof.
  intros Ht Hf Hl.
  destruct (write_safe_remove_commands_run target root c w Ht Hf Hl) as (w' & Hrun & _ & Hp).
  exists w', (contents_plan root (irods w) ++ [irmdir (Collection root)]).
  split; [exact Hrun|]. split; [exact Hp|]. split; [|split].
  - intros p e Hin Hb. apply in_or_app. left. unfold contents_plan.
    apply in_or_app. destruct e as [o|cc]; unfold removal_of; simpl.
    + left. apply in_map. apply In_objects_beneath. now exists p, o.
    + right. apply in_map. apply sort_reverse_In. apply In_collections_beneath.
      now exists p, cc.
  - exists (contents_plan root (irods w)). split; trivial.
    intros line Hline. unfold contents_plan in Hline.
    apply in_app_or in Hline as [Hline|Hline]; apply in_map_iff in Hline as (it & <- & Hit).
    + apply In_objects_beneath in Hit as (p & o & Hin & Hb & ->).
      now exists p, (EObject o).
    + apply sort_reverse_In in Hit.
      apply In_collections_beneath in Hit as (p & cc & Hin & Hb & ->).
      now exists p, (ECollection cc).
  - intros i j pc px e Hi Hj Hb.
    unfold contents_plan in Hi, Hj.
    rewrite <- app_assoc in Hi, Hj.
    change [irmdir (Collection root)] with (map irmdir [Collection root]) in Hi, Hj.
    rewrite <- map_app in Hi, Hj.
    eapply plan_positions; eauto. apply plan_collections_descending.
Qed.

(* ================================================================== *)
(** ** Reading from the client *)

Arguments emit : simpl never.
Arguments log : simpl never.
Arguments add_events : simpl never.
Arguments _print : simpl never.
Arguments when : simpl never.
Arguments log_exception : simpl never.
Arguments log_exception_no_checksum : simpl never.

Lemma entry_view_add_events (it : RodsItem) (es : list event) (w : world) :
  entry_view it (add_events es w) = entry_view it w.
Proof. reflexivity. Qed.

Lemma object_view_add_events (it : RodsItem) (es : list event) (w : world) :
  object_view it (add_events es w) = object_view it w.
Proof. reflexivity. Qed.

Lemma get_entry_run (it : RodsItem) (w : world) : get_entry it w = (entry_view it w, w).
Proof.
  unfold get_entry, entry_view, bind, stat.
  destruct (fault_at (item_path it) (faults w)); trivial.
  now destruct (lookup (item_path it) (irods w)).
Qed.

Lemma get_object_run (it : RodsItem) (w : world) : get_object it w = (object_view it w, w).
Proof.
  unfold get_object, object_view, bind. rewrite get_entry_run.
  destruct (entry_view it w) as [[o|c]|e]; reflexivity.
Qed.

Lemma object_view_entry (it : RodsItem) (w : world) (o : object_state) :
  object_view it w = Ok o -> entry_view it w = Ok (EObject o).
Proof.
  unfold object_view. destruct (entry_view it w) as [[o'|c]|e]; congruence.
Qed.

Lemma entry_view_inv (it : RodsItem) (w : world) (e : entry) :
  entry_view it w = Ok e ->
  fault_at (item_path it) (faults w) = None /\ lookup (item_path it) (irods w) = Some e.
Proof.
  unfold entry_view. destruct (fault_at (item_path it) (faults w)); [discriminate|].
  destruct (lookup (item_path it) (irods w)); [|discriminate]. intros [= ->]. now split.
Qed.

Lemma replicas_run (it : RodsItem) (w : world) :
  replicas it w
  = (result_map obj_replicas (object_view it w), add_events [Api it ApiReplicas] w).
Proof.
  unfold replicas, bind. rewrite emit_run, get_object_run, object_view_add_events.
  now destruct (object_view it w).
Qed.

Lemma get_checksum_run (it : RodsItem) (w : world) :
  get_checksum it w
  = (result_map obj_checksum (object_view it w), add_events [Api it ApiChecksum] w).
Proof.
  unfold get_checksum, bind. rewrite emit_run, get_object_run, object_view_add_events.
  now destruct (object_view it w).
Qed.

Lemma metadata_run (it : RodsItem) (w : world) :
  metadata it w
  = (result_map entry_metadata (entry_view it w), add_events [Api it ApiMetadata] w).
Proof.
  unfold metadata, bind. rewrite emit_run, get_entry_run, entry_view_add_events.
  now destruct (entry_view it w).
Qed.

Lemma permissions_run (it : RodsItem) (w : world) :
  permissions it w
  = (result_map entry_permissions (entry_view it w), add_events [Api it ApiPermissions] w).
Proof.
  unfold permissions, bind. rewrite emit_run, get_entry_run, entry_view_add_events.
  now destruct (entry_view it w).
Qed.

Lemma exists_run (it : RodsItem) (w : world) (e : entry) :
  entry_view it w = Ok e ->
  exists_ it w = (Ok true, add_events [Api it ApiExists] w).
Proof.
  intros Hv. apply entry_view_inv in Hv as [Hf Hl].
  unfold exists_, bind. rewrite emit_run, stat_add_events, stat_found by trivial.
  simpl. now rewrite Hl.
Qed.

Lemma get_rods_type_run (it : RodsItem) (w : world) (e : entry) :
  entry_view it w = Ok e ->
  get_rods_type it w = (Ok (Some (type_of_entry e)), add_events [Api it ApiRodsType] w).
Proof.
  intros Hv. apply entry_view_inv in Hv as [Hf Hl].
  unfold get_rods_type, bind. rewrite emit_run, stat_add_events, stat_found by trivial.
  simpl. now rewrite Hl.
Qed.

(** The two reads behind [has_matching_checksum_metadata]. *)
Lemma has_matching_checksum_metadata_run `{Environment} (obj : RodsItem) (w : world) :
  has_matching_checksum_metadata obj w
  = match object_view obj w with
    | Ok o =>
        (Ok (matching_checksum_metadata MD5 (obj_replicas o) (obj_metadata o)),
         add_events [Api obj ApiReplicas; Api obj ApiMetadata] w)
    | Raise e => (Raise e, add_events [Api obj ApiReplicas] w)
    end.
Proof.
  unfold has_matching_checksum_metadata, bind. rewrite replicas_run.
  destruct (object_view obj w) as [o|e] eqn:E; simpl; trivial.
  rewrite metadata_run, entry_view_add_events, (object_view_entry _ _ _ E). simpl.
  now rewrite add_events_app.
Qed.

Lemma has_checksum_metadata_run `{Environment} (obj : RodsItem) (w : world) :
  has_checksum_metadata obj w = has_matching_checksum_metadata obj w.
Proof. reflexivity. Qed.

Lemma has_complete_checksums_run (obj : RodsItem) (w : world) :
  has_complete_checksums obj w
  = (result_map (fun o => complete_checksums (obj_replicas o)) (object_view obj w),
     add_events [Api obj ApiReplicas] w).
Proof.
  unfold has_complete_checksums, bind. rewrite replicas_run.
  now destruct (object_view obj w).
Qed.

Lemma has_matching_checksums_run (obj : RodsItem) (w : world) :
  has_matching_checksums obj w
  = (result_map (fun o => matching_checksums (obj_replicas o)) (object_view obj w),
     add_events [Api obj ApiReplicas] w).
Proof.
  unfold has_matching_checksums, bind. rewrite replicas_run.
  now destruct (object_view obj w).
Qed.

Lemma holds_add_events_matching `{Environment} (obj : RodsItem) (es : list event) (w : world) :
  holds (has_matching_checksum_metadata obj) (add_events es w)
  = holds (has_matching_checksum_metadata obj) w.
Proof.
  unfold holds. rewrite !has_matching_checksum_metadata_run, object_view_add_events.
  now destruct (object_view obj w).
Qed.

(* ================================================================== *)
(** ** The per-item functions never raise *)

Lemma log_exception_run (b : bool) (i : nat) (e : exn) (w : world) :
  exists m fields, log_exception b i e w = (Ok tt, add_events [Log Error m fields] w).
Proof. destruct e; do 2 eexists; reflexivity. Qed.

Lemma log_exception_no_checksum_run (i : nat) (e : exn) (w : world) :
  exists m fields,
    log_exception_no_checksum i e w = (Ok tt, add_events [Log Error m fields] w).
Proof. destruct e; do 2 eexists; reflexivity. Qed.

Lemma when_print_run (b : bool) (p : string) (w : world) :
  when b (_print p) w = (Ok tt, add_events (if b then [Print [PStr p]] else []) w).
Proof. destruct b; trivial. unfold when, ret. now rewrite add_events_nil. Qed.

Ltac run := cbv beta iota delta [result_map fst snd ret raise].

(** What [check_checksums.fn] does with a line: its verdict is whether
    [has_matching_checksum_metadata] holds, and it only adds to the trace. *)
Lemma check_checksums_fn_run `{Environment} (print_pass print_fail : bool) (i : nat)
  (line : string) (w : world) :
  exists es,
    check_checksums_fn print_pass print_fail i line w
    = (Ok (holds (has_matching_checksum_metadata (object_of_line line)) w),
       add_events es w)
    /\ read_only es.
Proof.
  unfold read_only, check_checksums_fn, check_checksums_try, try_except, bind, holds, object_of_line.
  set (obj := new_DataObject (parse_path (strip line))).
  rewrite has_matching_checksum_metadata_run.
  destruct (object_view obj w) as [o|e] eqn:E; run.
  - destruct (matching_checksum_metadata MD5 (obj_replicas o) (obj_metadata o)); run.
    + unfold log. rewrite emit_run, when_print_run. run.
      rewrite !add_events_app. eexists. split; [reflexivity|].
      destruct print_pass; simpl; repeat constructor.
    + rewrite metadata_run, entry_view_add_events, (object_view_entry _ _ _ E). run.
      rewrite get_checksum_run, !object_view_add_events, E. run.
      unfold log. rewrite emit_run, when_print_run. run.
      rewrite !add_events_app. eexists. split; [reflexivity|].
      destruct print_fail; simpl; repeat constructor.
  - destruct (log_exception_run false i e (add_events [Api obj ApiReplicas] w))
      as (m & fields & Hev).
    rewrite Hev. run. rewrite when_print_run. run. rewrite !add_events_app.
    eexists. split; [reflexivity|].
    destruct print_fail; simpl; repeat constructor.
Qed.

(* ================================================================== *)
(** ** The driver *)

Lemma api_calls_app (t1 t2 : list event) :
  api_calls (t1 ++ t2) = api_calls t1 ++ api_calls t2.
Proof.
  induction t1 as [|e t1 IH]; simpl; trivial.
  destruct e; simpl; now rewrite ?IH.
Qed.

Lemma commands_run_app (t1 t2 : list event) :
  commands_run (t1 ++ t2) = commands_run t1 ++ commands_run t2.
Proof.
  induction t1 as [|e t1 IH]; simpl; trivial.
  destruct e; simpl; now rewrite ?IH.
Qed.

Lemma read_only_app (es1 es2 : list event) :
  read_only es1 -> read_only es2 -> read_only (es1 ++ es2).
Proof.
  unfold read_only. rewrite api_calls_app. intros. now apply Forall_app.
Qed.

Lemma count_true_map {A} (f : A -> bool) (l : list A) :
  count_true (map f l) = List.length (filter f l).
Proof.
  unfold count_true. induction l as [|x l IH]; simpl; trivial.
  destruct (f x); simpl; now rewrite IH.
Qed.

Lemma count_true_le (l : list bool) : count_true l <= List.length l.
Proof. apply count_occ_bound. Qed.

(** A per-item function that only reads: its results over a reader are the
    verdicts of the items, each taken on the world the run started in. *)
Lemma starmap_read_only {A B} (fn : nat -> A -> M B) (verdict : A -> world -> B) :
  (forall i x w, exists es,
      fn i x w = (Ok (verdict x w), add_events es w) /\ read_only es) ->
  (forall x es w, verdict x (add_events es w) = verdict x w) ->
  forall l i w, exists es,
      starmap fn i l w = (Ok (map (fun x => verdict x w) l), add_events es w)
      /\ read_only es.
Proof.
  intros Hfn Hstable l. induction l as [|x l IH]; intros i w; simpl.
  - exists []. rewrite add_events_nil. split; [reflexivity | constructor].
  - destruct (Hfn i x w) as (es1 & E1 & R1).
    destruct (IH (S i) (add_events es1 w)) as (es2 & E2 & R2).
    exists (es1 ++ es2). unfold bind. rewrite E1, E2. run.
    rewrite add_events_app. split; [|now apply read_only_app].
    f_equal. f_equal. f_equal. apply map_ext. intros y. apply Hstable.
Qed.

(** A per-item function that never raises: the driver gets one result for
    each line of the reader. *)
Lemma starmap_total {A B} (fn : nat -> A -> M B) :
  (forall i x w, exists b w', fn i x w = (Ok b, w')) ->
  forall l i w, exists bs w',
      starmap fn i l w = (Ok bs, w') /\ List.length bs = List.length l.
Proof.
  intros Hfn l. induction l as [|x l IH]; intros i w; simpl.
  - now exists [], w.
  - destruct (Hfn i x w) as (b & w1 & E1).
    destruct (IH (S i) w1) as (bs & w2 & E2 & Hlen).
    exists (b :: bs), w2. unfold bind. rewrite E1, E2. run.
    split; trivial. simpl. now rewrite Hlen.
Qed.

(** C7. [check_checksums] counts a line as a success exactly when
    [has_matching_checksum_metadata] holds of its data object, in the world
    the run starts in.  It returns (N, S, N - S) for the N lines of the
    reader and the S of them that succeed, and on the way it makes no call
    that changes the server: the catalogue of the world it ends in is the one
    it started from. *)
Theorem check_checksums_counts_matching_metadata `{Environment}
  (reader : list string) (print_pass print_fail : bool) (w : world) :
  let ok line := holds (has_matching_checksum_metadata (object_of_line line)) w in
  let N := List.length reader in
  let S := List.length (filter ok reader) in
  exists es,
    check_checksums reader print_pass print_fail w = (Ok (N, S, N - S), add_events es w)
    /\ read_only es
    /\ irods (add_events es w) = irods w
    /\ N = S + (N - S)
    /\ forall i line,
        fst (check_checksums_fn print_pass print_fail i line w) = Ok (ok line).
Proof.
  intros ok N S.
  destruct (starmap_read_only (check_checksums_fn print_pass print_fail)
              (fun line w0 =>
                 holds (has_matching_checksum_metadata (object_of_line line)) w0)
              (check_checksums_fn_run print_pass print_fail)
              (fun line es w0 =>
                 holds_add_events_matching (object_of_line line) es w0)
              reader 0 w) as (es & E & R).
  exists es. unfold check_checksums, bind. rewrite E. run.
  rewrite length_map, count_true_map. fold ok. fold N. fold S.
  split; [reflexivity|]. split; [exact R|]. split; [reflexivity|]. split.
  - assert (S <= N) by apply filter_length_le. lia.
  - intros i line.
    destruct (check_checksums_fn_run print_pass print_fail i line w) as (es' & E' & _).
    now rewrite E'.
Qed.

(* ================================================================== *)
(** ** [repair_checksums] *)

Lemma set_entry_run (it : RodsItem) (e : entry) (w : world) :
  set_entry it e w = (Ok tt, put_entry (item_path it) e w).
Proof. reflexivity. Qed.

Lemma supersede_metadata_run (it : RodsItem) (avus : list AVU) (w : world) (e : entry) :
  entry_view it w = Ok e ->
  exists r e',
    supersede_metadata it avus w
    = (Ok r, put_entry (item_path it) e'
               (add_events [Api it (ApiSupersedeMetadata avus)] w)).
Proof.
  intros E. unfold supersede_metadata, bind.
  rewrite emit_run, get_entry_run, entry_view_add_events, E. run.
  rewrite set_entry_run. run. do 2 eexists. reflexivity.
Qed.

Lemma repair_checksums_fn_run `{Environment} (print_repair print_fail : bool) (i : nat)
  (line : string) (w : world) :
  exists v w',
    repair_checksums_fn print_repair print_fail i line w = (Ok v, w')
    /\ v = match object_view (object_of_line line) w with
           | Ok o => repair_checksums_verdict MD5 o
           | Raise _ => (false, false)
           end
    /\ (snd v = false -> exists es, w' = add_events es w /\ read_only es).
Proof.
  unfold repair_checksums_fn, repair_checksums_try, try_except, bind, object_of_line,
    repair_checksums_verdict, read_only.
  set (obj := new_DataObject (parse_path (strip line))).
  rewrite has_matching_checksum_metadata_run.
  destruct (object_view obj w) as [o|e] eqn:E; run.
  - destruct (matching_checksum_metadata MD5 (obj_replicas o) (obj_metadata o)) eqn:Em; run.
    + unfold log. rewrite emit_run. run. rewrite add_events_app.
      do 2 eexists. split; [reflexivity|]. split; trivial.
      intros _. eexists. split; [reflexivity|]. simpl. repeat constructor.
    + rewrite has_complete_checksums_run, object_view_add_events, E. run.
      rewrite has_matching_checksums_run, !object_view_add_events, E. run.
      rewrite has_checksum_metadata_run, has_matching_checksum_metadata_run,
        !object_view_add_events, E. run.
      unfold log. rewrite emit_run. run.
      unfold ensure_matching_checksum_metadata, bind.
      rewrite has_matching_checksum_metadata_run, !object_view_add_events, E. run.
      rewrite Em. rewrite replicas_run, !object_view_add_events, E. run.
      rewrite !add_events_app.
      destruct (matching_checksums (obj_replicas o) && complete_checksums (obj_replicas o)).
      * destruct (agreed_checksum (obj_replicas o)) as [c|].
        -- match goal with
           | |- context [supersede_metadata ?it ?avus ?w0] =>
               destruct (supersede_metadata_run it avus w0 (EObject o)) as (r & e' & Hs)
           end.
           { rewrite entry_view_add_events. now apply object_view_entry. }
           rewrite Hs. run. rewrite when_print_run. run.
           do 2 eexists. split; [reflexivity|]. split; trivial. discriminate.
        -- run.
           match goal with
           | |- context [log_exception ?b ?i ?e ?w0] =>
               destruct (log_exception_run b i e w0) as (m & fields & Hl)
           end.
           rewrite Hl. run. rewrite when_print_run. run. rewrite !add_events_app.
           do 2 eexists. split; [reflexivity|]. split; trivial.
           intros _. eexists. split; [reflexivity|].
           rewrite !api_calls_app. simpl.
           destruct print_fail; simpl; repeat constructor.
      * run.
        match goal with
        | |- context [log_exception ?b ?i ?e ?w0] =>
            destruct (log_exception_run b i e w0) as (m & fields & Hl)
        end.
        rewrite Hl. run. rewrite when_print_run. run. rewrite !add_events_app.
        do 2 eexists. split; [reflexivity|]. split; trivial.
        intros _. eexists. split; [reflexivity|].
        rewrite !api_calls_app. simpl.
        destruct print_fail; simpl; repeat constructor.
  - destruct (log_exception_run true i e (add_events [Api obj ApiReplicas] w))
      as (m & fields & Hl).
    rewrite Hl. run. rewrite when_print_run. run. rewrite !add_events_app.
    do 2 eexists. split; [reflexivity|]. split; trivial.
    intros _. eexists. split; [reflexivity|].
    destruct print_fail; simpl; repeat constructor.
Qed.

Lemma opt_eqb_eq (a b : option string) : opt_eqb a b = true -> a = b.
Proof.
  destruct a, b; simpl; try congruence. intros E. apply String.eqb_eq in E. congruence.
Qed.

(** Valid replicas that agree on a checksum either all have one or all lack
    one. *)
Lemma agreed_checksum_incomplete (rs : list Replica) :
  complete_checksums rs = false -> agreed_checksum rs = None.
Proof.
  unfold agreed_checksum, complete_checksums, matching_checksums.
  destruct (valid_replicas rs) as [|r l]; trivial. simpl.
  destruct (forallb (opt_eqb (checksum r)) (map checksum l)) eqn:Em; trivial.
  destruct (nonempty_checksum r) eqn:En; trivial. simpl.
  intros Hc. exfalso.
  assert (forallb nonempty_checksum l = true) as Hl; [|congruence].
  apply forallb_forall. intros x Hx.
  rewrite forallb_forall in Em.
  specialize (Em (checksum x) (in_map checksum l x Hx)).
  apply opt_eqb_eq in Em. unfold nonempty_checksum in *. now rewrite <- Em.
Qed.

Lemma repair_checksums_verdict_refused (md5 : string) (o : object_state) :
  matching_checksums (obj_replicas o) = false
  \/ complete_checksums (obj_replicas o) = false ->
  repair_checksums_verdict md5 o = (false, false).
Proof.
  unfold repair_checksums_verdict, matching_checksum_metadata.
  intros [Hm | Hc].
  - now rewrite Hm.
  - rewrite Hc, (agreed_checksum_incomplete _ Hc), andb_false_r.
    now destruct (matching_checksums (obj_replicas o)).
Qed.

(** C5. When the valid replicas of a data object do not all carry the same
    checksum, or one of them carries none, [repair_checksums.fn] returns
    success False and repair False, and every call it has made to the client
    is a read: the catalogue is left as it was. *)
Theorem repair_checksums_refuses_divergent_replicas `{Environment}
  (print_repair print_fail : bool) (i : nat) (line : string) (w : world)
  (o : object_state) :
  object_view (object_of_line line) w = Ok o ->
  matching_checksums (obj_replicas o) = false
  \/ complete_checksums (obj_replicas o) = false ->
  exists es,
    repair_checksums_fn print_repair print_fail i line w
    = (Ok (false, false), add_events es w)
    /\ read_only es
    /\ irods (add_events es w) = irods w.
Proof.
  intros Ho Hd.
  destruct (repair_checksums_fn_run print_repair print_fail i line w)
    as (v & w' & E & Hv & Hw).
  rewrite Ho, (repair_checksums_verdict_refused _ _ Hd) in Hv. subst v.
  destruct (Hw eq_refl) as (es & -> & Hr).
  exists es. now repeat split.
Qed.

(** In [repair_zone] the replicas of [/zone/diverged] disagree. *)
Lemma repair_checksums_refuses_divergent_replicas_witness :
  exists es,
    @repair_checksums_fn reference true true 2 "/zone/diverged" (start repair_zone)
    = (Ok (false, false), add_events es (start repair_zone))
    /\ read_only es
    /\ irods (add_events es (start repair_zone)) = irods (start repair_zone).
Proof.
  eapply (@repair_checksums_refuses_divergent_replicas reference true true 2
            "/zone/diverged" (start repair_zone)).
  - reflexivity.
  - left. reflexivity.
Defined.

(* ================================================================== *)
(** ** Exceptions stop at the per-item boundary *)

Lemma try_except_raise {A} (m : M A) (h : exn -> M A) (w w1 : world) (e : exn) :
  m w = (Raise e, w1) -> try_except m h w = h e w1.
Proof. unfold try_except. now intros ->. Qed.

Lemma fst_raise {A} (m : M A) (w : world) (e : exn) :
  fst (m w) = Raise e -> m w = (Raise e, snd (m w)).
Proof. destruct (m w). simpl. now intros ->. Qed.

Lemma count_true_app (l1 l2 : list bool) :
  count_true (l1 ++ l2) = count_true l1 + count_true l2.
Proof. apply count_occ_app. Qed.

Lemma check_checksums_fn_total `{Environment} (pp pf : bool) (i : nat) (line : string)
  (w : world) :
  exists b w', check_checksums_fn pp pf i line w = (Ok b, w').
Proof.
  destruct (check_checksums_fn_run pp pf i line w) as (es & E & _). eauto.
Qed.

Lemma repair_checksums_fn_total `{Environment} (pr pf : bool) (i : nat) (line : string)
  (w : world) :
  exists b w', repair_checksums_fn pr pf i line w = (Ok b, w').
Proof.
  destruct (repair_checksums_fn_run pr pf i line w) as (v & w' & E & _). eauto.
Qed.

(** The run over [before ++ x :: after] is the run over [before], then [x],
    then the run over [after]. *)
Lemma starmap_split {A B} (fn : nat -> A -> M B) :
  (forall i x w, exists b w', fn i x w = (Ok b, w')) ->
  forall before x after i w,
  exists rs1 w1 r w2 rs2 w3,
    starmap fn i before w = (Ok rs1, w1)
    /\ fn (i + List.length before) x w1 = (Ok r, w2)
    /\ starmap fn (S (i + List.length before)) after w2 = (Ok rs2, w3)
    /\ starmap fn i (before ++ x :: after) w = (Ok (rs1 ++ r :: rs2), w3)
    /\ List.length rs1 = List.length before
    /\ List.length rs2 = List.length after.
Proof.
  intros Hfn before. induction before as [|y before IH]; intros x after i w.
  - simpl. rewrite Nat.add_0_r.
    destruct (Hfn i x w) as (r & w2 & E).
    destruct (starmap_total fn Hfn after (S i) w2) as (rs2 & w3 & E2 & Hlen).
    exists [], w, r, w2, rs2, w3. unfold bind. rewrite E, E2. run. now repeat split.
  - destruct (Hfn i y w) as (b & w0 & E0).
    destruct (IH x after (S i) w0) as (rs1 & w1 & r & w2 & rs2 & w3 & E1 & E2 & E3 & E4 & L1 & L2).
    exists (b :: rs1), w1, r, w2, rs2, w3. simpl. unfold bind.
    rewrite E0, E1, E4. run.
    replace (i + S (List.length before)) with (S i + List.length before) by lia.
    repeat split; trivial. simpl. now rewrite L1.
Qed.

Lemma map_fst_app_cons {A B} (l1 : list (A * B)) (x : A * B) (l2 : list (A * B)) :
  map fst (l1 ++ x :: l2) = map fst l1 ++ fst x :: map fst l2.
Proof. now rewrite map_app. Qed.

(** With a writer and a log that take everything, an exception raised in the
    [try] suite of [check_checksums.fn] makes the item a failure and leaves
    the catalogue as it was; the lines before and after the item are
    processed and the counts are taken over the results of all the lines. *)
Lemma check_checksums_items_counted `{Environment} :
  (forall pp pf before line after w,
      exists rs1 w1 r w2 rs2 w3,
        let fn := check_checksums_fn pp pf in
        let rs := rs1 ++ r :: rs2 in
        starmap fn 0 before w = (Ok rs1, w1)
        /\ fn (List.length before) line w1 = (Ok r, w2)
        /\ starmap fn (1 + List.length before) after w2 = (Ok rs2, w3)
        /\ check_checksums (before ++ line :: after) pp pf w
           = (Ok (List.length rs, count_true rs, List.length rs - count_true rs), w3)
        /\ List.length rs = List.length (before ++ line :: after)
        /\ forall e,
            fst (check_checksums_try pp pf (List.length before) (strip line) w1) = Raise e ->
            r = false /\ irods w2 = irods w1 /\ faults w2 = faults w1
            /\ count_true rs = count_true rs1 + count_true rs2).
Proof.
  intros pp pf before line after w.
  destruct (starmap_split (check_checksums_fn pp pf) (check_checksums_fn_total pp pf)
              before line after 0 w)
    as (rs1 & w1 & r & w2 & rs2 & w3 & E1 & E2 & E3 & E4 & L1 & L2).
  exists rs1, w1, r, w2, rs2, w3. simpl in *.
  assert (forall e,
    fst (check_checksums_try pp pf (List.length before) (strip line) w1) = Raise e ->
    r = false) as Hr.
  { intros e He. unfold check_checksums_fn in E2.
    rewrite (try_except_raise _ _ _ _ _ (fst_raise _ _ _ He)) in E2.
    unfold bind in E2.
    destruct (log_exception_run false (List.length before) e
                (snd (check_checksums_try pp pf (List.length before) (strip line) w1)))
      as (m & fields & Hl).
    rewrite Hl in E2. revert E2. run. rewrite when_print_run. run. congruence. }
  destruct (check_checksums_fn_run pp pf (List.length before) line w1) as (es & E & _).
  rewrite E2 in E. injection E as _ ->.
  split; trivial. split; trivial. split; trivial. split; [|split].
  + unfold check_checksums, bind. rewrite E4. now run.
  + rewrite !length_app. simpl. now rewrite L1, L2.
  + intros e He. rewrite (Hr e He). repeat split; trivial.
    rewrite count_true_app. reflexivity.
Qed.

(** The same for [repair_checksums.fn], whose results are the pairs
    [(success, repair)]. *)
Lemma repair_checksums_items_counted `{Environment} :
  (forall pr pf before line after w,
      exists rs1 w1 r w2 rs2 w3,
        let fn := repair_checksums_fn pr pf in
        let rs := rs1 ++ r :: rs2 in
        starmap fn 0 before w = (Ok rs1, w1)
        /\ fn (List.length before) line w1 = (Ok r, w2)
        /\ starmap fn (1 + List.length before) after w2 = (Ok rs2, w3)
        /\ repair_checksums (before ++ line :: after) pr pf w
           = (Ok (List.length rs, count_true (map snd rs),
                  List.length rs - count_true (map fst rs)), w3)
        /\ List.length rs = List.length (before ++ line :: after)
        /\ forall e,
            fst (repair_checksums_try pr (List.length before) (strip line) w1) = Raise e ->
            r = (false, false) /\ irods w2 = irods w1 /\ faults w2 = faults w1
            /\ count_true (map fst rs)
               = count_true (map fst rs1) + count_true (map fst rs2)
            /\ count_true (map snd rs)
               = count_true (map snd rs1) + count_true (map snd rs2)).
Proof.
  intros pr pf before line after w.
  destruct (starmap_split (repair_checksums_fn pr pf) (repair_checksums_fn_total pr pf)
              before line after 0 w)
    as (rs1 & w1 & r & w2 & rs2 & w3 & E1 & E2 & E3 & E4 & L1 & L2).
  exists rs1, w1, r, w2, rs2, w3. simpl in *.
  assert (forall e,
    fst (repair_checksums_try pr (List.length before) (strip line) w1) = Raise e ->
    r = (false, false)) as Hr.
  { intros e He. unfold repair_checksums_fn in E2.
    rewrite (try_except_raise _ _ _ _ _ (fst_raise _ _ _ He)) in E2.
    unfold bind in E2.
    destruct (log_exception_run true (List.length before) e
                (snd (repair_checksums_try pr (List.length before) (strip line) w1)))
      as (m & fields & Hl).
    rewrite Hl in E2. revert E2. run. rewrite when_print_run. run. congruence. }
  split; trivial. split; trivial. split; trivial. split; [|split].
  + unfold repair_checksums, bind. rewrite E4. run.
    destruct (rs1 ++ r :: rs2) eqn:Ers.
    { now destruct rs1. }
    unfold unzip_results. run. now rewrite !length_map.
  + rewrite !length_app. simpl. now rewrite L1, L2.
  + intros e He. specialize (Hr e He). subst r.
    destruct (repair_checksums_fn_run pr pf (List.length before) line w1)
      as (v & w' & E & _ & Hw).
    rewrite E2 in E. injection E as <- <-.
    destruct (Hw eq_refl) as (es & -> & _).
    repeat split; trivial; rewrite map_app, count_true_app; reflexivity.
Qed.

(** *** The functions for a writer and a log that take everything *)

Lemma starmap_ext {A B} (f g : nat -> A -> M B) :
  (forall i x w, f i x w = g i x w) ->
  forall l i w, starmap f i l w = starmap g i l w.
Proof.
  intros Hfg l. induction l as [|x l IH]; intros i w; simpl; trivial.
  unfold bind. rewrite Hfg. destruct (g i x w) as [[r|e] w0]; trivial.
  now rewrite IH.
Qed.

Lemma _print_takes (out : Sinks) (p : string) :
  takes_everything out -> Fallible._print out p = _print p.
Proof. intros [Hw _]. unfold Fallible._print, _print. now rewrite Hw. Qed.

Lemma log_takes (out : Sinks) (lv : log_level) (msg : string)
  (fields : list (string * log_field)) :
  takes_everything out -> Fallible.log out lv msg fields = log lv msg fields.
Proof. intros [_ Hl]. unfold Fallible.log, log. now rewrite Hl. Qed.

Lemma log_exception_takes (out : Sinks) (b : bool) (i : nat) (e : exn) :
  takes_everything out -> Fallible.log_exception out b i e = log_exception b i e.
Proof. intros T. destruct e; simpl; now apply log_takes. Qed.

(** With such sinks nothing that follows [success = True] can raise: the
    suite is left by an exception only with [success] False. *)
Lemma check_checksums_try_takes `{Environment} (out : Sinks) (pp pf : bool) (i : nat)
  (p : string) (w : world) :
  takes_everything out ->
  Fallible.check_checksums_try out pp pf i p w
  = match check_checksums_try pp pf i p w with
    | (Ok v, w') => ((v, None), w')
    | (Raise e, w') => ((false, Some e), w')
    end.
Proof.
  intros T. unfold Fallible.check_checksums_try, check_checksums_try, stmt, leave, bind.
  rewrite !(_print_takes out) by exact T.
  destruct (has_matching_checksum_metadata (new_DataObject (parse_path p)) w)
    as [[[|]|e] w0]; trivial.
  - rewrite (log_takes out) by exact T.
    unfold log. rewrite emit_run, when_print_run. reflexivity.
  - destruct (metadata (new_DataObject (parse_path p)) w0) as [[avus|e] w1]; trivial.
    destruct (get_checksum (new_DataObject (parse_path p)) w1) as [[c|e] w2]; trivial.
    rewrite (log_takes out) by exact T.
    unfold log. rewrite emit_run, when_print_run. reflexivity.
Qed.

Lemma check_checksums_fn_takes `{Environment} (out : Sinks) (pp pf : bool) (i : nat)
  (line : string) (w : world) :
  takes_everything out ->
  Fallible.check_checksums_fn out pp pf i line w = check_checksums_fn pp pf i line w.
Proof.
  intros T. unfold Fallible.check_checksums_fn, check_checksums_fn, try_suite, try_except.
  rewrite check_checksums_try_takes by exact T.
  destruct (check_checksums_try pp pf i (strip line) w) as [[v|e] w1]; trivial.
  unfold Fallible.check_checksums_except, bind.
  rewrite log_exception_takes, _print_takes by exact T.
  destruct (log_exception false i e w1) as [[[]|e1] w2]; trivial;
    now destruct (when pf (_print (strip line)) w2) as [[[]|e2] w3].
Qed.

Lemma check_checksums_takes `{Environment} (out : Sinks) (reader : list string)
  (pp pf : bool) (w : world) :
  takes_everything out ->
  Fallible.check_checksums out reader pp pf w = check_checksums reader pp pf w.
Proof.
  intros T. unfold Fallible.check_checksums, check_checksums, bind.
  rewrite (starmap_ext _ (check_checksums_fn pp pf)); trivial.
  intros. now apply check_checksums_fn_takes.
Qed.

Lemma repair_checksums_try_takes `{Environment} (out : Sinks) (pr : bool) (i : nat)
  (p : string) (w : world) :
  takes_everything out ->
  Fallible.repair_checksums_try out pr i p w
  = match repair_checksums_try pr i p w with
    | (Ok v, w') => ((v, None), w')
    | (Raise e, w') => ((false, false, Some e), w')
    end.
Proof.
  intros T. unfold Fallible.repair_checksums_try, repair_checksums_try, stmt, leave, bind.
  rewrite !(_print_takes out) by exact T.
  set (obj := new_DataObject (parse_path p)).
  destruct (has_matching_checksum_metadata obj w) as [[[|]|e] w0]; trivial.
  - rewrite (log_takes out) by exact T. unfold log. now rewrite emit_run.
  - destruct (has_complete_checksums obj w0) as [[cc|e] w1]; trivial.
    destruct (has_matching_checksums obj w1) as [[mc|e] w2]; trivial.
    destruct (has_checksum_metadata obj w2) as [[cm|e] w3]; trivial.
    rewrite (log_takes out) by exact T.
    unfold log at 1 2. rewrite !emit_run.
    destruct (ensure_matching_checksum_metadata obj _) as [[[|]|e] w4]; trivial.
    now rewrite when_print_run.
Qed.

Lemma repair_checksums_fn_takes `{Environment} (out : Sinks) (pr pf : bool) (i : nat)
  (line : string) (w : world) :
  takes_everything out ->
  Fallible.repair_checksums_fn out pr pf i line w = repair_checksums_fn pr pf i line w.
Proof.
  intros T. unfold Fallible.repair_checksums_fn, repair_checksums_fn, try_suite, try_except.
  rewrite repair_checksums_try_takes by exact T.
  destruct (repair_checksums_try pr i (strip line) w) as [[v|e] w1]; trivial.
  unfold Fallible.repair_checksums_except, bind.
  rewrite log_exception_takes, _print_takes by exact T.
  destruct (log_exception true i e w1) as [[[]|e1] w2]; trivial;
    now destruct (when pf (_print (strip line)) w2) as [[[]|e2] w3].
Qed.

Lemma repair_checksums_takes `{Environment} (out : Sinks) (reader : list string)
  (pr pf : bool) (w : world) :
  takes_everything out ->
  Fallible.repair_checksums out reader pr pf w = repair_checksums reader pr pf w.
Proof.
  intros T. unfold Fallible.repair_checksums, repair_checksums, bind.
  rewrite (starmap_ext _ (repair_checksums_fn pr pf)); trivial.
  intros. now apply repair_checksums_fn_takes.
Qed.

(** C8, as the code has it.  An exception raised in the [try] suite of
    [check_checksums.fn] or of [repair_checksums.fn] is handed to the
    [except] clause, and when that clause returns the function returns the
    variables [success] and [repair] as they stood when the exception was
    raised.  When the writer and the log take everything they are given the
    clause always returns and the item is a failure, with the catalogue as
    the item found it: wherever the item stands in the reader, the lines
    before it and the lines after it are processed, and the driver returns
    its counts over the results of all the lines. *)
Theorem per_item_exceptions_are_counted `{Environment} (out : Sinks) :
  (forall pp pf i line w success e w1 w2,
      Fallible.check_checksums_try out pp pf i (strip line) w = ((success, Some e), w1) ->
      Fallible.check_checksums_except out pf i (strip line) e w1 = (Ok tt, w2) ->
      Fallible.check_checksums_fn out pp pf i line w = (Ok success, w2))
  /\
  (forall pr pf i line w success repair e w1 w2,
      Fallible.repair_checksums_try out pr i (strip line) w
      = ((success, repair, Some e), w1) ->
      Fallible.repair_checksums_except out pf i (strip line) e w1 = (Ok tt, w2) ->
      Fallible.repair_checksums_fn out pr pf i line w = (Ok (success, repair), w2))
  /\
  (takes_everything out ->
   (forall pp pf before line after w,
      exists rs1 w1 r w2 rs2 w3,
        let fn := Fallible.check_checksums_fn out pp pf in
        let rs := rs1 ++ r :: rs2 in
        starmap fn 0 before w = (Ok rs1, w1)
        /\ fn (List.length before) line w1 = (Ok r, w2)
        /\ starmap fn (1 + List.length before) after w2 = (Ok rs2, w3)
        /\ Fallible.check_checksums out (before ++ line :: after) pp pf w
           = (Ok (List.length rs, count_true rs, List.length rs - count_true rs), w3)
        /\ List.length rs = List.length (before ++ line :: after)
        /\ forall success e w',
            Fallible.check_checksums_try out pp pf (List.length before) (strip line) w1
            = ((success, Some e), w') ->
            success = false /\ r = false
            /\ irods w2 = irods w1 /\ faults w2 = faults w1
            /\ count_true rs = count_true rs1 + count_true rs2)
   /\
   (forall pr pf before line after w,
      exists rs1 w1 r w2 rs2 w3,
        let fn := Fallible.repair_checksums_fn out pr pf in
        let rs := rs1 ++ r :: rs2 in
        starmap fn 0 before w = (Ok rs1, w1)
        /\ fn (List.length before) line w1 = (Ok r, w2)
        /\ starmap fn (1 + List.length before) after w2 = (Ok rs2, w3)
        /\ Fallible.repair_checksums out (before ++ line :: after) pr pf w
           = (Ok (List.length rs, count_true (map snd rs),
                  List.length rs - count_true (map fst rs)), w3)
        /\ List.length rs = List.length (before ++ line :: after)
        /\ forall success repair e w',
            Fallible.repair_checksums_try out pr (List.length before) (strip line) w1
            = ((success, repair, Some e), w') ->
            (success, repair) = (false, false) /\ r = (false, false)
            /\ irods w2 = irods w1 /\ faults w2 = faults w1
            /\ count_true (map fst rs)
               = count_true (map fst rs1) + count_true (map fst rs2)
            /\ count_true (map snd rs)
               = count_true (map snd rs1) + count_true (map snd rs2))).
Proof.
  split; [|split; [|intros T; split]].
  - intros pp pf i line w success e w1 w2 Et Eh.
    unfold Fallible.check_checksums_fn, try_suite, bind. now rewrite Et, Eh.
  - intros pr pf i line w success repair e w1 w2 Et Eh.
    unfold Fallible.repair_checksums_fn, try_suite, bind. now rewrite Et, Eh.
  - intros pp pf before line after w.
    destruct (check_checksums_items_counted pp pf before line after w)
      as (rs1 & w1 & r & w2 & rs2 & w3 & E1 & E2 & E3 & E4 & Hlen & Hraise).
    exists rs1, w1, r, w2, rs2, w3. cbv zeta in *.
    rewrite !(starmap_ext (Fallible.check_checksums_fn out pp pf)
                (check_checksums_fn pp pf))
      by (intros; now apply check_checksums_fn_takes).
    rewrite check_checksums_fn_takes, check_checksums_takes by exact T.
    do 5 (split; [assumption|]).
    intros success e w' Et.
    rewrite check_checksums_try_takes in Et by exact T.
    destruct (check_checksums_try pp pf (List.length before) (strip line) w1)
      as [[v|e0] w0] eqn:Eold; [discriminate|].
    injection Et as <- <- _.
    split; [reflexivity|]. apply (Hraise e0). reflexivity.
  - intros pr pf before line after w.
    destruct (repair_checksums_items_counted pr pf before line after w)
      as (rs1 & w1 & r & w2 & rs2 & w3 & E1 & E2 & E3 & E4 & Hlen & Hraise).
    exists rs1, w1, r, w2, rs2, w3. cbv zeta in *.
    rewrite !(starmap_ext (Fallible.repair_checksums_fn out pr pf)
                (repair_checksums_fn pr pf))
      by (intros; now apply repair_checksums_fn_takes).
    rewrite repair_checksums_fn_takes, repair_checksums_takes by exact T.
    do 5 (split; [assumption|]).
    intros success repair e w' Et.
    rewrite repair_checksums_try_takes in Et by exact T.
    destruct (repair_checksums_try pr (List.length before) (strip line) w1)
      as [[v|e0] w0] eqn:Eold; [discriminate|].
    injection Et as <- <- <- _.
    split; [reflexivity|]. apply (Hraise e0). reflexivity.
Qed.

(* ================================================================== *)
(** ** [repair_replicas] *)

Lemma path_eqb_refl (p : PurePath) : path_eqb p p = true.
Proof. now apply path_eqb_eq. Qed.

Lemma lookup_replace_entry_same (p : PurePath) (e e' : entry) (cat : catalogue) :
  lookup p cat = Some e -> lookup p (replace_entry p e' cat) = Some e'.
Proof.
  induction cat as [|[q x] cat IH]; simpl; [discriminate|].
  destruct (path_eqb p q) eqn:E; simpl; rewrite E; trivial.
Qed.

Lemma lookup_replace_entry_other (p q : PurePath) (e' : entry) (cat : catalogue) :
  path_eqb p q = false -> lookup p (replace_entry q e' cat) = lookup p cat.
Proof.
  intros Hpq. induction cat as [|[r x] cat IH]; simpl; trivial.
  destruct (path_eqb q r) eqn:E; simpl.
  - apply path_eqb_eq in E. subst r. now rewrite Hpq.
  - destruct (path_eqb p r); trivial.
Qed.

Lemma entry_view_put_entry_same (it : RodsItem) (e e' : entry) (w : world) :
  entry_view it w = Ok e ->
  entry_view it (put_entry (item_path it) e' w) = Ok e'.
Proof.
  intros Hv. apply entry_view_inv in Hv as [Hf Hl].
  unfold entry_view, put_entry. simpl. rewrite Hf.
  now rewrite (lookup_replace_entry_same _ _ _ _ Hl).
Qed.

Lemma object_view_put_entry_same (it : RodsItem) (o o' : object_state) (w : world) :
  object_view it w = Ok o ->
  object_view it (put_entry (item_path it) (EObject o') w) = Ok o'.
Proof.
  intros Hv. unfold object_view.
  now rewrite (entry_view_put_entry_same _ _ _ _ (object_view_entry _ _ _ Hv)).
Qed.

Lemma valid_trim_list_valid (k : nat) (ti : bool) (rs : list Replica) :
  valid_replicas (trim_list k true ti rs) = firstn k (valid_replicas rs).
Proof.
  unfold valid_replicas. revert k. induction rs as [|r rs IH]; intros k; simpl.
  - now destruct k.
  - destruct (valid r) eqn:E; simpl.
    + destruct k; simpl.
      * rewrite IH. reflexivity.
      * rewrite E. now rewrite IH.
    + destruct ti; simpl; rewrite ?E; apply IH.
Qed.

Lemma valid_trim_list_keep (k : nat) (ti : bool) (rs : list Replica) :
  valid_replicas (trim_list k false ti rs) = valid_replicas rs.
Proof.
  unfold valid_replicas. induction rs as [|r rs IH]; simpl; trivial.
  destruct (valid r) eqn:E; simpl.
  - rewrite E. now rewrite IH.
  - destruct ti; simpl; rewrite ?E; apply IH.
Qed.

Lemma invalid_trim_list_invalid (k : nat) (tv : bool) (rs : list Replica) :
  invalid_replicas (trim_list k tv true rs) = [].
Proof.
  unfold invalid_replicas. revert k. induction rs as [|r rs IH]; intros k; simpl; trivial.
  destruct (valid r) eqn:E; simpl; trivial.
  destruct tv; [destruct k|]; simpl; rewrite ?E; simpl; apply IH.
Qed.

Lemma invalid_trim_list_keep (k : nat) (tv : bool) (rs : list Replica) :
  invalid_replicas (trim_list k tv false rs) = invalid_replicas rs.
Proof.
  unfold invalid_replicas. revert k. induction rs as [|r rs IH]; intros k; simpl; trivial.
  destruct (valid r) eqn:E; simpl.
  - destruct tv; [destruct k|]; simpl; rewrite ?E; simpl; apply IH.
  - rewrite E. simpl. now rewrite IH.
Qed.

Lemma trim_replicas_run (it : RodsItem) (k : nat) (tv ti : bool) (w : world)
  (o : object_state) :
  object_view it w = Ok o ->
  exists r,
    trim_replicas it k tv ti w
    = (Ok r, put_entry (item_path it) (EObject (trimmed k tv ti o))
               (add_events [Api it (ApiTrimReplicas k tv ti)] w)).
Proof.
  intros E. unfold trim_replicas, bind.
  rewrite emit_run, get_object_run, object_view_add_events, E. run.
  rewrite set_entry_run. run. eexists. reflexivity.
Qed.

Lemma has_complete_replicas_run (obj : RodsItem) (n : nat) (w : world) :
  has_complete_replicas obj n w
  = (result_map (fun o => Nat.eqb (List.length (valid_replicas (obj_replicas o))) n)
       (object_view obj w),
     add_events [Api obj ApiReplicas] w).
Proof.
  unfold has_complete_replicas, bind. rewrite replicas_run.
  now destruct (object_view obj w).
Qed.

Lemma has_trimmable_replicas_run (obj : RodsItem) (n : nat) (w : world) :
  has_trimmable_replicas obj n w
  = (result_map (fun o => nonempty (invalid_replicas (obj_replicas o))
                          || Nat.ltb n (List.length (valid_replicas (obj_replicas o))))
       (object_view obj w),
     add_events [Api obj ApiReplicas] w).
Proof.
  unfold has_trimmable_replicas, bind. rewrite replicas_run.
  now destruct (object_view obj w).
Qed.

Lemma trimmable_replicas_run (obj : RodsItem) (n : nat) (w : world) :
  trimmable_replicas obj n w
  = (result_map (fun o => (skipn n (valid_replicas (obj_replicas o)),
                           invalid_replicas (obj_replicas o)))
       (object_view obj w),
     add_events [Api obj ApiReplicas] w).
Proof.
  unfold trimmable_replicas, bind. rewrite replicas_run.
  now destruct (object_view obj w).
Qed.

Lemma nonempty_skipn {A} (n : nat) (l : list A) :
  nonempty (skipn n l) = Nat.ltb n (List.length l).
Proof.
  revert n. induction l as [|x l IH]; intros [|n]; simpl; trivial.
Qed.

(** X16. For a data object in the state [o], [repair_replicas.fn] returns
    success True and repair True when the object has trimmable replicas, and
    success True and repair False when it has none.  The calls it makes that
    change the server are: [trim_replicas(valid=True, invalid=False)] if
    there are more than [num_replicas] valid replicas, then
    [trim_replicas(valid=False, invalid=True)] if there are invalid ones.
    Neither call is given [min_replicas], so each is made with that method's
    own default of 2, whatever [num_replicas] is.  Nothing is checked after
    the trims: the valid replicas left are the first two when the first trim
    was made and all of them otherwise, and no invalid replica is left. *)
Theorem repair_replicas_trims_valid_then_invalid `{Environment}
  (num_replicas : nat) (print_repair print_fail : bool) (i : nat) (line : string)
  (w : world) (o : object_state) :
  let obj := object_of_line line in
  let excess := skipn num_replicas (valid_replicas (obj_replicas o)) in
  let invalid := invalid_replicas (obj_replicas o) in
  let trimmable := holds (has_trimmable_replicas obj num_replicas) w in
  object_view obj w = Ok o ->
  exists es w' o',
    repair_replicas_fn num_replicas print_repair print_fail i line w
    = (Ok (true, trimmable), w')
    /\ trimmable = nonempty invalid || nonempty excess
    /\ trace w' = trace w ++ es
    /\ filter is_mutation (api_calls es)
       = (if nonempty excess then [(obj, ApiTrimReplicas 2 true false)] else [])
         ++ (if nonempty invalid then [(obj, ApiTrimReplicas 2 false true)] else [])
    /\ (trimmable = false -> irods w' = irods w)
    /\ object_view obj w' = Ok o'
    /\ valid_replicas (obj_replicas o')
       = (if nonempty excess then firstn 2 (valid_replicas (obj_replicas o))
          else valid_replicas (obj_replicas o))
    /\ invalid_replicas (obj_replicas o') = [].
Proof.
  intros obj excess invalid trimmable E.
  assert (trimmable = nonempty invalid || nonempty excess) as Ht.
  { unfold trimmable, holds. rewrite has_trimmable_replicas_run, E. simpl.
    unfold excess. rewrite nonempty_skipn. fold invalid.
    now destruct (nonempty invalid || _). }
  rewrite Ht.
  unfold repair_replicas_fn, repair_replicas_try, repair_replicas_except, try_except, bind.
  fold (object_of_line line). fold obj.
  rewrite has_complete_replicas_run, E. run.
  rewrite has_trimmable_replicas_run, object_view_add_events, E. run.
  fold invalid. rewrite <- nonempty_skipn. fold excess.
  destruct (nonempty invalid) eqn:Ei, (nonempty excess) eqn:Ee;
    cbv beta iota delta [orb].
  - (* both trims *)
    rewrite trimmable_replicas_run, !object_view_add_events, E. run.
    fold excess. fold invalid. rewrite Ee, Ei. run.
    match goal with
    | |- context [trim_replicas obj 2 true false ?w0] =>
        destruct (trim_replicas_run obj 2 true false w0 o) as (r1 & E1);
          [rewrite !object_view_add_events; exact E|]
    end.
    rewrite E1. destruct r1 as [nv1 ni1]. run.
    unfold log. rewrite emit_run. run.
    match goal with
    | |- context [trim_replicas obj 2 false true ?w0] =>
        destruct (trim_replicas_run obj 2 false true w0 (trimmed 2 true false o))
          as (r2 & E2);
          [rewrite !object_view_add_events;
           apply (object_view_put_entry_same obj o);
           rewrite !object_view_add_events; exact E|]
    end.
    rewrite E2. destruct r2 as [nv2 ni2]. run.
    rewrite emit_run. run. rewrite when_print_run. run.
    do 3 eexists. split; [reflexivity|]. split; [reflexivity|].
    split; [unfold put_entry, add_events; simpl; rewrite <- !app_assoc; reflexivity|].
    split; [destruct print_repair; reflexivity|].
    split; [discriminate|].
    split.
    { rewrite !object_view_add_events.
      apply (object_view_put_entry_same obj (trimmed 2 true false o)).
      rewrite !object_view_add_events.
      apply (object_view_put_entry_same obj o).
      rewrite !object_view_add_events. exact E. }
    unfold trimmed. simpl.
    now rewrite valid_trim_list_keep, valid_trim_list_valid, invalid_trim_list_invalid.
  - (* invalid replicas only *)
    rewrite trimmable_replicas_run, !object_view_add_events, E. run.
    fold excess. fold invalid. rewrite Ee, Ei. run.
    match goal with
    | |- context [trim_replicas obj 2 false true ?w0] =>
        destruct (trim_replicas_run obj 2 false true w0 o) as (r2 & E2);
          [rewrite !object_view_add_events; exact E|]
    end.
    rewrite E2. destruct r2 as [nv2 ni2]. run.
    unfold log. rewrite emit_run. run. rewrite when_print_run. run.
    do 3 eexists. split; [reflexivity|]. split; [reflexivity|].
    split; [unfold put_entry, add_events; simpl; rewrite <- !app_assoc; reflexivity|].
    split; [destruct print_repair; reflexivity|].
    split; [discriminate|].
    split.
    { rewrite !object_view_add_events.
      apply (object_view_put_entry_same obj o).
      rewrite !object_view_add_events. exact E. }
    unfold trimmed. simpl.
    now rewrite valid_trim_list_keep, invalid_trim_list_invalid.
  - (* excess valid replicas only *)
    rewrite trimmable_replicas_run, !object_view_add_events, E. run.
    fold excess. fold invalid. rewrite Ee, Ei. run.
    match goal with
    | |- context [trim_replicas obj 2 true false ?w0] =>
        destruct (trim_replicas_run obj 2 true false w0 o) as (r1 & E1);
          [rewrite !object_view_add_events; exact E|]
    end.
    rewrite E1. destruct r1 as [nv1 ni1]. run.
    unfold log. rewrite emit_run. run. rewrite when_print_run. run.
    do 3 eexists. split; [reflexivity|]. split; [reflexivity|].
    split; [unfold put_entry, add_events; simpl; rewrite <- !app_assoc; reflexivity|].
    split; [destruct print_repair; reflexivity|].
    split; [discriminate|].
    split.
    { rewrite !object_view_add_events.
      apply (object_view_put_entry_same obj o).
      rewrite !object_view_add_events. exact E. }
    unfold trimmed. simpl.
    rewrite valid_trim_list_valid, invalid_trim_list_keep. split; trivial.
    fold invalid. now destruct invalid.
  - (* nothing to trim *)
    rewrite has_complete_checksums_run, !object_view_add_events, E. run.
    rewrite has_matching_checksums_run, !object_view_add_events, E. run.
    rewrite has_checksum_metadata_run, has_matching_checksum_metadata_run,
      !object_view_add_events, E. run.
    unfold log. rewrite emit_run. run. rewrite !add_events_app.
    do 3 eexists. split; [reflexivity|]. split; [reflexivity|].
    split; [reflexivity|]. split; [reflexivity|]. split; [reflexivity|].
    split; [rewrite object_view_add_events; exact E|].
    split; trivial. fold invalid. now destruct invalid.
Qed.

(* ================================================================== *)
(** ** [check_common_metadata] and [repair_common_metadata] *)





(** An item that already has its common metadata leaves the [try] suite of
    [repair_common_metadata.fn] with [success] still False. *)
Lemma repair_common_metadata_fn_complete `{Environment} (creator : option string)
  (pr pf : bool) (i : nat) (line : string) (w w1 : world) :
  has_common_metadata (object_of_line line) w = (Ok true, w1) ->
  repair_common_metadata_fn creator pr pf i line w = (Ok false, w1).
Proof.
  unfold repair_common_metadata_fn, repair_common_metadata_try, try_except, bind,
    object_of_line.
  now intros ->.
Qed.

(** C3, at an item whose common metadata are complete: [has_common_metadata]
    holds of [/zone/good], nothing is raised, and [repair_common_metadata.fn]
    returns False for it, so that [repair_common_metadata] returns False for
    a reader of that one line. *)
Theorem repair_common_metadata_fails_complete_item :
  fst (@has_common_metadata reference (object_of_line "/zone/good")
         (start repair_zone)) = Ok true
  /\ is_ok (fst (@repair_common_metadata_try reference None true 0 "/zone/good"
                   (start repair_zone))) = true
  /\ fst (@repair_common_metadata_fn reference None true true 0 "/zone/good"
            (start repair_zone)) = Ok false
  /\ fst (@repair_common_metadata reference ["/zone/good"] None true true
            (start repair_zone)) = Ok false.
Proof. repeat split; reflexivity. Qed.

(** The other half of C3: for an item that lacks common metadata, success is
    returned as soon as the suite raises nothing, whichever boolean
    [ensure_common_metadata] returned. *)
Lemma repair_common_metadata_fn_incomplete `{Environment} (creator : option string)
  (pr pf : bool) (i : nat) (line : string) (w w1 : world) :
  has_common_metadata (object_of_line line) w = (Ok false, w1) ->
  is_ok (fst (repair_common_metadata_try creator pr i (strip line) w)) = true ->
  fst (repair_common_metadata_fn creator pr pf i line w) = Ok true.
Proof.
  unfold repair_common_metadata_fn, repair_common_metadata_try, try_except, bind,
    object_of_line.
  intros ->. cbv beta iota delta [negb].
  repeat match goal with
  | |- context [let (_, _) := ?m ?w0 in _] =>
      lazymatch m with
      | context [let (_, _) := _ in _] => fail
      | _ => destruct (m w0) as [[?|?] ?]; simpl; try discriminate
      end
  end.
  all: try reflexivity.
Qed.

(* ================================================================== *)
(** ** [copy] *)

Lemma resolve_run (x : PurePath + RodsItem) (w w1 : world) (it : RodsItem) :
  resolve x w = (Ok it, w1) ->
  exists es, w1 = add_events es w /\ read_only es /\ commands_run es = [].
Proof.
  destruct x as [p|it']; simpl.
  - unfold make_rods_item, bind. rewrite emit_run, stat_add_events.
    unfold stat. destruct (fault_at p (faults w)); simpl; [discriminate|].
    destruct (lookup p (irods w)) as [[o|c]|]; simpl; try discriminate.
    all: intros [= <- <-]; eexists; split; [reflexivity|]; split;
      [repeat constructor | reflexivity].
  - intros [= <- <-]. exists []. rewrite add_events_nil.
    split; [reflexivity|]. split; [constructor | reflexivity].
Qed.

Lemma copy_unfold `{Environment} (depth : nat) (src dest : PurePath + RodsItem)
  (acl avu exist_ok recurse : bool) (w : world) (s d : RodsItem) (w1 w2 : world)
  (es : entry) :
  resolve src w = (Ok s, w1) ->
  resolve dest w1 = (Ok d, w2) ->
  entry_view s w = Ok es ->
  copy (S depth) src dest acl avu exist_ok recurse w
  = (dt <- get_rods_type d ;;
     match type_of_entry es, dt with
     | TCollection, Some TDataObject =>
         raise (ValueError ("Cannot copy a collection " ++ item_str s
                            ++ " into a data object " ++ item_str d)%string)
     | TCollection, _ =>
         let coll := Collection (path_join (dot_path d) (path_name (dot_path s))) in
         nc <- _maybe_copy_coll exist_ok coll s coll ;;
         _cp_avu_acl acl avu s coll ;;;
         if recurse then
           items <- contents s ;;
           copy_contents
             (fun item =>
                copy depth (inr item) (inr (Collection (dot_path coll)))
                     acl avu exist_ok true)
             items 1 nc
         else ret (1, nc)
     | TDataObject, Some TCollection =>
         let obj := new_DataObject (path_join (dot_path d) (item_name s)) in
         nc <- _maybe_copy_obj exist_ok s obj ;;
         _cp_avu_acl acl avu s obj ;;;
         ret (1, nc)
     | TDataObject, _ =>
         nc <- _maybe_copy_obj exist_ok s d ;;
         _cp_avu_acl acl avu s d ;;;
         ret (1, nc)
     end) (add_events [Api s ApiRodsType] w2).
Proof.
  intros Hs Hd Es.
  destruct (resolve_run _ _ _ _ Hs) as (es1 & -> & _).
  destruct (resolve_run _ _ _ _ Hd) as (es2 & -> & _).
  cbn [copy]. unfold bind at 1. rewrite Hs. run.
  unfold bind at 1. rewrite Hd. run.
  unfold bind at 1. rewrite (get_rods_type_run s _ es) by exact Es. run.
  destruct es as [o|c]; reflexivity.
Qed.

(** C9. When the source is a collection and the destination is a data
    object that exists, [copy] raises the [ValueError] of its first [case],
    whatever [acl], [avu], [exist_ok] and [recurse] are and whatever the two
    items hold; nothing inside [copy] catches it, and the catalogue is
    untouched. *)
Theorem copy_collection_into_object_raises `{Environment}
  (depth : nat) (src dest : PurePath + RodsItem) (acl avu exist_ok recurse : bool)
  (w w1 w2 : world) (s d : RodsItem) (c : collection_state) (o : object_state) :
  resolve src w = (Ok s, w1) ->
  resolve dest w1 = (Ok d, w2) ->
  entry_view s w = Ok (ECollection c) ->
  entry_view d w = Ok (EObject o) ->
  copy (S depth) src dest acl avu exist_ok recurse w
  = (Raise (ValueError ("Cannot copy a collection " ++ item_str s
                        ++ " into a data object " ++ item_str d)%string),
     add_events [Api s ApiRodsType; Api d ApiRodsType] w2)
  /\ irods w2 = irods w.
Proof.
  intros Hs Hd Es Ed.
  rewrite (copy_unfold depth src dest acl avu exist_ok recurse w s d w1 w2 _ Hs Hd Es).
  destruct (resolve_run _ _ _ _ Hs) as (es1 & -> & _).
  destruct (resolve_run _ _ _ _ Hd) as (es2 & -> & _).
  unfold bind. rewrite (get_rods_type_run d _ (EObject o)) by exact Ed.
  run. simpl type_of_entry. cbv beta iota. rewrite add_events_app.
  split; reflexivity.
Qed.

(** In [tree_zone], [/root/b] is a collection and [/root/a] a data object. *)
Lemma copy_collection_into_object_raises_witness :
  @copy reference 1 (inl ["/"; "root"; "b"]) (inl ["/"; "root"; "a"])
        true true true true (start tree_zone)
  = (Raise (ValueError "Cannot copy a collection /root/b into a data object /root/a"),
     add_events [Api (Collection ["/"; "root"; "b"]) ApiRodsType;
                 Api (DataObject ["/"; "root"] "a") ApiRodsType]
       (add_events [Api (Collection ["/"; "root"; "b"]) ApiMakeRodsItem;
                    Api (Collection ["/"; "root"; "a"]) ApiMakeRodsItem]
          (start tree_zone)))
  /\ irods (add_events [Api (Collection ["/"; "root"; "b"]) ApiMakeRodsItem;
                        Api (Collection ["/"; "root"; "a"]) ApiMakeRodsItem]
              (start tree_zone))
     = irods (start tree_zone).
Proof.
  apply (@copy_collection_into_object_raises reference 0
           (inl ["/"; "root"; "b"]) (inl ["/"; "root"; "a"]) true true true true
           (start tree_zone)
           (add_events [Api (Collection ["/"; "root"; "b"]) ApiMakeRodsItem]
              (start tree_zone))
           (add_events [Api (Collection ["/"; "root"; "b"]) ApiMakeRodsItem;
                        Api (Collection ["/"; "root"; "a"]) ApiMakeRodsItem]
              (start tree_zone))
           (Collection ["/"; "root"; "b"]) (DataObject ["/"; "root"] "a")
           (mkColl [] [])
           (mkObject (Some "aaa") [rep 0 "aaa" true; rep 1 "aaa" true]
              [mkAVU "md5" "aaa" None; mkAVU "dcterms:created" "17" None;
               mkAVU "dcterms:creator" "npg" None; mkAVU "type" "cram" None]
              [mkAC "npg" "seq" "own"])).
  all: reflexivity.
Defined.

Lemma subprocess_run_run `{Environment} (cmd : list string) (w : world) :
  subprocess_run cmd w
  = (Ok (fst (fst (icp cmd (irods w))), snd (fst (icp cmd (irods w)))),
     set_irods (snd (icp cmd (irods w))) (add_events [Subprocess cmd] w)).
Proof.
  unfold subprocess_run, bind. rewrite emit_run. run.
  unfold get_irods, put_irods. simpl.
  destruct (icp cmd (irods w)) as [[rc err] cat']. reflexivity.
Qed.

Lemma irods_add_events (es : list event) (w : world) :
  irods (add_events es w) = irods w.
Proof. reflexivity. Qed.

(** With [exist_ok] unset, [_maybe_copy_obj] is three log records and the
    run of [icp -K]. *)
Lemma _maybe_copy_obj_no_exist_ok `{Environment} (s d : RodsItem) (w : world) :
  exists logs,
    _maybe_copy_obj false s d w
    = ((if Z.eqb (fst (fst (icp (icp_command s d) (irods w)))) 0 then Ok 1
        else Raise (RodsError (strip (snd (fst (icp (icp_command s d) (irods w))))) 0)),
       set_irods (snd (icp (icp_command s d) (irods w)))
         (add_events (logs ++ [Subprocess (icp_command s d)]) w))
    /\ api_calls logs = [] /\ commands_run logs = [].
Proof.
  exists [Log Info "Copying data object" [("src", FItem s); ("dest", FItem d)];
          Log Debug "Running command" [("cmd", FStrs (icp_command s d))];
          Log Info "Copying data object"
            [("src", FStr (item_str s)); ("dest", FStr (item_str d));
             ("force", FBool false)]].
  split; [|split; reflexivity].
  unfold _maybe_copy_obj, _icp, bind, log. run. rewrite !emit_run. run.
  change (["icp"] ++ [] ++ ["-K"] ++ [item_str s] ++ [item_str d])
    with (icp_command s d).
  rewrite subprocess_run_run.
  rewrite !irods_add_events.
  destruct (icp (icp_command s d) (irods w)) as [[rc err] cat'].
  cbn [fst snd]. cbv beta iota.
  rewrite !add_events_app.
  destruct (Z.eqb rc 0); reflexivity.
Qed.

Lemma entry_view_no_checksum_error (it : RodsItem) (w : world) :
  is_checksum_error (entry_view it w) = false.
Proof.
  unfold entry_view. destruct (fault_at (item_path it) (faults w)) as [[m c|m]|]; trivial.
  now destruct (lookup (item_path it) (irods w)).
Qed.

Lemma result_map_no_checksum_error {A B} (f : A -> B) (r : result A) :
  is_checksum_error r = false -> is_checksum_error (result_map f r) = false.
Proof. now destruct r. Qed.

Lemma add_metadata_run (it : RodsItem) (avus : list AVU) (w : world) :
  add_metadata it avus w
  = match entry_view it w with
    | Ok e =>
        (Ok (List.length (missing_from avu_eqb (entry_metadata e) avus)),
         put_entry (item_path it)
           (with_metadata e
              (entry_metadata e ++ missing_from avu_eqb (entry_metadata e) avus))
           (add_events [Api it (ApiAddMetadata avus)] w))
    | Raise x => (Raise x, add_events [Api it (ApiAddMetadata avus)] w)
    end.
Proof.
  unfold add_metadata, bind. rewrite emit_run, get_entry_run, entry_view_add_events.
  destruct (entry_view it w); run; trivial.
Qed.

Lemma add_permissions_run (it : RodsItem) (acl : list AC) (w : world) :
  add_permissions it acl w
  = match entry_view it w with
    | Ok e =>
        (Ok (List.length (missing_from ac_eqb (entry_permissions e) acl)),
         put_entry (item_path it)
           (with_permissions e
              (entry_permissions e ++ missing_from ac_eqb (entry_permissions e) acl))
           (add_events [Api it (ApiAddPermissions acl)] w))
    | Raise x => (Raise x, add_events [Api it (ApiAddPermissions acl)] w)
    end.
Proof.
  unfold add_permissions, bind. rewrite emit_run, get_entry_run, entry_view_add_events.
  destruct (entry_view it w); run; trivial.
Qed.

Ltac step := cbv beta iota delta [result_map ret raise].

Ltac quiet_read :=
  match goal with
  | |- context [match entry_view ?it ?w0 with _ => _ end] =>
      let Hq := fresh "Hq" in
      pose proof (entry_view_no_checksum_error it w0) as Hq;
      destruct (entry_view it w0); step
  end.

Ltac quiet_done :=
  do 3 eexists; split; [reflexivity|]; split; [assumption || reflexivity|];
  split;
  [ unfold put_entry, add_events; cbn [trace]; rewrite <- ?app_assoc;
    first [reflexivity | symmetry; apply app_nil_r]
  | reflexivity ].

(** [_cp_avu_acl] runs no command and raises no [ChecksumError]. *)
Lemma _cp_avu_acl_quiet (acl avu : bool) (s d : RodsItem) (w : world) :
  exists r w' es,
    _cp_avu_acl acl avu s d w = (r, w')
    /\ is_checksum_error r = false
    /\ trace w' = trace w ++ es
    /\ commands_run es = [].
Proof.
  unfold _cp_avu_acl, bind, log.
  destruct avu, acl; step.
  - rewrite metadata_run. step. quiet_read; [|quiet_done].
    rewrite add_metadata_run, entry_view_add_events. quiet_read; [|quiet_done].
    rewrite emit_run. step.
    rewrite permissions_run. step. quiet_read; [|quiet_done].
    rewrite add_permissions_run, entry_view_add_events. quiet_read; [|quiet_done].
    rewrite emit_run. step. quiet_done.
  - rewrite metadata_run. step. quiet_read; [|quiet_done].
    rewrite add_metadata_run, entry_view_add_events. quiet_read; [|quiet_done].
    rewrite emit_run. step. quiet_done.
  - rewrite permissions_run. step. quiet_read; [|quiet_done].
    rewrite add_permissions_run, entry_view_add_events. quiet_read; [|quiet_done].
    rewrite emit_run. step. quiet_done.
  - quiet_done.
Qed.

Lemma get_rods_type_run_any (it : RodsItem) (w : world) :
  fault_at (item_path it) (faults w) = None ->
  get_rods_type it w
  = (Ok (option_map type_of_entry (lookup (item_path it) (irods w))),
     add_events [Api it ApiRodsType] w).
Proof.
  intros Hf. unfold get_rods_type, bind.
  now rewrite emit_run, stat_add_events, stat_found.
Qed.

(** C10. With [exist_ok] unset, [copy] of a data object asks the server for
    the kinds of the source and of the destination and, after three log
    records, runs [icp -K] on the source and the destination object: no call
    to [exists] or to [checksum] is made in between, whether or not anything
    is stored at the destination.  A non-zero exit status of [icp] comes out
    of [copy] as the [RodsError] that [_icp] makes of its standard error, and
    in no case does [copy] raise a [ChecksumError]. *)
Theorem copy_without_exist_ok_runs_icp `{Environment}
  (depth : nat) (src dest : PurePath + RodsItem) (acl avu recurse : bool)
  (w w1 w2 : world) (s d : RodsItem) (os : object_state) :
  resolve src w = (Ok s, w1) ->
  resolve dest w1 = (Ok d, w2) ->
  entry_view s w = Ok (EObject os) ->
  fault_at (item_path d) (faults w) = None ->
  let dest_type := option_map type_of_entry (lookup (item_path d) (irods w)) in
  let target := copy_target s d dest_type in
  let out := icp (icp_command s target) (irods w) in
  exists r w' logs rest,
    copy (S depth) src dest acl avu false recurse w = (r, w')
    /\ trace w' = trace w2 ++ [Api s ApiRodsType; Api d ApiRodsType] ++ logs
                  ++ [Subprocess (icp_command s target)] ++ rest
    /\ api_calls logs = []
    /\ commands_run logs = []
    /\ commands_run rest = []
    /\ (fst (fst out) <> 0%Z ->
        r = Raise (RodsError (strip (snd (fst out))) 0)
        /\ rest = [] /\ irods w' = snd out)
    /\ is_checksum_error r = false.
Proof.
  intros Hs Hd Es Fd dest_type target out.
  rewrite (copy_unfold depth src dest acl avu false recurse w s d w1 w2 _ Hs Hd Es).
  destruct (resolve_run _ _ _ _ Hs) as (es1 & -> & _).
  destruct (resolve_run _ _ _ _ Hd) as (es2 & -> & _).
  unfold bind at 1. rewrite get_rods_type_run_any by exact Fd. step.
  rewrite !irods_add_events. fold dest_type. simpl type_of_entry. cbv beta iota.
  assert (exists r w' logs rest,
    (nc <- _maybe_copy_obj false s target ;;
     _cp_avu_acl acl avu s target ;;;
     ret (1, nc))
      (add_events [Api d ApiRodsType]
         (add_events [Api s ApiRodsType] (add_events es2 (add_events es1 w))))
    = (r, w')
    /\ trace w' = trace (add_events es2 (add_events es1 w))
                  ++ [Api s ApiRodsType; Api d ApiRodsType] ++ logs
                  ++ [Subprocess (icp_command s target)] ++ rest
    /\ api_calls logs = []
    /\ commands_run logs = []
    /\ commands_run rest = []
    /\ (fst (fst out) <> 0%Z ->
        r = Raise (RodsError (strip (snd (fst out))) 0)
        /\ rest = [] /\ irods w' = snd out)
    /\ is_checksum_error r = false) as Hgoal.
  { unfold bind at 1.
    match goal with
    | |- context [_maybe_copy_obj false s target ?w0] =>
        destruct (_maybe_copy_obj_no_exist_ok s target w0) as (logs & Em & Hl1 & Hl2)
    end.
    rewrite Em. rewrite !irods_add_events. fold out.
    destruct (Z.eqb (fst (fst out)) 0) eqn:Erc.
    - unfold bind.
      match goal with
      | |- context [_cp_avu_acl acl avu s target ?w0] =>
          destruct (_cp_avu_acl_quiet acl avu s target w0) as (r & w' & es & Ec & Hr & Ht & Hc)
      end.
      rewrite Ec. exists (match r with Ok _ => Ok (1, 1) | Raise e => Raise e end), w', logs, es.
      split; [now destruct r|]. split.
      { rewrite Ht. unfold set_irods, add_events. cbn [trace].
        rewrite <- !app_assoc. reflexivity. }
      repeat split; trivial.
      + apply Z.eqb_eq in Erc. contradiction.
      + apply Z.eqb_eq in Erc. contradiction.
      + apply Z.eqb_eq in Erc. contradiction.
      + now destruct r.
    - do 2 eexists. exists logs, []. split; [reflexivity|]. split.
      { unfold set_irods, add_events. cbn [trace].
        rewrite <- !app_assoc. reflexivity. }
      repeat split; trivial. }
  unfold target, copy_target in Hgoal.
  destruct dest_type as [[|]|]; exact Hgoal.
Qed.

Lemma lookup_replace_entry_some (p q : PurePath) (e e' : entry) (cat : catalogue) :
  lookup p cat = Some e -> exists e'', lookup p (replace_entry q e' cat) = Some e''.
Proof.
  intros Hl. destruct (path_eqb p q) eqn:E.
  - apply path_eqb_eq in E. subst q. exists e'. now apply (lookup_replace_entry_same p e).
  - exists e. now rewrite lookup_replace_entry_other.
Qed.

Lemma entry_view_put_entry_ok (it : RodsItem) (q : PurePath) (e e' : entry) (w : world) :
  entry_view it w = Ok e -> exists e'', entry_view it (put_entry q e' w) = Ok e''.
Proof.
  intros Hv. apply entry_view_inv in Hv as [Hf Hl].
  destruct (lookup_replace_entry_some _ q _ e' _ Hl) as (e'' & Hl').
  exists e''. unfold entry_view, put_entry. simpl. now rewrite Hf, Hl'.
Qed.

(** With source and destination both there, [_cp_avu_acl] goes through. *)
Lemma _cp_avu_acl_ok (acl avu : bool) (s d : RodsItem) (w : world) (es ed : entry) :
  entry_view s w = Ok es ->
  entry_view d w = Ok ed ->
  exists w' ev,
    _cp_avu_acl acl avu s d w = (Ok tt, w')
    /\ trace w' = trace w ++ ev
    /\ commands_run ev = [].
Proof.
  intros Es Ed. unfold _cp_avu_acl, bind, log.
  destruct avu, acl; step.
  - rewrite metadata_run, Es. step.
    rewrite add_metadata_run, entry_view_add_events, Ed. step.
    rewrite emit_run. step.
    match goal with
    | |- context [permissions s (add_events ?l (put_entry ?q ?e' ?w0))] =>
        destruct (entry_view_put_entry_ok s q es e' w0) as (es' & Es');
          [rewrite !entry_view_add_events; exact Es|];
        destruct (entry_view_put_entry_ok d q ed e' w0) as (ed' & Ed');
          [rewrite !entry_view_add_events; exact Ed|]
    end.
    rewrite permissions_run, entry_view_add_events, Es'. step.
    rewrite add_permissions_run, !entry_view_add_events, Ed'. step.
    rewrite emit_run. step.
    do 2 eexists. split; [reflexivity|]. split.
    { unfold put_entry, add_events. cbn [trace]. rewrite <- !app_assoc. reflexivity. }
    reflexivity.
  - rewrite metadata_run, Es. step.
    rewrite add_metadata_run, entry_view_add_events, Ed. step.
    rewrite emit_run. step.
    do 2 eexists. split; [reflexivity|]. split.
    { unfold put_entry, add_events. cbn [trace]. rewrite <- !app_assoc. reflexivity. }
    reflexivity.
  - rewrite permissions_run, Es. step.
    rewrite add_permissions_run, entry_view_add_events, Ed. step.
    rewrite emit_run. step.
    do 2 eexists. split; [reflexivity|]. split.
    { unfold put_entry, add_events. cbn [trace]. rewrite <- !app_assoc. reflexivity. }
    reflexivity.
  - exists w, []. split; [reflexivity|]. split; [|reflexivity].
    now rewrite app_nil_r.
Qed.

Lemma entry_view_object (it : RodsItem) (w : world) (o : object_state) :
  entry_view it w = Ok (EObject o) -> object_view it w = Ok o.
Proof. unfold object_view. now intros ->. Qed.

(** The checks that [_maybe_copy_obj] makes when [exist_ok] is set and the
    destination exists. *)
Lemma _maybe_copy_obj_exist_ok `{Environment} (s d : RodsItem) (w : world)
  (os od : object_state) :
  entry_view s w = Ok (EObject os) ->
  entry_view d w = Ok (EObject od) ->
  let inconsistent :=
    negb (opt_eqb (obj_checksum os) (obj_checksum od))
    || negb (matching_checksums (obj_replicas os))
    || negb (matching_checksums (obj_replicas od)) in
  exists r ev,
    _maybe_copy_obj true s d w = (r, add_events ev w)
    /\ read_only ev
    /\ commands_run ev = []
    /\ (inconsistent = true -> is_checksum_error r = true)
    /\ (inconsistent = false -> r = Ok 0).
Proof.
  intros Es Ed inconsistent. unfold inconsistent. clear inconsistent.
  pose proof (entry_view_object _ _ _ Es) as Os.
  pose proof (entry_view_object _ _ _ Ed) as Od.
  unfold _maybe_copy_obj, bind, log, read_only.
  rewrite (exists_run d w _ Ed). step.
  rewrite get_checksum_run, object_view_add_events, Os. step.
  rewrite get_checksum_run, !object_view_add_events, Od. step.
  destruct (opt_eqb (obj_checksum os) (obj_checksum od)); cbv beta iota delta [negb orb].
  - step.
    rewrite has_matching_checksums_run, !object_view_add_events, Os. step.
    destruct (matching_checksums (obj_replicas os)); cbv beta iota delta [negb orb].
    + step.
      rewrite has_matching_checksums_run, !object_view_add_events, Od. step.
      destruct (matching_checksums (obj_replicas od)); cbv beta iota delta [negb orb].
      * step. rewrite get_checksum_run, !object_view_add_events, Od. step.
        rewrite emit_run. step. rewrite !add_events_app.
        do 2 eexists. split; [reflexivity|].
        split; [simpl; repeat constructor|]. split; [reflexivity|].
        split; [discriminate | reflexivity].
      * rewrite replicas_run, !object_view_add_events, Od. step.
        rewrite !add_events_app.
        do 2 eexists. split; [reflexivity|].
        split; [simpl; repeat constructor|]. split; [reflexivity|].
        split; [reflexivity | discriminate].
    + rewrite replicas_run, !object_view_add_events, Os. step.
      rewrite !add_events_app.
      do 2 eexists. split; [reflexivity|].
      split; [simpl; repeat constructor|]. split; [reflexivity|].
      split; [reflexivity | discriminate].
  - rewrite get_checksum_run, !object_view_add_events, Od. step.
    rewrite get_checksum_run, !object_view_add_events, Os. step.
    rewrite !add_events_app.
    do 2 eexists. split; [reflexivity|].
    split; [simpl; repeat constructor|]. split; [reflexivity|].
    split; [reflexivity | discriminate].
Qed.

(** C2. With [exist_ok] set, a data object as source and a data object
    already at the destination, [copy] raises a [ChecksumError] exactly when
    the checksums of the two objects differ, or the valid replicas of the
    source disagree, or those of the destination disagree; in that case the
    catalogue is untouched.  Otherwise it returns (1, 0): the item is
    processed and not copied.  In neither case is [icp] run. *)
Theorem copy_exist_ok_skips_or_raises `{Environment}
  (depth : nat) (src dest : PurePath + RodsItem) (acl avu recurse : bool)
  (w w1 w2 : world) (s d : RodsItem) (os od : object_state) (ed : entry) :
  resolve src w = (Ok s, w1) ->
  resolve dest w1 = (Ok d, w2) ->
  entry_view s w = Ok (EObject os) ->
  entry_view d w = Ok ed ->
  entry_view (copy_target s d (Some (type_of_entry ed))) w = Ok (EObject od) ->
  let inconsistent :=
    negb (opt_eqb (obj_checksum os) (obj_checksum od))
    || negb (matching_checksums (obj_replicas os))
    || negb (matching_checksums (obj_replicas od)) in
  exists r w',
    copy (S depth) src dest acl avu true recurse w = (r, w')
    /\ commands_run (trace w') = commands_run (trace w)
    /\ (inconsistent = true -> is_checksum_error r = true /\ irods w' = irods w)
    /\ (inconsistent = false -> r = Ok (1, 0)).
Proof.
  intros Hs Hd Es Ed Et inconsistent.
  rewrite (copy_unfold depth src dest acl avu true recurse w s d w1 w2 _ Hs Hd Es).
  destruct (resolve_run _ _ _ _ Hs) as (es1 & -> & _ & C1).
  destruct (resolve_run _ _ _ _ Hd) as (es2 & -> & _ & C2).
  unfold bind at 1. rewrite (get_rods_type_run d _ ed) by exact Ed. step.
  change (type_of_entry (EObject os)) with TDataObject.
  destruct ed as [o|c]; cbn [type_of_entry copy_target] in Et |- *; cbv beta iota zeta;
  unfold bind at 1;
  match goal with
  | |- context [_maybe_copy_obj true s ?t ?w0] =>
      destruct (_maybe_copy_obj_exist_ok s t w0 os od)
        as (r & ev & Em & _ & Cm & Hbad & Hgood);
        [rewrite !entry_view_add_events; assumption ..|]
  end;
  rewrite Em; fold inconsistent in Hbad, Hgood;
  (destruct inconsistent;
   [ specialize (Hbad eq_refl);
     destruct r as [n|e]; [discriminate|];
     do 2 eexists; split; [reflexivity|]; split; [|split; [|discriminate]];
     [ unfold add_events; cbn [trace]; rewrite !commands_run_app, C1, C2, Cm;
       simpl; now rewrite !app_nil_r
     | intros _; split; [exact Hbad | reflexivity] ]
   | rewrite (Hgood eq_refl); step; unfold bind;
     match goal with
     | |- context [_cp_avu_acl acl avu s ?t ?w0] =>
         destruct (_cp_avu_acl_ok acl avu s t w0 (EObject os) (EObject od))
           as (w' & ev' & Ec & Ht & Hc);
           [rewrite !entry_view_add_events; assumption ..|]
     end;
     rewrite Ec; step;
     do 2 eexists; split; [reflexivity|]; split; [|split; [discriminate|reflexivity]];
     rewrite Ht; unfold add_events; cbn [trace];
     rewrite !commands_run_app, C1, C2, Cm, Hc; simpl; now rewrite !app_nil_r ]).
Qed.

(** [/root/a] is copied to [/root/d], which does not exist yet, and then
    once more with [exist_ok] set: the second copy is (1, 0). *)

Lemma copy_exist_ok_skips_or_raises_witness :
  fst (@copy reference 1 (inl ["/"; "root"; "a"]) (inr (DataObject ["/"; "root"] "d"))
         false false true false (start tree_zone)) = Ok (1, 1)
  /\ exists w',
      @copy reference 1 (inl ["/"; "root"; "a"]) (inr (DataObject ["/"; "root"] "d"))
        false false true false after_first_copy = (Ok (1, 0), w')
      /\ commands_run (trace w') = commands_run (trace after_first_copy).
Proof.
  split; [reflexivity|].
  destruct (@copy_exist_ok_skips_or_raises reference 0
              (inl ["/"; "root"; "a"]) (inr (DataObject ["/"; "root"] "d"))
              false false false after_first_copy
              (add_events [Api (Collection ["/"; "root"; "a"]) ApiMakeRodsItem]
                 after_first_copy)
              (add_events [Api (Collection ["/"; "root"; "a"]) ApiMakeRodsItem]
                 after_first_copy)
              (DataObject ["/"; "root"] "a") (DataObject ["/"; "root"] "d")
              (mkObject (Some "aaa") [rep 0 "aaa" true; rep 1 "aaa" true]
                 [mkAVU "md5" "aaa" None; mkAVU "dcterms:created" "17" None;
                  mkAVU "dcterms:creator" "npg" None; mkAVU "type" "cram" None]
                 [mkAC "npg" "seq" "own"])
              (mkObject (Some "aaa") [mkReplica "resc0" 0 0 (Some "aaa") true] [] [])
              (EObject (mkObject (Some "aaa") [mkReplica "resc0" 0 0 (Some "aaa") true]
                          [] []))
              eq_refl eq_refl eq_refl eq_refl eq_refl)
    as (r & w' & E & Hc & _ & Hgood).
  exists w'. split; [|exact Hc].
  rewrite E. f_equal. apply Hgood. reflexivity.
Defined.

(** [/root/b/c] exists, so that [icp] without [-f] declines to write it. *)
Lemma copy_without_exist_ok_runs_icp_witness :
  exists r w',
    @copy reference 1 (inl ["/"; "root"; "a"]) (inl ["/"; "root"; "b"; "c"])
      false false false false (start tree_zone) = (r, w')
    /\ r = Raise (RodsError
                   "remote addresses: 127.0.0.1 ERROR: icp: /root/b/c OVERWRITE_WITHOUT_FORCE_FLAG"
                   0)
    /\ is_checksum_error r = false.
Proof.
  destruct (@copy_without_exist_ok_runs_icp reference 0
              (inl ["/"; "root"; "a"]) (inl ["/"; "root"; "b"; "c"])
              false false false (start tree_zone)
              (add_events [Api (Collection ["/"; "root"; "a"]) ApiMakeRodsItem]
                 (start tree_zone))
              (add_events [Api (Collection ["/"; "root"; "a"]) ApiMakeRodsItem;
                           Api (Collection ["/"; "root"; "b"; "c"]) ApiMakeRodsItem]
                 (start tree_zone))
              (DataObject ["/"; "root"] "a") (DataObject ["/"; "root"; "b"] "c")
              (mkObject (Some "aaa") [rep 0 "aaa" true; rep 1 "aaa" true]
                 [mkAVU "md5" "aaa" None; mkAVU "dcterms:created" "17" None;
                  mkAVU "dcterms:creator" "npg" None; mkAVU "type" "cram" None]
                 [mkAC "npg" "seq" "own"])
              eq_refl eq_refl eq_refl eq_refl)
    as (r & w' & logs & rest & E & _ & _ & _ & _ & Hrc & Hce).
  exists r, w'. split; [exact E|]. split; [|exact Hce].
  apply Hrc. discriminate.
Defined.

(* ================================================================== *)
(** ** The statements above, at sample zones *)

(** The tree [root/ { a, b/ { c } }]: [a], then [c], then [b], then [root]. *)
Lemma write_safe_remove_commands_children_first_witness :
  exists w' plan,
    write_safe_remove_commands (inl ["/"; "root"]) (start tree_zone) = (Ok tt, w')
    /\ printed (trace w') = printed (trace (start tree_zone)) ++ plan
    /\ written (trace w')
       = ["irm /root/a"; "irm /root/b/c"; "irmdir /root/b"; "irmdir /root"].
Proof.
  destruct (write_safe_remove_commands_children_first
              (inl ["/"; "root"]) ["/"; "root"] (mkColl [] []) (start tree_zone)
              (or_introl eq_refl) eq_refl eq_refl)
    as (w' & plan & E & Hp & _).
  exists w', plan. split; [exact E|]. split; [exact Hp|].
  assert (w' = snd (write_safe_remove_commands (inl ["/"; "root"]) (start tree_zone)))
    as -> by now rewrite E.
  reflexivity.
Defined.

(** [/zone/spare] has three valid replicas and one invalid one. *)
Lemma repair_replicas_trims_valid_then_invalid_witness :
  exists es w' o',
    @repair_replicas_fn reference 2 true true 0 "/zone/spare" (start repair_zone)
    = (Ok (true, true), w')
    /\ trace w' = trace (start repair_zone) ++ es
    /\ filter is_mutation (api_calls es)
       = [(object_of_line "/zone/spare", ApiTrimReplicas 2 true false);
          (object_of_line "/zone/spare", ApiTrimReplicas 2 false true)]
    /\ object_view (object_of_line "/zone/spare") w' = Ok o'
    /\ valid_replicas (obj_replicas o') = [rep 0 "abc" true; rep 2 "abc" true]
    /\ invalid_replicas (obj_replicas o') = [].
Proof.
  destruct (@repair_replicas_trims_valid_then_invalid reference 2 true true 0
              "/zone/spare" (start repair_zone)
              (mkObject (Some "abc")
                 [rep 0 "abc" true; rep 1 "abc" false; rep 2 "abc" true;
                  rep 3 "abc" true]
                 (mkAVU "md5" "abc" None :: common_avus) [mkAC "npg" "seq" "own"])
              eq_refl)
    as (es & w' & o' & E & _ & Ht & Hm & _ & Ho & Hv & Hi).
  exists es, w', o'. repeat split; assumption.
Defined.

(** C6, where the code departs from it.  [repair_replicas.fn] finds what is
    trimmable with [num_replicas], but trims with the minimum of 2 that
    [trim_replicas] has by default.  With [num_replicas = 1], the object
    [/zone/two] has one valid replica in excess: the trim is called, removes
    nothing, the item is returned as repaired and is as trimmable as before.
    With [num_replicas = 3], the object [/zone/four] has one valid replica in
    excess: the trim removes two, and the object is left with fewer valid
    replicas than [num_replicas]. *)
Theorem repair_replicas_trims_to_two_whatever_num_replicas :
  let two := object_of_line "/zone/two" in
  let four := object_of_line "/zone/four" in
  let r1 := @repair_replicas_fn reference 1 true true 0 "/zone/two" (start replica_zone) in
  let r3 := @repair_replicas_fn reference 3 true true 0 "/zone/four" (start replica_zone) in
  holds (has_trimmable_replicas two 1) (start replica_zone) = true
  /\ fst (trimmable_replicas two 1 (start replica_zone)) = Ok ([rep 1 "abc" true], [])
  /\ fst r1 = Ok (true, true)
  /\ filter is_mutation (api_calls (trace (snd r1))) = [(two, ApiTrimReplicas 2 true false)]
  /\ irods (snd r1) = replica_zone
  /\ holds (has_trimmable_replicas two 1) (snd r1) = true
  /\ fst (trimmable_replicas four 3 (start replica_zone)) = Ok ([rep 3 "abc" true], [])
  /\ fst r3 = Ok (true, true)
  /\ filter is_mutation (api_calls (trace (snd r3))) = [(four, ApiTrimReplicas 2 true false)]
  /\ result_map (fun o => valid_replicas (obj_replicas o)) (object_view four (snd r3))
     = Ok [rep 0 "abc" true; rep 1 "abc" true]
  /\ holds (has_complete_replicas four 3) (snd r3) = false.
Proof. repeat split; vm_compute; reflexivity. Qed.

(** Five lines, the third of which names nothing in the zone, with a writer
    and a log that take everything: the two lines before it and the two
    after it are processed; in the check three of the five pass and two
    fail, the missing one among them; in the repair one is repaired and the
    missing one is the one error.  And one line with a closed writer and
    [print_fail] not set: [/zone/good] passes the check, printing it raises
    after [success] was set, the [except] clause returns, and the item is
    returned as a success; [/zone/no_avu] is repaired, printing it raises,
    and the item is returned as repaired. *)
Lemma per_item_exceptions_are_counted_witness :
  (exists w1 w2 w3,
     starmap (@Fallible.check_checksums_fn reference console true true) 0
       ["/zone/good"; "/zone/untyped"] (start repair_zone) = (Ok [true; true], w1)
     /\ @Fallible.check_checksums_fn reference console true true 2 "/zone/missing" w1
        = (Ok false, w2)
     /\ starmap (@Fallible.check_checksums_fn reference console true true) 3
          ["/zone/good"; "/zone/no_avu"] w2 = (Ok [true; false], w3)
     /\ @Fallible.check_checksums reference console
          (["/zone/good"; "/zone/untyped"] ++ "/zone/missing"
             :: ["/zone/good"; "/zone/no_avu"])
          true true (start repair_zone)
        = (Ok (5, 3, 2), w3)
     /\ irods w2 = irods w1)
  /\ (exists w1 w2 w3,
        starmap (@Fallible.repair_checksums_fn reference console true true) 0
          ["/zone/good"; "/zone/untyped"] (start repair_zone)
        = (Ok [(true, false); (true, false)], w1)
        /\ @Fallible.repair_checksums_fn reference console true true 2 "/zone/missing" w1
           = (Ok (false, false), w2)
        /\ starmap (@Fallible.repair_checksums_fn reference console true true) 3
             ["/zone/good"; "/zone/no_avu"] w2 = (Ok [(true, false); (true, true)], w3)
        /\ @Fallible.repair_checksums reference console
             (["/zone/good"; "/zone/untyped"] ++ "/zone/missing"
                :: ["/zone/good"; "/zone/no_avu"])
             true true (start repair_zone)
           = (Ok (5, 1, 1), w3)
        /\ irods w2 = irods w1)
  /\ fst (@Fallible.check_checksums_fn reference closed_writer true false 0 "/zone/good"
            (start repair_zone)) = Ok true
  /\ fst (@Fallible.repair_checksums_fn reference closed_writer true false 0
            "/zone/no_avu" (start repair_zone)) = Ok (true, true).
Proof.
  split; [|split; [|split]].
  - destruct (@per_item_exceptions_are_counted reference console) as (_ & _ & Hall).
    destruct Hall as [Hcheck _]; [split; intros; reflexivity|].
    destruct (Hcheck true true ["/zone/good"; "/zone/untyped"] "/zone/missing"
                ["/zone/good"; "/zone/no_avu"] (start repair_zone))
      as (rs1 & w1 & r & w2 & rs2 & w3 & E1 & E2 & E3 & E4 & Hlen & Hraise).
    cbv zeta in *.
    assert (rs1 = [true; true]) as ->.
    { vm_compute in E1. now injection E1 as <- _. }
    destruct (Hraise false
                (RodsError "Path does not exist: /zone/missing" USER_FILE_DOES_NOT_EXIST)
                (snd (@Fallible.check_checksums_try reference console true true 2
                        "/zone/missing" w1)))
      as (_ & -> & Hi & _ & _).
    { vm_compute in E1. injection E1 as <-. reflexivity. }
    assert (rs2 = [true; false]) as ->.
    { vm_compute in E1. injection E1 as <-.
      vm_compute in E2. injection E2 as <-.
      vm_compute in E3. now injection E3 as <- _. }
    exists w1, w2, w3. repeat split; assumption.
  - destruct (@per_item_exceptions_are_counted reference console) as (_ & _ & Hall).
    destruct Hall as [_ Hrepair]; [split; intros; reflexivity|].
    destruct (Hrepair true true ["/zone/good"; "/zone/untyped"] "/zone/missing"
                ["/zone/good"; "/zone/no_avu"] (start repair_zone))
      as (rs1 & w1 & r & w2 & rs2 & w3 & E1 & E2 & E3 & E4 & Hlen & Hraise).
    cbv zeta in *.
    assert (rs1 = [(true, false); (true, false)]) as ->.
    { vm_compute in E1. now injection E1 as <- _. }
    destruct (Hraise false false
                (RodsError "Path does not exist: /zone/missing" USER_FILE_DOES_NOT_EXIST)
                (snd (@Fallible.repair_checksums_try reference console true 2
                        "/zone/missing" w1)))
      as (_ & -> & Hi & _ & _).
    { vm_compute in E1. injection E1 as <-. reflexivity. }
    assert (rs2 = [(true, false); (true, true)]) as ->.
    { vm_compute in E1. injection E1 as <-.
      vm_compute in E2. injection E2 as <-.
      vm_compute in E3. now injection E3 as <- _. }
    exists w1, w2, w3. repeat split; assumption.
  - destruct (@per_item_exceptions_are_counted reference closed_writer) as (Hitem & _).
    rewrite (Hitem true false 0 "/zone/good" (start repair_zone) true
               (ValueError "I/O operation on closed file.")
               (snd (@Fallible.check_checksums_try reference closed_writer true false 0
                       "/zone/good" (start repair_zone)))
               (snd (@Fallible.check_checksums_except closed_writer false 0 "/zone/good"
                       (ValueError "I/O operation on closed file.")
                       (snd (@Fallible.check_checksums_try reference closed_writer true
                               false 0 "/zone/good" (start repair_zone)))))
               eq_refl eq_refl).
    reflexivity.
  - destruct (@per_item_exceptions_are_counted reference closed_writer)
      as (_ & Hitem & _).
    rewrite (Hitem true false 0 "/zone/no_avu" (start repair_zone) true true
               (ValueError "I/O operation on closed file.")
               (snd (@Fallible.repair_checksums_try reference closed_writer true 0
                       "/zone/no_avu" (start repair_zone)))
               (snd (@Fallible.repair_checksums_except closed_writer false 0
                       "/zone/no_avu"
                       (ValueError "I/O operation on closed file.")
                       (snd (@Fallible.repair_checksums_try reference closed_writer true
                               0 "/zone/no_avu" (start repair_zone)))))
               eq_refl eq_refl).
    reflexivity.
Defined.

(** C8 as stated fails with a writer that is closed.  Of the five lines the
    first two pass and print nothing, [print_pass] being unset; the third
    names nothing in the zone and a storage error is raised in the [try]
    suite; the [except] clause logs it and, [print_fail] being set, prints
    the path, which raises; nothing catches that, and the driver raises it
    instead of returning a total of 5.  With [print_pass] set and
    [print_fail] unset, the first line raises in the [try] suite after it has
    passed, and is counted as a success. *)
Lemma per_item_exception_leaves_through_closed_writer :
  let lines :=
    ["/zone/good"; "/zone/untyped"; "/zone/missing"; "/zone/good"; "/zone/no_avu"] in
  (exists w1 w2,
     starmap (@Fallible.check_checksums_fn reference closed_writer false true) 0
       ["/zone/good"; "/zone/untyped"] (start repair_zone) = (Ok [true; true], w1)
     /\ @Fallible.check_checksums_try reference closed_writer false true 2
          "/zone/missing" w1
        = ((false,
            Some (RodsError "Path does not exist: /zone/missing" USER_FILE_DOES_NOT_EXIST)),
           w2)
     /\ fst (@Fallible.check_checksums_fn reference closed_writer false true 2
               "/zone/missing" w1)
        = Raise (ValueError "I/O operation on closed file."))
  /\ fst (@Fallible.check_checksums reference closed_writer lines false true
            (start repair_zone))
     = Raise (ValueError "I/O operation on closed file.")
  /\ ~ (exists S E w',
          @Fallible.check_checksums reference closed_writer lines false true
            (start repair_zone) = (Ok (5, S, E), w'))
  /\ fst (@Fallible.repair_checksums reference closed_writer lines false true
            (start repair_zone))
     = Raise (ValueError "I/O operation on closed file.")
  /\ fst (@Fallible.check_checksums_try reference closed_writer true false 0 "/zone/good"
            (start repair_zone))
     = (true, Some (ValueError "I/O operation on closed file."))
  /\ fst (@Fallible.check_checksums reference closed_writer ["/zone/good"] true false
            (start repair_zone))
     = Ok (1, 1, 0).
Proof.
  intros lines. split; [|split; [|split; [|split; [|split]]]].
  - do 2 eexists. split; [reflexivity|]. split; reflexivity.
  - reflexivity.
  - intros (S & E & w' & Eq).
    assert (fst (@Fallible.check_checksums reference closed_writer lines false true
                   (start repair_zone))
            = Raise (ValueError "I/O operation on closed file.")) as C by reflexivity.
    rewrite Eq in C. discriminate.
  - reflexivity.
  - reflexivity.
  - reflexivity.
Qed.

(** The same five lines through both drivers. *)
Lemma five_paths_one_missing :
  fst (@check_checksums reference
         ["/zone/good"; "/zone/untyped"; "/zone/missing"; "/zone/good"; "/zone/no_avu"]
         true true (start repair_zone)) = Ok (5, 3, 2)
  /\ fst (@check_checksums reference
            ["/zone/good"; "/zone/untyped"; "/zone/good"; "/zone/no_avu"]
            true true (start repair_zone)) = Ok (4, 3, 1)
  /\ fst (@repair_checksums reference
            ["/zone/good"; "/zone/untyped"; "/zone/missing"; "/zone/good"; "/zone/no_avu"]
            true true (start repair_zone)) = Ok (5, 1, 1)
  /\ fst (@repair_checksums reference
            ["/zone/good"; "/zone/untyped"; "/zone/good"; "/zone/no_avu"]
            true true (start repair_zone)) = Ok (4, 1, 0).
Proof. repeat split; reflexivity. Qed.

(* ================================================================== *)
(** * Further properties of [utilities.py] *)

(** ** The per-item functions with a writer and a log that take everything *)

Lemma except_clause_no_checksum_run (i : nat) (p : string) (pf : bool) {A} (c : A)
  (e : exn) (w : world) :
  exists w',
    (log_exception_no_checksum i e ;;; when pf (_print p) ;;; ret c) w = (Ok c, w').
Proof.
  unfold bind. destruct (log_exception_no_checksum_run i e w) as (m & fields & ->). step.
  rewrite when_print_run. step. eauto.
Qed.

Lemma try_except_total {A} (m : M A) (h : exn -> M A) (w : world) :
  (forall e w1, exists a w2, h e w1 = (Ok a, w2)) ->
  exists a w2, try_except m h w = (Ok a, w2).
Proof.
  intros Hh. unfold try_except. destruct (m w) as [[a|e] w1]; eauto.
Qed.

Lemma repair_replicas_fn_total `{Environment} (n : nat) (pr pf : bool) (i : nat)
  (line : string) (w : world) :
  exists b w', repair_replicas_fn n pr pf i line w = (Ok b, w').
Proof.
  apply try_except_total. intros e w1. unfold repair_replicas_except.
  destruct (except_clause_no_checksum_run i (strip line) pf (false, false) e w1)
    as (w2 & E). eauto.
Qed.

(** X2. [repair_checksums] and [repair_replicas] unpack [zip] of the
    results into two names: on a reader without lines they raise
    [ValueError] and touch nothing, and on any other reader they return a
    total that is the number of lines. *)
Theorem repair_drivers_need_a_line `{Environment}
  (num_replicas : nat) (print_repair print_fail : bool) (w : world) :
  repair_checksums [] print_repair print_fail w
  = (Raise (ValueError "not enough values to unpack (expected 2, got 0)"), w)
  /\ repair_replicas [] num_replicas print_repair print_fail w
     = (Raise (ValueError "not enough values to unpack (expected 2, got 0)"), w)
  /\ (forall line reader,
        (exists R E w', repair_checksums (line :: reader) print_repair print_fail w
                        = (Ok (S (List.length reader), R, E), w'))
        /\ (exists R E w',
              repair_replicas (line :: reader) num_replicas print_repair print_fail w
              = (Ok (S (List.length reader), R, E), w'))).
Proof.
  split; [reflexivity|]. split; [reflexivity|].
  intros line reader. split.
  - destruct (starmap_total _ (repair_checksums_fn_total print_repair print_fail)
                (line :: reader) 0 w) as (rs & w' & E & Hlen).
    unfold repair_checksums, bind. rewrite E. step.
    destruct rs as [|r rs]; [discriminate|]. unfold unzip_results. step.
    rewrite length_map, Hlen. simpl. eauto.
  - destruct (starmap_total _
                (repair_replicas_fn_total num_replicas print_repair print_fail)
                (line :: reader) 0 w) as (rs & w' & E & Hlen).
    unfold repair_replicas, bind. rewrite E. step.
    destruct rs as [|r rs]; [discriminate|]. unfold unzip_results. step.
    rewrite length_map, Hlen. simpl. eauto.
Qed.

(** ** [check_replicas] *)

Lemma holds_add_events_complete (obj : RodsItem) (n : nat) (es : list event) (w : world) :
  holds (has_complete_replicas obj n) (add_events es w)
  = holds (has_complete_replicas obj n) w.
Proof.
  unfold holds. now rewrite !has_complete_replicas_run, object_view_add_events.
Qed.

Lemma holds_add_events_trimmable (obj : RodsItem) (n : nat) (es : list event) (w : world) :
  holds (has_trimmable_replicas obj n) (add_events es w)
  = holds (has_trimmable_replicas obj n) w.
Proof.
  unfold holds. now rewrite !has_trimmable_replicas_run, object_view_add_events.
Qed.

Lemma check_replicas_fn_run `{Environment} (n : nat) (pp pf : bool) (i : nat)
  (line : string) (w : world) :
  exists es,
    check_replicas_fn n pp pf i line w
    = (Ok (holds (has_complete_replicas (object_of_line line) n) w
           && negb (holds (has_trimmable_replicas (object_of_line line) n) w)),
       add_events es w)
    /\ read_only es.
Proof.
  unfold check_replicas_fn, check_replicas_try, try_except, bind, holds, read_only.
  fold (object_of_line line). set (obj := object_of_line line).
  rewrite has_complete_replicas_run, has_trimmable_replicas_run.
  destruct (object_view obj w) as [o|e] eqn:E; step.
  - rewrite has_trimmable_replicas_run, object_view_add_events, E. step.
    cbn [fst].
    set (comp := Nat.eqb _ n). set (trim := orb _ _).
    destruct comp, trim; cbn [andb negb]; cbv beta iota.
    all: try (rewrite replicas_run, !object_view_add_events, E; step;
              rewrite replicas_run, !object_view_add_events, E; step;
              rewrite has_complete_checksums_run, !object_view_add_events, E; step;
              rewrite has_matching_checksums_run, !object_view_add_events, E; step).
    all: unfold log; rewrite emit_run; step; rewrite when_print_run; step;
      rewrite !add_events_app; eexists; (split; [reflexivity|]).
    all: rewrite !api_calls_app; destruct pp, pf; simpl; repeat constructor.
  - cbn [fst andb].
    destruct (log_exception_no_checksum_run i e (add_events [Api obj ApiReplicas] w))
      as (m & fields & Hl).
    rewrite Hl. step. rewrite when_print_run. step. rewrite !add_events_app.
    eexists. split; [reflexivity|]. destruct pf; simpl; repeat constructor.
Qed.

(** X3. [check_replicas] counts a line as a success exactly when its data
    object has [num_replicas] valid replicas and none that can be trimmed;
    it returns (N, S, N - S) and makes no call that changes the server. *)
Theorem check_replicas_counts_complete_untrimmable `{Environment}
  (reader : list string) (num_replicas : nat) (print_pass print_fail : bool) (w : world) :
  let ok line :=
    holds (has_complete_replicas (object_of_line line) num_replicas) w
    && negb (holds (has_trimmable_replicas (object_of_line line) num_replicas) w) in
  let N := List.length reader in
  let S := List.length (filter ok reader) in
  exists es,
    check_replicas reader num_replicas print_pass print_fail w
    = (Ok (N, S, N - S), add_events es w)
    /\ read_only es
    /\ irods (add_events es w) = irods w.
Proof.
  intros ok N S.
  destruct (starmap_read_only (check_replicas_fn num_replicas print_pass print_fail)
              (fun line w0 =>
                 holds (has_complete_replicas (object_of_line line) num_replicas) w0
                 && negb (holds (has_trimmable_replicas (object_of_line line)
                                   num_replicas) w0))
              (check_replicas_fn_run num_replicas print_pass print_fail)) with
    (l := reader) (i := 0) (w := w) as (es & E & R).
  { intros line es w0.
    now rewrite holds_add_events_complete, holds_add_events_trimmable. }
  exists es. unfold check_replicas, bind. rewrite E. step.
  rewrite length_map, count_true_map. fold ok. fold N. fold S.
  split; [reflexivity|]. split; [exact R | reflexivity].
Qed.

(** ** What the check of checksums prints *)

Lemma check_checksums_fn_printed `{Environment} (pp pf : bool) (i : nat)
  (line : string) (w : world) :
  let ok := holds (has_matching_checksum_metadata (object_of_line line)) w in
  exists es,
    check_checksums_fn pp pf i line w = (Ok ok, add_events es w)
    /\ printed es = if (if ok then pp else pf) then [[PStr (strip line)]] else [].
Proof.
  unfold check_checksums_fn, check_checksums_try, try_except, bind, holds, object_of_line.
  set (obj := new_DataObject (parse_path (strip line))).
  rewrite has_matching_checksum_metadata_run.
  destruct (object_view obj w) as [o|e] eqn:E; step; cbn [fst].
  - destruct (matching_checksum_metadata MD5 (obj_replicas o) (obj_metadata o)); step.
    + unfold log. rewrite emit_run, when_print_run. step.
      rewrite !add_events_app. eexists. split; [reflexivity|].
      destruct pp; reflexivity.
    + rewrite metadata_run, entry_view_add_events, (object_view_entry _ _ _ E). step.
      rewrite get_checksum_run, !object_view_add_events, E. step.
      unfold log. rewrite emit_run, when_print_run. step.
      rewrite !add_events_app. eexists. split; [reflexivity|].
      destruct pf; reflexivity.
  - destruct (log_exception_run false i e (add_events [Api obj ApiReplicas] w))
      as (m & fields & Hev).
    rewrite Hev. step. rewrite when_print_run. step. rewrite !add_events_app.
    eexists. split; [reflexivity|].
    destruct pf; reflexivity.
Qed.

Lemma starmap_printed {A B} (fn : nat -> A -> M B) (verdict : A -> world -> B)
  (out : A -> world -> list (list print_arg)) :
  (forall i x w, exists es,
      fn i x w = (Ok (verdict x w), add_events es w) /\ printed es = out x w) ->
  (forall x es w, verdict x (add_events es w) = verdict x w) ->
  (forall x es w, out x (add_events es w) = out x w) ->
  forall l i w, exists es,
      starmap fn i l w = (Ok (map (fun x => verdict x w) l), add_events es w)
      /\ printed es = flat_map (fun x => out x w) l.
Proof.
  intros Hfn Hv Ho l. induction l as [|x l IH]; intros i w; simpl.
  - exists []. rewrite add_events_nil. split; reflexivity.
  - destruct (Hfn i x w) as (es1 & E1 & P1).
    destruct (IH (S i) (add_events es1 w)) as (es2 & E2 & P2).
    exists (es1 ++ es2). unfold bind. rewrite E1, E2. step.
    rewrite add_events_app. split.
    + f_equal. f_equal. f_equal. apply map_ext. intros y. apply Hv.
    + rewrite printed_app, P1, P2. f_equal.
      apply flat_map_ext. intros y. apply Ho.
Qed.

Lemma written_selected (selected : string -> bool) (reader : list string) :
  map (fun args => join_space (map print_arg_str args))
    (flat_map (fun x => if selected x then [[PStr (strip x)]] else []) reader)
  = map strip (filter selected reader).
Proof.
  induction reader as [|line reader IH]; simpl; trivial.
  destruct (selected line); simpl; now rewrite IH.
Qed.

(** X4. What [check_checksums] adds to the writer is, up to the order of
    the lines, the stripped lines of the reader that pass when [print_pass]
    is set and that fail, by the check or by an exception, when [print_fail]
    is set: one line for each such item, and nothing else. *)
Theorem check_checksums_writes_selected_lines `{Environment}
  (reader : list string) (print_pass print_fail : bool) (w : world) :
  let ok line := holds (has_matching_checksum_metadata (object_of_line line)) w in
  let selected line := if ok line then print_pass else print_fail in
  exists lines,
    written (trace (snd (check_checksums reader print_pass print_fail w)))
    = written (trace w) ++ lines
    /\ Permutation lines (map strip (filter selected reader)).
Proof.
  intros ok selected.
  destruct (starmap_printed (check_checksums_fn print_pass print_fail)
              (fun line w0 =>
                 holds (has_matching_checksum_metadata (object_of_line line)) w0)
              (fun line w0 =>
                 if (if holds (has_matching_checksum_metadata (object_of_line line)) w0
                     then print_pass else print_fail)
                 then [[PStr (strip line)]] else [])
              (check_checksums_fn_printed print_pass print_fail)) with
    (l := reader) (i := 0) (w := w) as (es & E & P).
  { intros line es w0. apply holds_add_events_matching. }
  { intros line es w0. now rewrite holds_add_events_matching. }
  exists (map strip (filter selected reader)). split; [|apply Permutation_refl].
  unfold check_checksums, bind. rewrite E. step. cbn [snd].
  unfold written, add_events. cbn [trace]. rewrite printed_app, map_app, P.
  f_equal. apply (written_selected selected).
Qed.

(** ** [repair_common_metadata], item by item *)

(** X5. For [repair_common_metadata.fn] and any common-metadata policy: an
    item for which [has_common_metadata] answers True is returned as False,
    with nothing logged, printed or repaired after that answer; an item for
    which it answers False is returned as True as soon as the [try] suite
    raises nothing, whichever boolean [ensure_common_metadata] returns. *)
Theorem repair_common_metadata_fn_outcomes `{Environment} (creator : option string)
  (print_repair print_fail : bool) (i : nat) (line : string) (w w1 : world) (b : bool) :
  has_common_metadata (object_of_line line) w = (Ok b, w1) ->
  (b = true ->
   repair_common_metadata_fn creator print_repair print_fail i line w = (Ok false, w1))
  /\ (b = false ->
      is_ok (fst (repair_common_metadata_try creator print_repair i (strip line) w)) = true ->
      fst (repair_common_metadata_fn creator print_repair print_fail i line w) = Ok true).
Proof.
  intros E. split; intros ->.
  - now apply repair_common_metadata_fn_complete.
  - now apply repair_common_metadata_fn_incomplete with (w1 := w1).
Qed.

(** [/zone/good] is complete; [/zone/untyped] lacks its type and is repaired. *)
Lemma repair_common_metadata_fn_outcomes_witness :
  fst (@repair_common_metadata_fn reference None true true 0 "/zone/good"
         (start repair_zone)) = Ok false
  /\ fst (@repair_common_metadata_fn reference None true true 0 "/zone/untyped"
            (start repair_zone)) = Ok true.
Proof.
  split.
  - rewrite (proj1 (@repair_common_metadata_fn_outcomes reference None true true 0
                      "/zone/good" (start repair_zone) _ true eq_refl) eq_refl).
    reflexivity.
  - apply (proj2 (@repair_common_metadata_fn_outcomes reference None true true 0
                    "/zone/untyped" (start repair_zone) _ false eq_refl) eq_refl).
    reflexivity.
Defined.

(** ** One command for each item *)

Lemma partition_Permutation {A B} (p : A -> bool) (f g : A -> B) (l : list A) :
  Permutation (map (fun x => if p x then f x else g x) l)
    (map f (filter p l) ++ map g (filter (fun x => negb (p x)) l)).
Proof.
  induction l as [|x l IH]; simpl; trivial.
  destruct (p x); simpl.
  - now constructor.
  - now apply Permutation_cons_app.
Qed.

Lemma removal_of_command_of (pe : PurePath * entry) :
  removal_of pe = command_of (item_of_entry pe).
Proof. destruct pe as [p [o|c]]; reflexivity. Qed.

(** X6. The plan that [write_safe_remove_commands] writes for a collection
    is, before the collection's own line, a rearrangement of the commands due
    for the entries that the server lists beneath it: every listed item gets
    its command once, no item gets two. *)
Theorem write_safe_remove_commands_one_command_each
  (target : PurePath + RodsItem) (root : PurePath) (c : collection_state) (w : world) :
  target = inl root \/ target = inr (Collection root) ->
  fault_at root (faults w) = None ->
  lookup root (irods w) = Some (ECollection c) ->
  exists w' plan,
    write_safe_remove_commands target w = (Ok tt, w')
    /\ printed (trace w') = printed (trace w) ++ plan ++ [irmdir (Collection root)]
    /\ Permutation plan
         (map removal_of (filter (fun pe => is_beneath root (fst pe)) (irods w)))
    /\ irods w' = irods w.
Proof.
  intros Ht Hf Hl.
  destruct (write_safe_remove_commands_run target root c w Ht Hf Hl) as (w' & E & Hi & Hp).
  exists w', (contents_plan root (irods w)). repeat split; trivial.
  unfold contents_plan, objects_beneath, collections_beneath, items_beneath.
  set (entries := filter (fun pe => is_beneath root (fst pe)) (irods w)).
  replace (map removal_of entries) with (map command_of (map item_of_entry entries))
    by (rewrite map_map; apply map_ext; intros pe; symmetry;
        apply removal_of_command_of).
  symmetry.
  apply (Permutation_trans
           (partition_Permutation is_DataObject irm irmdir (map item_of_entry entries))).
  apply Permutation_app_head. apply Permutation_map.
  apply sort_reverse_Permutation.
Qed.

Lemma write_safe_remove_commands_one_command_each_witness :
  exists w' plan,
    write_safe_remove_commands (inr (Collection ["/"; "root"])) (start tree_zone)
    = (Ok tt, w')
    /\ Permutation plan
         [irmdir (Collection ["/"; "root"; "b"]); irm (DataObject ["/"; "root"] "a");
          irm (DataObject ["/"; "root"; "b"] "c")].
Proof.
  destruct (write_safe_remove_commands_one_command_each
              (inr (Collection ["/"; "root"])) ["/"; "root"] (mkColl [] [])
              (start tree_zone) (or_intror eq_refl) eq_refl eq_refl)
    as (w' & plan & E & _ & Hperm & _).
  exists w', plan. split; [exact E | exact Hperm].
Defined.

(** ** [write_safe_remove_script] *)

Lemma skipn_length_app {A} (l m : list A) : skipn (List.length l) (l ++ m) = m.
Proof. induction l; simpl; trivial. Qed.

(** Whatever it is given, [write_safe_remove_commands] only adds to the
    trace. *)
Lemma write_safe_remove_commands_appends (target : PurePath + RodsItem) (w : world) :
  exists r es, write_safe_remove_commands target w = (r, add_events es w).
Proof.
  unfold write_safe_remove_commands, bind.
  assert (exists rt es0, resolve target w = (rt, add_events es0 w)) as (rt & es0 & Hr).
  { destruct target as [p|it]; simpl.
    - unfold make_rods_item, bind. rewrite emit_run, stat_add_events.
      unfold stat. destruct (fault_at p (faults w)); cbn [fst snd];
        [do 2 eexists; reflexivity|].
      destruct (lookup p (irods w)) as [[o|c]|]; step; do 2 eexists; reflexivity.
    - exists (Ok it), []. now rewrite add_events_nil. }
  rewrite Hr. destruct rt as [it|e]; [|do 2 eexists; reflexivity].
  destruct (is_DataObject it).
  - rewrite _log_print_run, add_events_app. do 2 eexists; reflexivity.
  - unfold iter_contents, get_collection, bind.
    rewrite emit_run, get_entry_run, !entry_view_add_events.
    destruct (entry_view it w) as [[o|c]|e]; step.
    + rewrite add_events_app. do 2 eexists; reflexivity.
    + unfold get_irods. step. rewrite remove_contents_run. step.
      rewrite for_each_log_print_run, _log_print_run, !add_events_app.
      do 2 eexists; reflexivity.
    + rewrite add_events_app. do 2 eexists; reflexivity.
Qed.

(** X7. The file that [write_safe_remove_script] writes holds the shebang
    line and the generator line, then [set -e] and [set -x] if asked for,
    then what [write_safe_remove_commands] printed; it is given mode [0o755]
    only when [write_safe_remove_commands] returned: if that raised, the
    exception goes on to the caller and the file keeps the lines written so
    far, with the mode it was created with. *)
Theorem write_safe_remove_script_header_then_plan (version : string)
  (root : PurePath + RodsItem) (stop_on_error verbose : bool) (w : world) :
  exists r es w0,
    printed (trace w0) = printed (trace w) ++ script_header version stop_on_error verbose
    /\ irods w0 = irods w /\ faults w0 = faults w
    /\ write_safe_remove_commands root w0 = (r, add_events es w0)
    /\ write_safe_remove_script version root stop_on_error verbose w
       = (r, add_events es w0,
          mkScript (script_header version stop_on_error verbose ++ printed es)
                   (if is_ok r then Some mode_755 else None)).
Proof.
  set (header :=
         [Print [PStr "#!/bin/bash"];
          Print [PStr ("# Generated by npg-irods " ++ version)%string]]
         ++ (if stop_on_error then [Print [PStr "set -e"]] else [])
         ++ (if verbose then [Print [PStr "set -x"]] else [])).
  assert (printed header = script_header version stop_on_error verbose) as Hh
    by (unfold header, script_header; destruct stop_on_error, verbose; reflexivity).
  destruct (write_safe_remove_commands_appends root (add_events header w)) as (r & es & E).
  exists r, es, (add_events header w).
  split; [unfold add_events; cbn [trace]; now rewrite printed_app, Hh|].
  split; [reflexivity|]. split; [reflexivity|]. split; [exact E|].
  unfold write_safe_remove_script, write_safe_remove_script_body, bind.
  rewrite !emit_run. step.
  assert ((when stop_on_error (emit (Print [PStr "set -e"])))
            (add_events [Print [PStr ("# Generated by npg-irods " ++ version)%string]]
               (add_events [Print [PStr "#!/bin/bash"]] w))
          = (Ok tt, add_events
                      ([Print [PStr "#!/bin/bash"];
                        Print [PStr ("# Generated by npg-irods " ++ version)%string]]
                       ++ (if stop_on_error then [Print [PStr "set -e"]] else [])) w))
    as ->.
  { destruct stop_on_error; unfold when; rewrite ?emit_run; unfold ret;
      rewrite !add_events_app; reflexivity. }
  step.
  match goal with
  | |- context [when verbose ?m ?w1] =>
      assert (when verbose m w1 = (Ok tt, add_events header w)) as ->
  end.
  { unfold header. destruct verbose; unfold when; rewrite ?emit_run; unfold ret;
      rewrite ?add_events_app, <- ?app_assoc; try reflexivity.
    now rewrite !app_nil_r. }
  step. rewrite E.
  f_equal. f_equal.
  - unfold add_events. cbn [trace]. rewrite !printed_app, <- app_assoc, Hh.
    now rewrite skipn_length_app.
  - now destruct r.
Qed.

(** ** More of [copy] *)

(** X8. When nothing is stored at the path of the source handle, [copy]
    falls to the last [case] and raises the [ValueError] of an invalid
    combination of path types, whatever the destination is and whatever the
    flags are; building the message asks the server for the two kinds a
    second time, and nothing on the server is changed. *)
Theorem copy_from_nothing_raises `{Environment}
  (depth : nat) (s d : RodsItem) (acl avu exist_ok recurse : bool) (w : world) :
  fault_at (item_path s) (faults w) = None ->
  lookup (item_path s) (irods w) = None ->
  fault_at (item_path d) (faults w) = None ->
  copy (S depth) (inr s) (inr d) acl avu exist_ok recurse w
  = (Raise (ValueError
              ("Invalid iRODS path type combination src: " ++ item_str s
               ++ ": src type: None, dest: " ++ item_str d ++ ", dest type: "
               ++ type_str (option_map type_of_entry (lookup (item_path d) (irods w))))%string),
     add_events [Api s ApiRodsType; Api d ApiRodsType;
                 Api s ApiRodsType; Api d ApiRodsType] w).
Proof.
  intros Fs Ls Fd.
  cbn [copy resolve]. unfold bind. step.
  rewrite (get_rods_type_run_any s w Fs), Ls. step.
  rewrite get_rods_type_run_any by exact Fd. step.
  cbn [option_map]. cbv beta iota.
  rewrite get_rods_type_run_any by exact Fs. step.
  rewrite get_rods_type_run_any by exact Fd. step.
  rewrite !irods_add_events, Ls, !add_events_app. reflexivity.
Qed.

(** Nothing is stored at [/root/zz] of [tree_zone]. *)
Lemma copy_from_nothing_raises_witness :
  fst (@copy reference 1 (inr (DataObject ["/"; "root"] "zz"))
         (inr (Collection ["/"; "root"; "b"])) false false true true (start tree_zone))
  = Raise (ValueError
             "Invalid iRODS path type combination src: /root/zz: src type: None, dest: /root/b, dest type: <class 'partisan.irods.Collection'>").
Proof.
  rewrite (@copy_from_nothing_raises reference 0 (DataObject ["/"; "root"] "zz")
             (Collection ["/"; "root"; "b"]) false false true true (start tree_zone)
             eq_refl eq_refl eq_refl).
  reflexivity.
Defined.

Lemma entry_view_put_entry_cases (it : RodsItem) (q : PurePath) (e e' : entry) (w : world) :
  entry_view it w = Ok e ->
  entry_view it (put_entry q e' w)
  = Ok (if path_eqb (item_path it) q then e' else e).
Proof.
  intros Hv. apply entry_view_inv in Hv as [Hf Hl].
  unfold entry_view, put_entry. cbn [faults irods]. rewrite Hf.
  destruct (path_eqb (item_path it) q) eqn:E.
  - apply path_eqb_eq in E. subst q.
    now rewrite (lookup_replace_entry_same _ _ _ _ Hl).
  - now rewrite lookup_replace_entry_other, Hl.
Qed.

Lemma entry_view_same_path (s d : RodsItem) (w : world) (es ed : entry) :
  entry_view s w = Ok es -> entry_view d w = Ok ed ->
  path_eqb (item_path s) (item_path d) = true -> es = ed.
Proof.
  intros Es Ed E. apply path_eqb_eq in E.
  apply entry_view_inv in Es as [_ Ls]. apply entry_view_inv in Ed as [_ Ld].
  congruence.
Qed.

Lemma entry_permissions_with_metadata (e : entry) (m : list AVU) :
  entry_permissions (with_metadata e m) = entry_permissions e.
Proof. now destruct e. Qed.

Lemma entry_metadata_with_permissions (e : entry) (a : list AC) :
  entry_metadata (with_permissions e a) = entry_metadata e.
Proof. now destruct e. Qed.

Lemma entry_metadata_with_metadata (e : entry) (m : list AVU) :
  entry_metadata (with_metadata e m) = m.
Proof. now destruct e. Qed.

Lemma entry_permissions_with_permissions (e : entry) (a : list AC) :
  entry_permissions (with_permissions e a) = a.
Proof. now destruct e. Qed.

(** What [_cp_avu_acl] calls and what it leaves at the destination. *)
Lemma _cp_avu_acl_adds (acl avu : bool) (s d : RodsItem) (w : world)
  (es ed : entry) :
  entry_view s w = Ok es ->
  entry_view d w = Ok ed ->
  exists w' ev ed' more_avus more_acl,
    _cp_avu_acl acl avu s d w = (Ok tt, w')
    /\ trace w' = trace w ++ ev
    /\ filter is_mutation (api_calls ev)
       = (if avu then [(d, ApiAddMetadata (entry_metadata es))] else [])
         ++ (if acl then [(d, ApiAddPermissions (entry_permissions es))] else [])
    /\ commands_run ev = []
    /\ entry_view d w' = Ok ed'
    /\ entry_metadata ed' = entry_metadata ed ++ more_avus
    /\ entry_permissions ed' = entry_permissions ed ++ more_acl.
Proof.
  intros Es Ed. unfold _cp_avu_acl, bind, log.
  destruct avu, acl; step.
  - rewrite metadata_run, Es. step.
    rewrite add_metadata_run, entry_view_add_events, Ed. step.
    rewrite emit_run. step.
    set (e1 := with_metadata ed
                 (entry_metadata ed
                  ++ missing_from avu_eqb (entry_metadata ed) (entry_metadata es))).
    rewrite permissions_run, entry_view_add_events.
    rewrite (entry_view_put_entry_cases s (item_path d) es e1)
      by (rewrite !entry_view_add_events; exact Es).
    step.
    assert (entry_permissions
              (if path_eqb (item_path s) (item_path d) then e1 else es)
            = entry_permissions es) as ->.
    { destruct (path_eqb (item_path s) (item_path d)) eqn:E; trivial.
      unfold e1. rewrite entry_permissions_with_metadata.
      now rewrite (entry_view_same_path s d w es ed Es Ed E). }
    rewrite add_permissions_run, !entry_view_add_events.
    rewrite (entry_view_put_entry_same d ed e1)
      by (rewrite !entry_view_add_events; exact Ed).
    step. rewrite emit_run. step.
    do 5 eexists. split; [reflexivity|]. split.
    { unfold put_entry, add_events. cbn [trace]. rewrite <- !app_assoc. reflexivity. }
    split; [reflexivity|]. split; [reflexivity|]. split.
    { rewrite !entry_view_add_events.
      apply (entry_view_put_entry_same d e1).
      rewrite !entry_view_add_events.
      apply (entry_view_put_entry_same d ed).
      rewrite !entry_view_add_events. exact Ed. }
    split.
    + rewrite entry_metadata_with_permissions. unfold e1.
      rewrite entry_metadata_with_metadata. reflexivity.
    + rewrite entry_permissions_with_permissions. unfold e1.
      rewrite entry_permissions_with_metadata. reflexivity.
  - rewrite metadata_run, Es. step.
    rewrite add_metadata_run, entry_view_add_events, Ed. step.
    rewrite emit_run. step.
    do 3 eexists. exists (missing_from avu_eqb (entry_metadata ed) (entry_metadata es)), [].
    split; [reflexivity|]. split.
    { unfold put_entry, add_events. cbn [trace]. rewrite <- !app_assoc. reflexivity. }
    split; [reflexivity|]. split; [reflexivity|]. split.
    { rewrite !entry_view_add_events.
      apply (entry_view_put_entry_same d ed).
      rewrite !entry_view_add_events. exact Ed. }
    split.
    + now rewrite entry_metadata_with_metadata.
    + now rewrite entry_permissions_with_metadata, app_nil_r.
  - rewrite permissions_run, Es. step.
    rewrite add_permissions_run, entry_view_add_events, Ed. step.
    rewrite emit_run. step.
    do 3 eexists. exists [], (missing_from ac_eqb (entry_permissions ed) (entry_permissions es)).
    split; [reflexivity|]. split.
    { unfold put_entry, add_events. cbn [trace]. rewrite <- !app_assoc. reflexivity. }
    split; [reflexivity|]. split; [reflexivity|]. split.
    { rewrite !entry_view_add_events.
      apply (entry_view_put_entry_same d ed).
      rewrite !entry_view_add_events. exact Ed. }
    split.
    + now rewrite entry_metadata_with_permissions, app_nil_r.
    + now rewrite entry_permissions_with_permissions.
  - exists w, [], ed, [], []. rewrite !app_nil_r. repeat split; trivial.
Qed.

(** X10. With source and destination both on the server, [_cp_avu_acl]
    returns; the only calls it makes that change the server are
    [add_metadata] on the destination with the AVUs of the source, if [avu]
    is set, and then [add_permissions] on the destination with the
    permissions of the source, if [acl] is set.  The AVUs and permissions
    that the destination had are all still there afterwards, in front of
    what was added. *)
Theorem _cp_avu_acl_only_adds (acl avu : bool) (s d : RodsItem) (w : world)
  (es ed : entry) :
  entry_view s w = Ok es ->
  entry_view d w = Ok ed ->
  exists w' ev ed' more_avus more_acl,
    _cp_avu_acl acl avu s d w = (Ok tt, w')
    /\ trace w' = trace w ++ ev
    /\ filter is_mutation (api_calls ev)
       = (if avu then [(d, ApiAddMetadata (entry_metadata es))] else [])
         ++ (if acl then [(d, ApiAddPermissions (entry_permissions es))] else [])
    /\ commands_run ev = []
    /\ entry_view d w' = Ok ed'
    /\ entry_metadata ed' = entry_metadata ed ++ more_avus
    /\ entry_permissions ed' = entry_permissions ed ++ more_acl.
Proof. apply _cp_avu_acl_adds. Qed.

(** The metadata and permissions of [/zone/good] onto [/zone/no_avu]. *)
Lemma _cp_avu_acl_only_adds_witness :
  exists w' ev,
    _cp_avu_acl true true (DataObject ["/"; "zone"] "good")
      (DataObject ["/"; "zone"] "no_avu") (start repair_zone) = (Ok tt, w')
    /\ trace w' = trace (start repair_zone) ++ ev
    /\ filter is_mutation (api_calls ev)
       = [(DataObject ["/"; "zone"] "no_avu",
           ApiAddMetadata
             [mkAVU "md5" "abc" None; mkAVU "dcterms:created" "17" None;
              mkAVU "dcterms:creator" "npg" None; mkAVU "type" "cram" None]);
          (DataObject ["/"; "zone"] "no_avu",
           ApiAddPermissions [mkAC "npg" "seq" "own"])].
Proof.
  destruct (_cp_avu_acl_only_adds true true (DataObject ["/"; "zone"] "good")
              (DataObject ["/"; "zone"] "no_avu") (start repair_zone)
              (good_object "abc")
              (object_with [rep 0 "abc" true; rep 1 "abc" true] common_avus)
              eq_refl eq_refl)
    as (w' & ev & ed' & ma & mc & E & Ht & Hm & _).
  exists w', ev. repeat split; assumption.
Defined.

Lemma exists_run_absent (it : RodsItem) (w : world) :
  fault_at (item_path it) (faults w) = None ->
  lookup (item_path it) (irods w) = None ->
  exists_ it w = (Ok false, add_events [Api it ApiExists] w).
Proof.
  intros Hf Hl. unfold exists_, bind.
  rewrite emit_run, stat_add_events, stat_found by trivial. step. now rewrite Hl.
Qed.

(** X11. With [exist_ok] set and without [recurse], the copy of a
    collection whose counterpart under the destination already exists
    returns (1, 0): [create] is not called and no command is run; the only
    calls that change the server are those of [_cp_avu_acl], which are still
    made. *)
Theorem copy_existing_collection_is_skipped `{Environment}
  (depth : nat) (src dest : PurePath + RodsItem) (acl avu : bool)
  (w w1 w2 : world) (s d : RodsItem) (cs : collection_state) (ec : entry) :
  resolve src w = (Ok s, w1) ->
  resolve dest w1 = (Ok d, w2) ->
  entry_view s w = Ok (ECollection cs) ->
  fault_at (item_path d) (faults w) = None ->
  option_map type_of_entry (lookup (item_path d) (irods w)) <> Some TDataObject ->
  entry_view (copy_collection_target s d) w = Ok ec ->
  exists w' ev,
    copy (S depth) src dest acl avu true false w = (Ok (1, 0), w')
    /\ trace w' = trace w2 ++ ev
    /\ filter is_mutation (api_calls ev)
       = (if avu then [(copy_collection_target s d, ApiAddMetadata (coll_metadata cs))]
          else [])
         ++ (if acl
             then [(copy_collection_target s d, ApiAddPermissions (coll_permissions cs))]
             else [])
    /\ commands_run ev = [].
Proof.
  intros Hs Hd Es Fd Td Ec.
  rewrite (copy_unfold depth src dest acl avu true false w s d w1 w2 _ Hs Hd Es).
  destruct (resolve_run _ _ _ _ Hs) as (es1 & -> & _).
  destruct (resolve_run _ _ _ _ Hd) as (es2 & -> & _).
  unfold bind at 1. rewrite get_rods_type_run_any by exact Fd. step.
  rewrite !irods_add_events.
  change (type_of_entry (ECollection cs)) with TCollection.
  set (coll := copy_collection_target s d) in *.
  assert (exists w' ev,
    (nc <- _maybe_copy_coll true coll s coll ;;
     _cp_avu_acl acl avu s coll ;;;
     ret (1, nc))
      (add_events [Api d ApiRodsType]
         (add_events [Api s ApiRodsType] (add_events es2 (add_events es1 w))))
    = (Ok (1, 0), w')
    /\ trace w' = trace (add_events es2 (add_events es1 w)) ++ ev
    /\ filter is_mutation (api_calls ev)
       = (if avu then [(coll, ApiAddMetadata (coll_metadata cs))] else [])
         ++ (if acl then [(coll, ApiAddPermissions (coll_permissions cs))] else [])
    /\ commands_run ev = []) as Hgoal.
  { unfold bind at 1. unfold _maybe_copy_coll, bind at 1.
    rewrite (exists_run coll _ ec) by (rewrite !entry_view_add_events; exact Ec).
    step. unfold bind at 1, log. rewrite emit_run. step. unfold bind.
    match goal with
    | |- context [_cp_avu_acl acl avu s coll ?w0] =>
        destruct (_cp_avu_acl_adds acl avu s coll w0 (ECollection cs) ec)
          as (w' & ev & ed' & ma & mc & E & Ht & Hm & Hc & _);
          [rewrite !entry_view_add_events; assumption ..|]
    end.
    rewrite E. step.
    do 2 eexists. split; [reflexivity|]. split.
    { rewrite Ht. unfold add_events. cbn [trace]. rewrite <- !app_assoc. reflexivity. }
    split.
    - rewrite !api_calls_app. cbn [api_calls app filter is_mutation snd].
      exact Hm.
    - rewrite !commands_run_app, Hc. reflexivity. }
  destruct (option_map type_of_entry (lookup (item_path d) (irods w))) as [[|]|];
    [exact Hgoal | contradiction | exact Hgoal].
Qed.

(** [/root/b] is copied into [/root], where it is already. *)
Lemma copy_existing_collection_is_skipped_witness :
  exists w',
    @copy reference 1 (inl ["/"; "root"; "b"]) (inl ["/"; "root"]) false false true false
      (start tree_zone) = (Ok (1, 0), w')
    /\ irods w' = irods (start tree_zone).
Proof.
  destruct (@copy_existing_collection_is_skipped reference 0
              (inl ["/"; "root"; "b"]) (inl ["/"; "root"]) false false
              (start tree_zone)
              (add_events [Api (Collection ["/"; "root"; "b"]) ApiMakeRodsItem]
                 (start tree_zone))
              (add_events [Api (Collection ["/"; "root"; "b"]) ApiMakeRodsItem;
                           Api (Collection ["/"; "root"]) ApiMakeRodsItem]
                 (start tree_zone))
              (Collection ["/"; "root"; "b"]) (Collection ["/"; "root"])
              (mkColl [] []) empty_coll eq_refl eq_refl eq_refl eq_refl)
    as (w' & ev & E & _).
  - discriminate.
  - reflexivity.
  - exists w'. split; [exact E|].
    assert (w' = snd (@copy reference 1 (inl ["/"; "root"; "b"]) (inl ["/"; "root"])
                        false false true false (start tree_zone))) as ->
      by now rewrite E.
    reflexivity.
Defined.

Lemma create_run (it : RodsItem) (exist_ok : bool) (w : world) (cp : collection_state) :
  fault_at (item_path it) (faults w) = None ->
  lookup (item_path it) (irods w) = None ->
  fault_at (path_parent (item_path it)) (faults w) = None ->
  lookup (path_parent (item_path it)) (irods w) = Some (ECollection cp) ->
  create it exist_ok w
  = (Ok tt,
     set_irods (irods w ++ [(item_path it, ECollection (mkColl [] []))])
       (add_events [Api it (ApiCreate exist_ok)] w)).
Proof.
  intros F L Fp Lp. unfold create, bind.
  rewrite emit_run, stat_add_events, stat_found by trivial.
  cbn [fst snd]. step. rewrite L.
  rewrite stat_add_events, stat_found by trivial.
  cbn [fst snd]. step. rewrite Lp.
  reflexivity.
Qed.

(** X12. Without [recurse], [avu] and [acl], the copy of a collection whose
    counterpart under the destination does not exist yet, while the
    collection that is to hold it does, creates that counterpart, empty, and
    returns (1, 1); [create] is the one call that changes the server. *)
Theorem copy_creates_the_collection `{Environment}
  (depth : nat) (src dest : PurePath + RodsItem) (exist_ok : bool)
  (w w1 w2 : world) (s d : RodsItem) (cs cp : collection_state) :
  resolve src w = (Ok s, w1) ->
  resolve dest w1 = (Ok d, w2) ->
  entry_view s w = Ok (ECollection cs) ->
  fault_at (item_path d) (faults w) = None ->
  option_map type_of_entry (lookup (item_path d) (irods w)) <> Some TDataObject ->
  let coll := copy_collection_target s d in
  fault_at (item_path coll) (faults w) = None ->
  lookup (item_path coll) (irods w) = None ->
  fault_at (path_parent (item_path coll)) (faults w) = None ->
  lookup (path_parent (item_path coll)) (irods w) = Some (ECollection cp) ->
  exists w' ev,
    copy (S depth) src dest false false exist_ok false w = (Ok (1, 1), w')
    /\ irods w' = irods w ++ [(item_path coll, ECollection (mkColl [] []))]
    /\ trace w' = trace w2 ++ ev
    /\ filter is_mutation (api_calls ev) = [(coll, ApiCreate exist_ok)]
    /\ commands_run ev = [].
Proof.
  intros Hs Hd Es Fd Td coll Fc Lc Fp Lp.
  rewrite (copy_unfold depth src dest false false exist_ok false w s d w1 w2 _ Hs Hd Es).
  destruct (resolve_run _ _ _ _ Hs) as (es1 & -> & _).
  destruct (resolve_run _ _ _ _ Hd) as (es2 & -> & _).
  unfold bind at 1. rewrite get_rods_type_run_any by exact Fd. step.
  rewrite !irods_add_events.
  change (type_of_entry (ECollection cs)) with TCollection.
  fold (copy_collection_target s d). fold coll.
  assert (exists w' ev,
    (nc <- _maybe_copy_coll exist_ok coll s coll ;;
     _cp_avu_acl false false s coll ;;;
     ret (1, nc))
      (add_events [Api d ApiRodsType]
         (add_events [Api s ApiRodsType] (add_events es2 (add_events es1 w))))
    = (Ok (1, 1), w')
    /\ irods w' = irods w ++ [(item_path coll, ECollection (mkColl [] []))]
    /\ trace w' = trace (add_events es2 (add_events es1 w)) ++ ev
    /\ filter is_mutation (api_calls ev) = [(coll, ApiCreate exist_ok)]
    /\ commands_run ev = []) as Hgoal.
  { unfold bind at 1. unfold _maybe_copy_coll, bind at 1.
    destruct exist_ok.
    - rewrite exists_run_absent by (trivial). step.
      unfold bind at 1, log. rewrite emit_run. step. unfold bind at 1.
      rewrite (create_run coll true _ cp) by trivial. step.
      unfold _cp_avu_acl, bind. step.
      do 2 eexists. split; [reflexivity|]. split; [reflexivity|]. split.
      { unfold set_irods, add_events. cbn [trace]. rewrite <- !app_assoc. reflexivity. }
      split; reflexivity.
    - step. unfold bind at 1, log. rewrite emit_run. step. unfold bind at 1.
      rewrite (create_run coll false _ cp) by trivial. step.
      unfold _cp_avu_acl, bind. step.
      do 2 eexists. split; [reflexivity|]. split; [reflexivity|]. split.
      { unfold set_irods, add_events. cbn [trace]. rewrite <- !app_assoc. reflexivity. }
      split; reflexivity. }
  destruct (option_map type_of_entry (lookup (item_path d) (irods w))) as [[|]|];
    [exact Hgoal | contradiction | exact Hgoal].
Qed.

(** [/root/b] is copied into the root collection [/]. *)
Lemma copy_creates_the_collection_witness :
  exists w',
    @copy reference 1 (inl ["/"; "root"; "b"]) (inl ["/"]) false false false false
      (start tree_zone) = (Ok (1, 1), w')
    /\ irods w' = tree_zone ++ [(["/"; "b"], empty_coll)].
Proof.
  destruct (@copy_creates_the_collection reference 0
              (inl ["/"; "root"; "b"]) (inl ["/"]) false
              (start tree_zone)
              (add_events [Api (Collection ["/"; "root"; "b"]) ApiMakeRodsItem]
                 (start tree_zone))
              (add_events [Api (Collection ["/"; "root"; "b"]) ApiMakeRodsItem;
                           Api (Collection ["/"]) ApiMakeRodsItem]
                 (start tree_zone))
              (Collection ["/"; "root"; "b"]) (Collection ["/"])
              (mkColl [] []) (mkColl [] []) eq_refl eq_refl eq_refl eq_refl)
    as (w' & ev & E & Hi & _).
  - discriminate.
  - reflexivity.
  - reflexivity.
  - reflexivity.
  - reflexivity.
  - exists w'. split; [exact E | exact Hi].
Defined.

(** ** Items that need no repair *)

(** X14. When [has_matching_checksum_metadata] holds of the data object of
    a line, [repair_checksums.fn] returns success True and repair False,
    prints nothing whatever [print_repair] and [print_fail] are, and makes no
    call that changes the server. *)
Theorem repair_checksums_leaves_matching_items `{Environment}
  (print_repair print_fail : bool) (i : nat) (line : string) (w : world) :
  holds (has_matching_checksum_metadata (object_of_line line)) w = true ->
  exists es,
    repair_checksums_fn print_repair print_fail i line w
    = (Ok (true, false), add_events es w)
    /\ read_only es
    /\ printed es = [].
Proof.
  unfold holds. rewrite has_matching_checksum_metadata_run.
  unfold repair_checksums_fn, repair_checksums_try, try_except, bind, read_only.
  fold (object_of_line line). set (obj := object_of_line line).
  rewrite has_matching_checksum_metadata_run.
  destruct (object_view obj w) as [o|e]; cbn [fst]; [|discriminate].
  destruct (matching_checksum_metadata MD5 (obj_replicas o) (obj_metadata o));
    [|discriminate].
  intros _. step. unfold log. rewrite emit_run. step. rewrite add_events_app.
  eexists. split; [reflexivity|]. split; [|reflexivity].
  simpl. repeat constructor.
Qed.

(** [/zone/good] carries the checksum of its replicas as its one [md5] AVU. *)
Lemma repair_checksums_leaves_matching_items_witness :
  exists es,
    @repair_checksums_fn reference true true 0 "/zone/good" (start repair_zone)
    = (Ok (true, false), add_events es (start repair_zone))
    /\ read_only es
    /\ printed es = [].
Proof.
  apply (@repair_checksums_leaves_matching_items reference true true 0 "/zone/good"
           (start repair_zone)).
  reflexivity.
Defined.

(** ** The counts of the repair drivers *)

Lemma returns_ret {A} (P : A -> Prop) (a : A) : P a -> returns P (ret a).
Proof. intros Pa w a' w' E. unfold ret in E. now injection E as <- _. Qed.

Lemma returns_bind {A B} (P : B -> Prop) (m : M A) (k : A -> M B) :
  (forall x, returns P (k x)) -> returns P (bind m k).
Proof.
  intros Hk w b w' E. unfold bind in E.
  destruct (m w) as [[a|e] w0]; [|discriminate].
  exact (Hk a w0 b w' E).
Qed.

Lemma returns_try_except {A} (P : A -> Prop) (m : M A) (h : exn -> M A) :
  returns P m -> (forall e, returns P (h e)) -> returns P (try_except m h).
Proof.
  intros Hm Hh w a w' E. unfold try_except in E.
  destruct (m w) as [[a0|e] w0] eqn:Em.
  - injection E as <- _. exact (Hm _ _ _ Em).
  - exact (Hh e w0 a w' E).
Qed.

Lemma returns_starmap {A B} (P : B -> Prop) (fn : nat -> A -> M B) :
  (forall i x, returns P (fn i x)) ->
  forall l i, returns (Forall P) (starmap fn i l).
Proof.
  intros Hfn l. induction l as [|x l IH]; intros i w rs w' E; simpl in E.
  - unfold ret in E. injection E as <- _. constructor.
  - unfold bind in E.
    destruct (fn i x w) as [[r|e] w0] eqn:E0; [|discriminate].
    destruct (starmap fn (S i) l w0) as [[rs0|e] w1] eqn:E1; [|discriminate].
    unfold ret in E. injection E as <- _.
    constructor; [exact (Hfn _ _ _ _ _ E0) | exact (IH _ _ _ _ E1)].
Qed.

Lemma returns_except_clause `{Environment} (P : bool * bool -> Prop) (b : bool) (i : nat)
  (p : string) (pf : bool) (c : bool * bool) (e : exn) :
  P c -> returns P (log_exception b i e ;;; when pf (_print p) ;;; ret c).
Proof. intros Pc. do 2 (apply returns_bind; intros _). now apply returns_ret. Qed.

Lemma returns_repair_replicas_except `{Environment} (P : bool * bool -> Prop) (pf : bool)
  (i : nat) (p : string) (c : bool * bool) (e : exn) :
  P c -> returns P (repair_replicas_except pf i p c e).
Proof.
  intros Pc. unfold repair_replicas_except.
  do 2 (apply returns_bind; intros _). now apply returns_ret.
Qed.

Lemma repair_checksums_fn_repair_is_success `{Environment} (pr pf : bool) (i : nat)
  (line : string) :
  returns repair_is_success (repair_checksums_fn pr pf i line).
Proof.
  unfold repair_checksums_fn. apply returns_try_except.
  - unfold repair_checksums_try.
    apply returns_bind; intros [|].
    + apply returns_bind; intros _. now apply returns_ret.
    + do 4 (apply returns_bind; intros ?).
      apply returns_bind; intros [|].
      * apply returns_bind; intros _. now apply returns_ret.
      * now apply returns_ret.
  - intros e. now apply returns_except_clause.
Qed.

Lemma repair_replicas_fn_repair_is_success `{Environment} (n : nat) (pr pf : bool)
  (i : nat) (line : string) :
  returns repair_is_success (repair_replicas_fn n pr pf i line).
Proof.
  unfold repair_replicas_fn. apply returns_try_except.
  - unfold repair_replicas_try.
    apply returns_bind; intros comp. apply returns_bind; intros [|].
    + apply returns_bind; intros [valid invalid].
      do 3 (apply returns_bind; intros _). now apply returns_ret.
    + apply returns_try_except.
      * do 4 (apply returns_bind; intros ?). now apply returns_ret.
      * intros e. now apply returns_repair_replicas_except.
  - intros e. now apply returns_repair_replicas_except.
Qed.

Lemma count_true_repair_is_success (rs : list (bool * bool)) :
  Forall repair_is_success rs ->
  count_true (map snd rs) <= count_true (map fst rs).
Proof.
  rewrite !count_true_map.
  induction 1 as [|[s r] rs Hr _ IH]; simpl; trivial.
  unfold repair_is_success in Hr. simpl in Hr.
  destruct r; [rewrite Hr by trivial; simpl; lia|].
  destruct s; simpl; lia.
Qed.

Lemma repair_driver_counts (rs : list (bool * bool)) (N R E : nat) (w w' : world) :
  Forall repair_is_success rs ->
  (' (results, repaired) <- unzip_results rs ;;
   ret (List.length results, count_true repaired,
        List.length results - count_true results)) w = (Ok (N, R, E), w') ->
  N = List.length rs /\ R + E <= N /\ E <= N.
Proof.
  intros Hrs Eq.
  pose proof (count_true_repair_is_success _ Hrs) as HR.
  pose proof (count_true_le (map fst rs)) as L. rewrite length_map in L.
  clear Hrs. destruct rs as [|r rs]; [discriminate|].
  unfold bind, unzip_results, ret in Eq. cbv beta iota in Eq.
  set (l := r :: rs) in *.
  assert (List.length (map fst l) = N) as HN by congruence.
  assert (count_true (map snd l) = R) as HR' by congruence.
  assert (List.length (map fst l) - count_true (map fst l) = E) as HE by congruence.
  rewrite length_map in HN, HE. clearbody l. lia.
Qed.

(** X15. Whenever [repair_checksums] or [repair_replicas] returns
    (processed, repaired, errors), processed is the number of lines read and
    repaired + errors <= processed: in [fn], [repair] is set to True only
    together with [success], so that no line is counted both as repaired
    and as an error. *)
Theorem repair_counts_add_up `{Environment} (reader : list string) (num_replicas : nat)
  (print_repair print_fail : bool) (w w' : world) (N R E : nat) :
  repair_checksums reader print_repair print_fail w = (Ok (N, R, E), w')
  \/ repair_replicas reader num_replicas print_repair print_fail w = (Ok (N, R, E), w') ->
  N = List.length reader /\ R + E <= N.
Proof.
  intros [Eq|Eq].
  - unfold repair_checksums in Eq. unfold bind at 1 in Eq.
    destruct (starmap (repair_checksums_fn print_repair print_fail) 0 reader w)
      as [[rs|e] w0] eqn:Es; [|discriminate].
    destruct (starmap_total _ (repair_checksums_fn_total print_repair print_fail)
                reader 0 w) as (rs' & w1 & Es' & Hlen).
    rewrite Es in Es'. injection Es' as <- <-.
    pose proof (returns_starmap repair_is_success _
                  (repair_checksums_fn_repair_is_success print_repair print_fail)
                  reader 0 w rs w0 Es) as Hrs.
    destruct (repair_driver_counts rs N R E w0 w' Hrs Eq) as (HN & HR & _).
    split; [congruence | exact HR].
  - unfold repair_replicas in Eq. unfold bind at 1 in Eq.
    destruct (starmap (repair_replicas_fn num_replicas print_repair print_fail) 0 reader w)
      as [[rs|e] w0] eqn:Es; [|discriminate].
    destruct (starmap_total _
                (repair_replicas_fn_total num_replicas print_repair print_fail)
                reader 0 w) as (rs' & w1 & Es' & Hlen).
    rewrite Es in Es'. injection Es' as <- <-.
    pose proof (returns_starmap repair_is_success _
                  (repair_replicas_fn_repair_is_success num_replicas print_repair
                     print_fail)
                  reader 0 w rs w0 Es) as Hrs.
    destruct (repair_driver_counts rs N R E w0 w' Hrs Eq) as (HN & HR & _).
    split; [congruence | exact HR].
Qed.

(** Five lines, of which one is repaired and one is missing. *)
Lemma repair_counts_add_up_witness :
  5 = List.length
        ["/zone/good"; "/zone/untyped"; "/zone/missing"; "/zone/good"; "/zone/no_avu"]
  /\ 1 + 1 <= 5.
Proof.
  apply (@repair_counts_add_up reference
           ["/zone/good"; "/zone/untyped"; "/zone/missing"; "/zone/good"; "/zone/no_avu"]
           2 true true (start repair_zone)
           (snd (@repair_checksums reference
                   ["/zone/good"; "/zone/untyped"; "/zone/missing"; "/zone/good";
                    "/zone/no_avu"] true true (start repair_zone)))
           5 1 1).
  left. reflexivity.
Defined.

(** ** An exception raised in an [except] clause *)

Lemma starmap_raise_at {A B} (fn : nat -> A -> M B) (before : list A) (x : A)
  (after : list A) (i : nat) (w w1 w2 : world) (rs1 : list B) (e : exn) :
  starmap fn i before w = (Ok rs1, w1) ->
  fn (i + List.length before) x w1 = (Raise e, w2) ->
  starmap fn i (before ++ x :: after) w = (Raise e, w2).
Proof.
  revert i w rs1. induction before as [|y before IH]; intros i w rs1 E1 E2; simpl in *.
  - unfold ret in E1. injection E1 as _ <-. rewrite Nat.add_0_r in E2.
    unfold bind. now rewrite E2.
  - unfold bind in *. destruct (fn i y w) as [[r|e0] w0]; [|discriminate].
    destruct (starmap fn (S i) before w0) as [[rs|e0] w3] eqn:E3; [|discriminate].
    unfold ret in E1. injection E1 as _ <-.
    rewrite (IH (S i) w0 rs E3); trivial.
    now replace (S i + List.length before) with (i + S (List.length before)) by lia.
Qed.

(** X17. Nothing catches what an [except] clause of [check_checksums.fn] or
    of [repair_checksums.fn] raises.  When the lines before an item are
    processed, the [try] suite of the item raises, and the [except] clause
    that takes the exception raises in its turn, as it does when [print_fail]
    is set and the writer refuses the line, then the driver raises that
    second exception and returns no counts. *)
Theorem except_clause_exceptions_leave_the_driver `{Environment} (out : Sinks)
  (before : list string) (line : string) (after : list string) (p1 p2 : bool)
  (w w1 w2 w3 : world) (e e' : exn) :
  (forall rs1 success,
      starmap (Fallible.check_checksums_fn out p1 p2) 0 before w = (Ok rs1, w1) ->
      Fallible.check_checksums_try out p1 p2 (List.length before) (strip line) w1
      = ((success, Some e), w2) ->
      Fallible.check_checksums_except out p2 (List.length before) (strip line) e w2
      = (Raise e', w3) ->
      fst (Fallible.check_checksums out (before ++ line :: after) p1 p2 w) = Raise e')
  /\ (forall rs1 vars,
        starmap (Fallible.repair_checksums_fn out p1 p2) 0 before w = (Ok rs1, w1) ->
        Fallible.repair_checksums_try out p1 (List.length before) (strip line) w1
        = ((vars, Some e), w2) ->
        Fallible.repair_checksums_except out p2 (List.length before) (strip line) e w2
        = (Raise e', w3) ->
        fst (Fallible.repair_checksums out (before ++ line :: after) p1 p2 w) = Raise e').
Proof.
  split.
  - intros rs1 success E1 Et Eh.
    unfold Fallible.check_checksums, bind.
    rewrite (starmap_raise_at _ before line after 0 w w1 w3 rs1 e' E1); trivial.
    unfold Fallible.check_checksums_fn, try_suite, bind. simpl. now rewrite Et, Eh.
  - intros rs1 vars E1 Et Eh.
    unfold Fallible.repair_checksums, bind.
    rewrite (starmap_raise_at _ before line after 0 w w1 w3 rs1 e' E1); trivial.
    unfold Fallible.repair_checksums_fn, try_suite, bind. simpl. now rewrite Et, Eh.
Qed.

(** Five lines and a closed writer, with [print_fail] set and the first flag
    unset: the third line names nothing in the zone. *)
Lemma except_clause_exceptions_leave_the_driver_witness :
  fst (@Fallible.check_checksums reference closed_writer
         (["/zone/good"; "/zone/untyped"] ++ "/zone/missing"
            :: ["/zone/good"; "/zone/no_avu"])
         false true (start repair_zone))
  = Raise (ValueError "I/O operation on closed file.")
  /\ fst (@Fallible.repair_checksums reference closed_writer
            (["/zone/good"; "/zone/good"] ++ "/zone/missing"
               :: ["/zone/good"; "/zone/no_avu"])
            false true (start repair_zone))
     = Raise (ValueError "I/O operation on closed file.").
Proof.
  split.
  - set (w1 := snd (starmap (@Fallible.check_checksums_fn reference closed_writer
                              false true) 0
                      ["/zone/good"; "/zone/untyped"] (start repair_zone))).
    set (w2 := snd (@Fallible.check_checksums_try reference closed_writer false true 2
                      "/zone/missing" w1)).
    set (e := RodsError "Path does not exist: /zone/missing" USER_FILE_DOES_NOT_EXIST).
    set (w3 := snd (@Fallible.check_checksums_except closed_writer true 2
                      "/zone/missing" e w2)).
    rewrite (proj1 (@except_clause_exceptions_leave_the_driver reference closed_writer
                      ["/zone/good"; "/zone/untyped"] "/zone/missing"
                      ["/zone/good"; "/zone/no_avu"] false true
                      (start repair_zone) w1 w2 w3 e
                      (ValueError "I/O operation on closed file."))
               [true; true] false eq_refl eq_refl eq_refl).
    reflexivity.
  - set (w1 := snd (starmap (@Fallible.repair_checksums_fn reference closed_writer
                              false true) 0
                      ["/zone/good"; "/zone/good"] (start repair_zone))).
    set (w2 := snd (@Fallible.repair_checksums_try reference closed_writer false 2
                      "/zone/missing" w1)).
    set (e := RodsError "Path does not exist: /zone/missing" USER_FILE_DOES_NOT_EXIST).
    set (w3 := snd (@Fallible.repair_checksums_except closed_writer true 2
                      "/zone/missing" e w2)).
    rewrite (proj2 (@except_clause_exceptions_leave_the_driver reference closed_writer
                      ["/zone/good"; "/zone/good"] "/zone/missing"
                      ["/zone/good"; "/zone/no_avu"] false true
                      (start repair_zone) w1 w2 w3 e
                      (ValueError "I/O operation on closed file."))
               [(true, false); (true, false)] (false, false) eq_refl eq_refl eq_refl).
    reflexivity.
Defined.
